(** * Response capture and rich-text-to-Markdown conversion: a shallow embedding

  The development follows the JavaScript sources of the chatbot:
  - [normalizeMarkdown], [looksLikeMarkdown], the final-text selection of
    [waitForResponseAndRender], [fetchCopyMarkdown] and the DOM walker
    ([fenceFor], [extractCodeBlock], [extractTable]) of the Gemini entry
    point;
  - the polling loop of [streamResponse] in chatbot.js, and the typing
    queue that receives its calls;
  - the whole of [render] and [domToMarkdown], with the list stack;
  - the printing loop of [waitForResponseAndRender], the line counters of
    the second [streamResponse], [fetchRecentChats] and the picker
    [selectChatFromList].

  JavaScript strings are sequences of UTF-16 code units; they are modelled
  as lists of [N].  Regular expressions are kept as syntax trees that mirror
  the literals of the source and are run by a derivative matcher. *)

From Stdlib Require Import String Ascii.
From Stdlib Require Import List NArith ZArith Bool Arith Lia.
Import ListNotations.

Set Implicit Arguments.

(* ================================================================== *)
(** ** JavaScript strings *)

Module Js.

Definition char := N.
Definition str := list char.

(** An ASCII literal as a JavaScript string. *)
Definition lit (s : string) : str := map N_of_ascii (list_ascii_of_string s).

Definition LF : char := 10%N.
Definition SPACE : char := 32%N.
Definition BACKSLASH : char := 92%N.
Definition BACKTICK : char := 96%N.
Definition PIPE : char := 124%N.
Definition HASH : char := 35%N.
Definition LPAREN : char := 40%N.
Definition RPAREN : char := 41%N.
Definition DOT : char := 46%N.
Definition GT : char := 62%N.
Definition LBRACKET : char := 91%N.
Definition RBRACKET : char := 93%N.
(** U+2022, the bullet glyph. *)
Definition BULLET : char := 8226%N.

(** [WhiteSpace] and [LineTerminator] of ECMAScript: what [\s] matches and
    what [String.prototype.trim] strips. *)
Definition is_ws (c : char) : bool :=
  ((9 <=? c) && (c <=? 13) || (c =? 32) || (c =? 160) || (c =? 5760)
   || (8192 <=? c) && (c <=? 8202) || (c =? 8232) || (c =? 8233)
   || (c =? 8239) || (c =? 8287) || (c =? 12288) || (c =? 65279))%N.

(** [LineTerminator]: where a multiline [^] may match. *)
Definition is_lt (c : char) : bool :=
  ((c =? 10) || (c =? 13) || (c =? 8232) || (c =? 8233))%N.

Fixpoint ltrim (s : str) : str :=
  match s with
  | [] => []
  | c :: r => if is_ws c then ltrim r else s
  end.

Fixpoint rtrim (s : str) : str :=
  match s with
  | [] => []
  | c :: r =>
      match rtrim r with
      | [] => if is_ws c then [] else [c]
      | r' => c :: r'
      end
  end.

(** [s.trim()] *)
Definition trim (s : str) : str := rtrim (ltrim s).

(** [s === ''] on strings, [a.length === 0] on arrays. *)
Definition is_empty (A : Type) (s : list A) : bool :=
  match s with [] => true | _ => false end.

(** [s.startsWith(p)] *)
Fixpoint startsWith (p s : str) : bool :=
  match p, s with
  | [], _ => true
  | _ :: _, [] => false
  | a :: p', b :: s' => (a =? b)%N && startsWith p' s'
  end.

(** [s.endsWith(p)] *)
Definition endsWith (p s : str) : bool := startsWith (rev p) (rev s).

(** [s.includes(p)] *)
Fixpoint includes (p s : str) : bool :=
  startsWith p s
  || match s with
     | [] => false
     | _ :: r => includes p r
     end.

(** [s.split('\n')]: never the empty array. *)
Fixpoint split_nl (s : str) : list str :=
  match s with
  | [] => [[]]
  | c :: r =>
      if (c =? LF)%N then [] :: split_nl r
      else match split_nl r with
           | [] => [[c]]
           | l :: ls => (c :: l) :: ls
           end
  end.

(** [a.join(sep)] *)
Fixpoint join (sep : str) (a : list str) : str :=
  match a with
  | [] => []
  | [l] => l
  | l :: ls => l ++ sep ++ join sep ls
  end.

Definition join_nl : list str -> str := join [LF].

(** [c.repeat(n)] for a one-character string. *)
Definition repeat_char (c : char) (n : nat) : str := repeat c n.

(** [s.substring(n)] for [0 <= n]. *)
Definition substring_from (n : nat) (s : str) : str := skipn n s.

(** [s.replace(/\n$/, '')]: one trailing line feed is dropped. *)
Fixpoint strip_final_lf (s : str) : str :=
  match s with
  | [] => []
  | [c] => if (c =? LF)%N then [] else [c]
  | c :: r => c :: strip_final_lf r
  end.

(** [s.replace(/\s+/g, ' ')]: every maximal whitespace run becomes one
    space. *)
Fixpoint collapse_ws_from (in_run : bool) (s : str) : str :=
  match s with
  | [] => []
  | c :: r =>
      if is_ws c
      then if in_run then collapse_ws_from true r
           else SPACE :: collapse_ws_from true r
      else c :: collapse_ws_from false r
  end.

Definition collapse_ws (s : str) : str := collapse_ws_from false s.

(** [s.replace(/\|/g, '\\|')] *)
Fixpoint escape_pipes (s : str) : str :=
  match s with
  | [] => []
  | c :: r =>
      if (c =? PIPE)%N then BACKSLASH :: PIPE :: escape_pipes r
      else c :: escape_pipes r
  end.

(** The lengths of the maximal backtick runs: [text.match(/`+/g) || []]
    mapped to [m.length]. *)
Fixpoint backtick_runs_from (cur : nat) (s : str) : list nat :=
  match s with
  | [] => match cur with O => [] | _ => [cur] end
  | c :: r =>
      if (c =? BACKTICK)%N then backtick_runs_from (S cur) r
      else match cur with
           | O => backtick_runs_from 0 r
           | _ => cur :: backtick_runs_from 0 r
           end
  end.

Definition backtick_runs (s : str) : list nat := backtick_runs_from 0 s.

(** The first code unit, if any, is not whitespace. *)
Definition head_ok (s : str) : bool :=
  match s with [] => true | c :: _ => negb (is_ws c) end.

(** A text given line by line. *)
Definition text (ls : list string) : str := join_nl (map lit ls).

End Js.

(* ================================================================== *)
(** ** Regular expressions *)

Module Re.
Import Js.

Inductive re : Type :=
| Void : re
| Eps : re
| Cls : (char -> bool) -> re
| Cat : re -> re -> re
| Alt : re -> re -> re
| Star : re -> re.

Fixpoint nullable (r : re) : bool :=
  match r with
  | Void => false
  | Eps => true
  | Cls _ => false
  | Cat a b => nullable a && nullable b
  | Alt a b => nullable a || nullable b
  | Star _ => true
  end.

Definition cat (a b : re) : re :=
  match a, b with
  | Void, _ => Void
  | _, Void => Void
  | Eps, _ => b
  | _, _ => Cat a b
  end.

Definition alt (a b : re) : re :=
  match a, b with
  | Void, _ => b
  | _, Void => a
  | _, _ => Alt a b
  end.

Fixpoint deriv (c : char) (r : re) : re :=
  match r with
  | Void => Void
  | Eps => Void
  | Cls p => if p c then Eps else Void
  | Cat a b =>
      if nullable a then alt (cat (deriv c a) b) (deriv c b)
      else cat (deriv c a) b
  | Alt a b => alt (deriv c a) (deriv c b)
  | Star a => cat (deriv c a) (Star a)
  end.

(** The whole of [s] is in the language of [r]. *)
Fixpoint matches (r : re) (s : str) : bool :=
  match s with
  | [] => nullable r
  | c :: s' => matches (deriv c r) s'
  end.

(** The language of an expression. *)
Inductive accepts : re -> str -> Prop :=
| AEps : accepts Eps []
| ACls p c : p c = true -> accepts (Cls p) [c]
| ACat a b s t : accepts a s -> accepts b t -> accepts (Cat a b) (s ++ t)
| AAltL a b s : accepts a s -> accepts (Alt a b) s
| AAltR a b s : accepts b s -> accepts (Alt a b) s
| AStar0 a : accepts (Star a) []
| AStarS a s t :
    accepts a s -> accepts (Star a) t -> accepts (Star a) (s ++ t).

Definition chr (c : char) : re := Cls (N.eqb c).
Definition not_chr (c : char) : re := Cls (fun x => negb (N.eqb c x)).
Definition any : re := Cls (fun _ => true).
Definition opt (r : re) : re := Alt Eps r.
Definition plus (r : re) : re := Cat r (Star r).

(** [r{0,n}] *)
Fixpoint upto (n : nat) (r : re) : re :=
  match n with
  | O => Eps
  | S k => opt (Cat r (upto k r))
  end.

Fixpoint alts (rs : list re) : re :=
  match rs with
  | [] => Void
  | [r] => r
  | r :: rs' => Alt r (alts rs')
  end.

Fixpoint seq (rs : list re) : re :=
  match rs with
  | [] => Eps
  | [r] => r
  | r :: rs' => Cat r (seq rs')
  end.

Definition word (s : string) : re := seq (map chr (lit s)).

Definition ws : re := Cls is_ws.
Definition digit : re := Cls (fun c => (48 <=? c) && (c <=? 57))%N.

End Re.

(* ================================================================== *)
(** ** The Markdown normalizer *)

Module Normalizer.
Import Js Re.

(** [/^\s*\|?[-:\s]+\|[-:\s|]*$/] *)
Definition dash_colon_ws (c : char) : bool :=
  ((c =? 45) || (c =? 58))%N || is_ws c.

Definition sep_re : re :=
  seq [ Star ws; opt (chr PIPE); plus (Cls dash_colon_ws); chr PIPE;
        Star (Cls (fun c => dash_colon_ws c || (c =? PIPE)%N)) ].

Definition isTableSepLine (value : str) : bool := matches sep_re value.

(** The loop of [countPipes]; [prev] is [value[i - 1]], undefined at
    [i = 0]. *)
Fixpoint countPipes_from (prev : option char) (value : str) : nat :=
  match value with
  | [] => 0
  | c :: r =>
      let escaped :=
        match prev with Some p => (p =? BACKSLASH)%N | None => false end in
      (if (c =? PIPE)%N && negb escaped then 1 else 0)
      + countPipes_from (Some c) r
  end.

Definition countPipes (value : str) : nat := countPipes_from None value.

(** [/^(#{1,6}\s|>|\s*[-*+]\s|\s*\d+\.\s|---$|___$|\*\*\*$|\s*•\s)/] *)
Definition bullet_char (c : char) : bool :=
  ((c =? 45) || (c =? 42) || (c =? 43))%N.

Definition block_re : re :=
  Alt
    (Cat
       (alts [ seq [chr HASH; upto 5 (chr HASH); ws];
               chr GT;
               seq [Star ws; Cls bullet_char; ws];
               seq [Star ws; plus digit; chr DOT; ws];
               seq [Star ws; chr BULLET; ws] ])
       (Star any))
    (alts [ word "---"; word "___"; word "***" ]).

Definition isBlockStart (line : str) : bool := matches block_re line.

Definition fence3 : str := [BACKTICK; BACKTICK; BACKTICK].
Definition two_spaces : str := [SPACE; SPACE].

(** The variables of the loop. *)
Record state : Type := mkState {
  out : list str;
  inFence : bool;
  inTable : bool;
  tablePipeCount : nat
}.

Definition init : state := mkState [] false false 0.

(** [out.push(v)] *)
Definition push (st : state) (v : str) : state :=
  mkState (out st ++ [v]) (inFence st) (inTable st) (tablePipeCount st).

(** [out[out.length - 1]] read as [... || ''] *)
Definition last_line (o : list str) : str := last o [].

(** [out[out.length - 1] = v] on a non-empty array. *)
Definition set_last (st : state) (v : str) : state :=
  mkState (removelast (out st) ++ [v]) (inFence st) (inTable st)
          (tablePipeCount st).

(** One iteration of the [for] loop; [next] is [lines[i + 1] || '']. *)
Definition step (st : state) (line next : str) : state :=
  let trimmed := trim line in
  if startsWith fence3 trimmed then
    mkState (out st ++ [line]) (negb (inFence st)) (inTable st)
            (tablePipeCount st)
  else if inFence st then push st line
  else
    let pipeCount := countPipes line in
    if negb (inTable st) && (2 <=? pipeCount) && isTableSepLine next then
      mkState (out st ++ [line]) (inFence st) true pipeCount
    else if inTable st then
      if is_empty trimmed then
        mkState (out st ++ [[]]) (inFence st) false 0
      else if isTableSepLine line || (tablePipeCount st <=? pipeCount) then
        push st line
      else
        match out st with
        | [] => push st trimmed
        | _ => set_last st (last_line (out st) ++ [SPACE] ++ trimmed)
        end
    else if is_empty trimmed then push st []
    else if isBlockStart line then push st line
    else
      let prev := last_line (out st) in
      let prevBlock := isBlockStart prev in
      if negb (is_empty (out st)) && negb (is_empty prev) && negb prevBlock
         && negb (endsWith two_spaces (trim prev))
      then set_last st (prev ++ [SPACE] ++ trimmed)
      else push st trimmed.

Fixpoint loop (st : state) (lines : list str) : state :=
  match lines with
  | [] => st
  | line :: rest => loop (step st line (hd [] rest)) rest
  end.

Definition normalizeMarkdown (md : str) : str :=
  join_nl (out (loop init (split_nl md))).

(** [/```|^\s{0,3}#{1,6}\s|\n\s*[-*+]\s|\n\s*\d+\.\s|\|\s*---|\[[^\]]+\]\([^)]+\)|`[^`]+`/m],
    searched anywhere in the text; with the [m] flag [^] holds at the start
    of the text and after a line terminator. *)
Definition md_anywhere : re :=
  alts [ word "```";
         seq [chr LF; Star ws; Cls bullet_char; ws];
         seq [chr LF; Star ws; plus digit; chr DOT; ws];
         seq [chr PIPE; Star ws; word "---"];
         seq [chr LBRACKET; plus (not_chr RBRACKET); chr RBRACKET;
              chr LPAREN; plus (not_chr RPAREN); chr RPAREN];
         seq [chr BACKTICK; plus (not_chr BACKTICK); chr BACKTICK] ].

Definition md_heading : re := seq [upto 3 ws; chr HASH; upto 5 (chr HASH); ws].

Definition md_re : re :=
  Alt (seq [Star any; md_anywhere; Star any])
      (seq [opt (Cat (Star any) (Cls is_lt)); md_heading; Star any]).

Definition looksLikeMarkdown (text : str) : bool :=
  if is_empty text then false else matches md_re text.

End Normalizer.

(* ================================================================== *)
(** ** Notions used to state and prove the properties of the normalizer *)

Module NormalizerAux.
Import Js Re Normalizer.

(** A line that toggles fence mode. *)
Definition is_fence_line (line : str) : bool := startsWith fence3 (trim line).

(** The guard of the soft-wrap join, as a function of the output so far. *)
Definition joinable (o : list str) : bool :=
  negb (is_empty o) && negb (is_empty (last_line o))
  && negb (isBlockStart (last_line o))
  && negb (endsWith two_spaces (trim (last_line o))).

(** The loop with the look-ahead of its last line given: [d] stands for the
    line that follows [lines]. *)
Fixpoint loop_la (st : state) (lines : list str) (d : str) : state :=
  match lines with
  | [] => st
  | line :: rest => loop_la (step st line (hd d rest)) rest d
  end.

(** [Settled o f]: running the loop over the lines [o] reproduces them one
    by one and ends in fence mode [f]. *)
Inductive Settled : list str -> bool -> Prop :=
| Settled_nil : Settled [] false
| Settled_snoc o f p f' :
    Settled o f ->
    (forall next, step (mkState o f false 0) p next
                  = mkState (o ++ [p]) f' false 0) ->
    Settled (o ++ [p]) f'.


(** The rule for a continuation line as C6 words it: outside fences and
    tables a non-blank line that is no block start is appended to the
    previous output line, unless that line is a block start, ends with two
    spaces, or there is no output yet. *)
Definition soft_wrap_as_stated : Prop :=
  forall st line next,
    inFence st = false -> inTable st = false ->
    is_fence_line line = false ->
    (2 <=? countPipes line) && isTableSepLine next = false ->
    trim line <> [] -> isBlockStart line = false ->
    let prev := last_line (out st) in
    if is_empty (out st) || isBlockStart prev || endsWith two_spaces prev
    then out (step st line next) = out st ++ [trim line]
    else out (step st line next)
         = removelast (out st) ++ [prev ++ [SPACE] ++ trim line].

End NormalizerAux.

(* ================================================================== *)
(** ** Choosing the final text *)

Module Selector.
Import Js Normalizer.

(** The result of [fetchCopyMarkdown] is [null] or a string, the result of
    [fetchDomMarkdown] is a string.  [!s] holds of [null] and of ['']. *)
Definition falsy (s : option str) : bool :=
  match s with
  | None => true
  | Some t => is_empty t
  end.

Definition blank (s : str) : bool := is_empty (trim s).

(** The [if]/[else if] after the polling loop of
    [waitForResponseAndRender]. *)
Definition chooseFinalText (copy : option str) (dom : str) : option str :=
  match copy with
  | None => Some dom
  | Some t =>
      if falsy copy || blank t then Some dom
      else if negb (looksLikeMarkdown t) then
        if negb (falsy (Some dom)) && negb (blank dom) then Some dom
        else copy
      else copy
  end.

(** [finalText || ''] *)
Definition or_empty (s : option str) : str :=
  match s with
  | None => []
  | Some t => t
  end.

Section Render.
(** The Markdown renderer [marked] of the terminal side. *)
Variable marked : str -> str.

Definition finalText (copy : option str) (dom : str) : str :=
  normalizeMarkdown (or_empty (chooseFinalText copy dom)).

Definition rendered (copy : option str) (dom : str) : str :=
  marked (finalText copy dom).
End Render.

End Selector.

(* ================================================================== *)
(** ** The polling loop of [streamResponse] *)

Module Poller.
Import Js.

(** What one run of the [setInterval] callback reads from the page and the
    clock. *)
Record observation : Type := mkObs {
  candidates : nat;      (* [candidates.length] *)
  currentText : str;     (* [candidate.innerText || ''] *)
  uiComplete : bool;     (* the container holds a regenerate or thumb-up
                            button *)
  elapsed : Z;           (* [Date.now() - startTime], in milliseconds *)
  walked : str           (* [domToMarkdown(candidate)] *)
}.

(** The calls made to the exposed functions of the terminal side. *)
Inductive event : Type :=
| NewChunk : str -> event
| FinalMarkdown : str -> event
| ResponseComplete : event.

Record state : Type := mkState {
  lastTextLength : nat;
  stableCount : nat;
  running : bool;        (* the interval has not been cleared *)
  events : list event
}.

Definition init : state := mkState 0 0 true [].

(** The text-diff part of a tick. *)
Definition observe (st : state) (text : str) : state :=
  let len := List.length text in
  if lastTextLength st <? len then
    mkState len 0 (running st)
            (events st ++ [NewChunk (substring_from (lastTextLength st) text)])
  else if (len =? lastTextLength st) && (0 <? len) then
    mkState (lastTextLength st) (S (stableCount st)) (running st) (events st)
  else st.

Definition finish (st : state) (o : observation) : state :=
  let finalMarkdown :=
    if is_empty (walked o) || is_empty (trim (walked o)) then currentText o
    else walked o in
  mkState (lastTextLength st) (stableCount st) false
          (events st ++ [FinalMarkdown finalMarkdown; ResponseComplete]).

(** One run of the interval callback. *)
Definition tick (initialCount : nat) (st : state) (o : observation) : state :=
  if initialCount <? candidates o then
    let st1 := observe st (currentText o) in
    if uiComplete o
       || ((5 <? stableCount st1) && (0 <? lastTextLength st1))
       || (120000 <? elapsed o)%Z
    then finish st1 o
    else st1
  else if (30000 <? elapsed o)%Z then
    mkState (lastTextLength st) (stableCount st) false
            (events st ++ [ResponseComplete])
  else st.

(** The callback runs once per observation until the interval is
    cleared. *)
Fixpoint poll (initialCount : nat) (st : state) (os : list observation)
  : state :=
  match os with
  | [] => st
  | o :: rest =>
      if running st then poll initialCount (tick initialCount st o) rest
      else st
  end.

Fixpoint chunks (evs : list event) : list str :=
  match evs with
  | [] => []
  | NewChunk s :: rest => s :: chunks rest
  | _ :: rest => chunks rest
  end.

(** All the text handed to [onNewChunk], in order. *)
Definition streamed (st : state) : str := concat (chunks (events st)).

(** An observation of a reply with the given text and nothing else of
    note. *)
Definition sees (n : nat) (t : string) (ms : Z) : observation :=
  mkObs n (lit t) false ms (lit t).

(** The observed lengths never go down, starting from [prev]. *)
Fixpoint nondecreasing_from (prev : nat) (lens : list nat) : bool :=
  match lens with
  | [] => true
  | n :: rest => (prev <=? n) && nondecreasing_from n rest
  end.

(** The last observed length is non-zero and the six observations before
    it had the same length: six ticks in a row have seen no change. *)
Definition six_unchanged_ticks (lens : list nat) : bool :=
  match rev lens with
  | [] => false
  | n :: before =>
      (0 <? n) && (6 <=? List.length before)
      && forallb (Nat.eqb n) (firstn 6 before)
  end.

(** Each text extends the one before, starting from [prev]. *)
Fixpoint extends_from (prev : str) (texts : list str) : Prop :=
  match texts with
  | [] => True
  | t :: rest => (exists s, t = prev ++ s) /\ extends_from t rest
  end.

End Poller.

(** *** The loop of [waitForResponseAndRender] *)

Module Waiter.

(** What one round of the [while] loop reads: the abort flag, the object
    returned by [page.evaluate], and the clock. *)
Record observation : Type := mkObs {
  abortRequested : bool;
  hasCopy : bool;
  textLength : nat;
  elapsed : Z
}.

Record state : Type := mkState {
  lastLength : nat;
  stableCount : nat;
  hasStartedTyping : bool
}.

Definition init : state := mkState 0 0 false.

(** One round of the [while] loop: the new state and whether the loop is
    left. *)
Definition round (st : state) (o : observation) : state * bool :=
  if abortRequested o then (st, true)
  else
    let st0 :=
      if (0 <? textLength o) && negb (hasStartedTyping st)
      then mkState (lastLength st) (stableCount st) true
      else st in
    if hasCopy o then (st0, true)
    else
      let st1 :=
        if 0 <? textLength o then
          if textLength o =? lastLength st0
          then mkState (lastLength st0) (S (stableCount st0))
                       (hasStartedTyping st0)
          else mkState (textLength o) 0 (hasStartedTyping st0)
        else st0 in
      if (0 <? textLength o) && (6 <=? stableCount st1) then (st1, true)
      else if (300000 <? elapsed o)%Z then (st1, true)
      else (st1, false).

(** The loop over the observations; [true] when the loop was left. *)
Fixpoint wait (st : state) (os : list observation) : state * bool :=
  match os with
  | [] => (st, false)
  | o :: rest =>
      let (st', done) := round st o in
      if done then (st', true) else wait st' rest
  end.

End Waiter.

(* ================================================================== *)
(** ** Notions used to state and prove the properties of the polling loops *)

Module PollAux.
Import Js Poller.

(** The length of the longest prefix of [l] made of [n] only. *)
Fixpoint count_head (n : nat) (l : list nat) : nat :=
  match l with
  | [] => 0
  | x :: r => if x =? n then S (count_head n r) else 0
  end.

(** The length and stability counters of both loops, on a new length. *)
Definition track (p : nat * nat) (n : nat) : nat * nat :=
  if fst p <? n then (n, 0)
  else if (n =? fst p) && (0 <? n) then (fst p, S (snd p))
  else p.

(** [Tracked lens p]: the counters [p] after the observed lengths
    [lens]. *)
Definition Tracked (lens : list nat) (p : nat * nat) : Prop :=
  fst p = last lens 0
  /\ (fst p = 0 -> snd p = 0)
  /\ (0 < fst p -> S (snd p) = count_head (fst p) (rev lens)).

(** The lengths seen by the loop. *)
Definition lengths (os : list observation) : list nat :=
  map (fun o => List.length (currentText o)) os.

(** The texts read by the ticks that found the reply: the text of the
    candidate is read only when [candidates.length > initialCount]. *)
Definition seen (ic : nat) (os : list observation) : list str :=
  map currentText (filter (fun o => ic <? candidates o) os).

(** A reply that gains one character on every tick of 200 ms. *)
Definition steady_growth (ticks : nat) : list observation :=
  map (fun i => mkObs 1 (repeat 97%N i) false (200 * Z.of_nat i)
                      (repeat 97%N i))
      (seq 1 ticks).

End PollAux.

(* ================================================================== *)
(** ** Document trees and selectors *)

Module Dom.
Import Js.

(** What the walker reads of an element: its tag name in lower case (as
    [tagName.toLowerCase()] gives it), its class list and its attributes. *)
Record einfo : Type := mkInfo {
  tag : str;
  classes : list str;
  attrs : list (str * str)
}.

#[local] Set Warnings "-register-all".
Inductive node : Type :=
| Text : str -> node                    (* [nodeType === 3] *)
| Comment : str -> node                 (* neither 1 nor 3 *)
| Elem : einfo -> list node -> node.    (* [nodeType === 1] *)

Fixpoint str_eqb (a b : str) : bool :=
  match a, b with
  | [], [] => true
  | x :: a', y :: b' => (x =? y)%N && str_eqb a' b'
  | _, _ => false
  end.

(** [el.textContent] of an element: the text of its descendants in document
    order; comments do not count. *)
Fixpoint textContent (n : node) : str :=
  match n with
  | Text s => s
  | Comment _ => []
  | Elem _ kids => concat (map textContent kids)
  end.

(** [el.children]: the child elements. *)
Definition children (n : node) : list node :=
  match n with
  | Elem _ kids =>
      filter (fun k => match k with Elem _ _ => true | _ => false end) kids
  | _ => []
  end.

Definition info (n : node) : option einfo :=
  match n with
  | Elem e _ => Some e
  | _ => None
  end.

Definition has_tag (t : string) (n : node) : bool :=
  match n with
  | Elem e _ => str_eqb (tag e) (lit t)
  | _ => false
  end.

(** A compound selector: an optional type selector, an optional class and
    an optional [[name="value"]] test. *)
Record compound : Type := mkCompound {
  c_tag : option str;
  c_class : option str;
  c_attr : option (str * str)
}.

(** A complex selector built with descendant combinators: the compound of
    the element itself and those of its ancestors, nearest first. *)
Record selector : Type := mkSel {
  subject : compound;
  above : list compound
}.

Definition matches_compound (e : einfo) (c : compound) : bool :=
  match c_tag c with Some t => str_eqb (tag e) t | None => true end
  && match c_class c with
     | Some k => existsb (str_eqb k) (classes e)
     | None => true
     end
  && match c_attr c with
     | Some (name, value) =>
         existsb (fun a => str_eqb (fst a) name && str_eqb (snd a) value)
                 (attrs e)
     | None => true
     end.

(** The ancestors [anc], nearest first, contain matches of [cs] in order. *)
Fixpoint has_ancestors (cs : list compound) (anc : list einfo) : bool :=
  match cs with
  | [] => true
  | c :: more =>
      match anc with
      | [] => false
      | a :: rest =>
          if matches_compound a c then has_ancestors more rest
          else has_ancestors cs rest
      end
  end.

Definition matches_selector (e : einfo) (anc : list einfo) (s : selector)
  : bool :=
  matches_compound e (subject s) && has_ancestors (above s) anc.

Definition matches_group (e : einfo) (anc : list einfo) (g : list selector)
  : bool :=
  existsb (matches_selector e anc) g.

(** The descendant elements of [n] in document order, each with its
    ancestors, nearest first; [anc] are the ancestors of [n] itself. *)
Fixpoint descendants (anc : list einfo) (n : node)
  : list (node * list einfo) :=
  match n with
  | Elem e kids =>
      flat_map
        (fun k =>
           match k with
           | Elem _ _ => (k, e :: anc) :: descendants (e :: anc) k
           | _ => []
           end)
        kids
  | _ => []
  end.

(** [scope.querySelectorAll(g)]: the elements searched are the descendants
    of [scope], the selectors are matched against the whole document. *)
Definition querySelectorAll (anc : list einfo) (scope : node)
    (g : list selector) : list (node * list einfo) :=
  filter (fun p => match info (fst p) with
                   | Some e => matches_group e (snd p) g
                   | None => false
                   end)
         (descendants anc scope).

(** [scope.querySelector(g)] *)
Definition querySelector (anc : list einfo) (scope : node)
    (g : list selector) : option (node * list einfo) :=
  hd_error (querySelectorAll anc scope g).

Definition by_tag (t : string) : compound :=
  mkCompound (Some (lit t)) None None.
Definition by_class (k : string) : compound :=
  mkCompound None (Some (lit k)) None.
Definition just (c : compound) : selector := mkSel c [].
Definition inside (outer c : compound) : selector := mkSel c [outer].

(** An element without classes and attributes. *)
Definition el (t : string) (kids : list node) : node :=
  Elem (mkInfo (lit t) [] []) kids.

End Dom.

(* ================================================================== *)
(** ** The rich-text walker: code blocks and tables *)

Module Walker.
Import Js Dom.

(** [function append(text) { if (text) md += text; }] *)
Definition append (md text : str) : str :=
  if is_empty text then md else md ++ text.

(** [fenceFor]: the loop over the matches of [/`+/g] keeps the longest. *)
Definition longest_run (text : str) : nat :=
  fold_left Nat.max (backtick_runs text) 0.

Definition fenceFor (text : str) : str :=
  repeat_char BACKTICK (Nat.max 3 (longest_run text + 1)).

Definition inlineFence (text : str) : str :=
  repeat_char BACKTICK (Nat.max 1 (longest_run text + 1)).

(** [(text || '').replace(/\s+/g, ' ').replace(/\|/g, '\\|').trim()] *)
Definition escapeTableCell (text : str) : str :=
  trim (escape_pipes (collapse_ws text)).

(** ['.code-block-decoration span, .header-formatted span,
    .code-block-decoration'] *)
Definition lang_selectors : list selector :=
  [ inside (by_class "code-block-decoration") (by_tag "span");
    inside (by_class "header-formatted") (by_tag "span");
    just (by_class "code-block-decoration") ].

(** ['code[data-test-id="code-content"], pre code, code, pre'] *)
Definition code_selectors : list selector :=
  [ just (mkCompound (Some (lit "code")) None
                     (Some (lit "data-test-id", lit "code-content")));
    inside (by_tag "pre") (by_tag "code");
    just (by_tag "code");
    just (by_tag "pre") ].

Section Walk.

(** [String.prototype.toLowerCase] *)
Variable toLowerCase : str -> str.

(** [extractCodeBlock(block)]; [anc] are the ancestors of [block], [md] is
    the buffer. *)
Definition extractCodeBlock (anc : list einfo) (block : node) (md : str)
  : str :=
  let lang :=
    match querySelector anc block lang_selectors with
    | Some (langEl, _) => toLowerCase (trim (textContent langEl))
    | None => []
    end in
  let codeText :=
    strip_final_lf
      match querySelector anc block code_selectors with
      | Some (codeEl, _) => textContent codeEl
      | None => []
      end in
  let fence := fenceFor codeText in
  append md
    ([LF; LF] ++ fence ++ (if is_empty lang then [] else SPACE :: lang)
     ++ [LF] ++ codeText ++ [LF] ++ fence ++ [LF; LF]).

End Walk.

(** The cells of a row: its [td] and [th] children (or the [th] ones
    only), escaped. *)
Definition cells_of (th_only : bool) (row : node) : list str :=
  map (fun c => escapeTableCell (textContent c))
      (filter (fun c => has_tag "th" c
                        || (negb th_only && has_tag "td" c))
              (children row)).

(** [| a | b |] and a line feed. *)
Definition table_line (cells : list str) : str :=
  lit "| " ++ join (lit " | ") cells ++ lit " |" ++ [LF].

(** [extractTable(table)] *)
Definition extractTable (anc : list einfo) (table : node) (md : str) : str :=
  let headerCells0 :=
    match querySelector anc table [just (by_tag "thead")] with
    | Some (thead, thead_anc) =>
        match querySelector thead_anc thead [just (by_tag "tr")] with
        | Some (headerRow, _) => cells_of true headerRow
        | None => []
        end
    | None => []
    end in
  let bodyRows :=
    querySelectorAll anc table
      [inside (by_tag "tbody") (by_tag "tr"); just (by_tag "tr")] in
  let rows0 :=
    filter (fun cells => negb (is_empty cells))
           (map (fun r => cells_of false (fst r)) bodyRows) in
  let '(headerCells, rows) :=
    match headerCells0, rows0 with
    | [], first :: rest => (first, rest)
    | _, _ => (headerCells0, rows0)
    end in
  if is_empty headerCells then md
  else
    let colCount :=
      fold_left Nat.max (map (@List.length str) rows)
                (List.length headerCells) in
    let pad := fun arr : list str =>
      arr ++ repeat [] (colCount - List.length arr) in
    let header := pad headerCells in
    let sep := map (fun _ => lit "---") header in
    append md
      ([LF; LF] ++ table_line header ++ table_line sep
       ++ concat (map (fun row => table_line (pad row)) rows) ++ [LF]).

End Walker.

(* ================================================================== *)
(** ** The copy action: [fetchCopyMarkdown] *)

Module Clipboard.
Import Js.

(** The receiver of a call. *)
Inductive receiver : Type :=
| TheClipboard        (* [navigator.clipboard] *)
| TheDocument         (* [document] *)
| Elsewhere.

(** Function values; two of them are the same function only when they are
    equal here. *)
Inductive fn : Type :=
| Native : string -> fn               (* a function of the page or browser *)
| Bound : fn -> receiver -> fn        (* [target.bind(thisArg)] *)
| CaptureText : fn                    (* [async (text) => { captured = text; ... }] *)
| AlwaysTrue : fn.                    (* [function () { return true; }] *)

Inductive listener : Type :=
| PageListener : nat -> listener      (* a listener of the page *)
| OnCopy : listener.                  (* the closure [onCopy] of this call *)

Record page : Type := mkPage {
  copyListeners : list listener;      (* ['copy'] listeners of [document] *)
  writeText : option fn;              (* [navigator.clipboard.writeText];
                                         [None] when [navigator.clipboard]
                                         or the method is missing *)
  execCommand : fn;                   (* [document.execCommand] *)
  nativeCalls : list (string * receiver * option str)
                                      (* the calls that reached a native
                                         function *)
}.

(** What the click handler of the copy button may do. *)
Inductive action : Type :=
| CallWriteText : str -> action       (* [navigator.clipboard.writeText(t)] *)
| CallExecCommand : action            (* [document.execCommand('copy')] *)
| DispatchCopy : option str -> action.
    (* a [copy] event on [document]; the argument is what
       [e.clipboardData.getData('text/plain')] gives, [None] when it
       throws *)

(** The page and the variable [captured] while the click runs. *)
Record run : Type := mkRun {
  pg : page;
  captured : option str
}.

Fixpoint invoke (f : fn) (this : receiver) (arg : option str) (r : run)
  : run :=
  match f with
  | Native name =>
      mkRun (mkPage (copyListeners (pg r)) (writeText (pg r))
                    (execCommand (pg r))
                    (nativeCalls (pg r) ++ [(name, this, arg)]))
            (captured r)
  | Bound target thisArg => invoke target thisArg arg r
  | CaptureText => mkRun (pg r) arg
  | AlwaysTrue => r
  end.

(** One listener receives the [copy] event. *)
Definition deliver (data : option str) (r : run) (l : listener) : run :=
  match l, data with
  | OnCopy, Some d => mkRun (pg r) (Some d)
  | _, _ => r
  end.

Definition perform (r : run) (a : action) : run :=
  match a with
  | CallWriteText t =>
      match writeText (pg r) with
      | Some f => invoke f TheClipboard (Some t) r
      | None => r
      end
  | CallExecCommand => invoke (execCommand (pg r)) TheDocument None r
  | DispatchCopy d => fold_left (deliver d) (copyListeners (pg r)) r
  end.

Definition is_OnCopy (l : listener) : bool :=
  match l with OnCopy => true | _ => false end.

(** The script run in the page: [copyBtn] tells whether the copy button was
    found, [click] is what its handler does.  The result is what the promise
    resolves to, with the page as the timer callback leaves it. *)
Definition fetchCopyMarkdown (copyBtn : bool) (click : list action)
    (p : page) : option str * page :=
  if negb copyBtn then (None, p)
  else
    (* document.addEventListener('copy', onCopy) *)
    let p1 := mkPage (copyListeners p ++ [OnCopy]) (writeText p)
                     (execCommand p) (nativeCalls p) in
    let originalWriteText :=
      match writeText p1 with
      | Some f => Some (Bound f TheClipboard)
      | None => None
      end in
    let p2 :=
      match originalWriteText with
      | Some _ => mkPage (copyListeners p1) (Some CaptureText)
                         (execCommand p1) (nativeCalls p1)
      | None => p1
      end in
    let originalExecCommand := execCommand p2 in
    let p3 := mkPage (copyListeners p2) (writeText p2) AlwaysTrue
                     (nativeCalls p2) in
    (* copyBtn.click() *)
    let r := fold_left perform click (mkRun p3 None) in
    (* the callback of setTimeout *)
    let p4 := mkPage (filter (fun l => negb (is_OnCopy l))
                             (copyListeners (pg r)))
                     (writeText (pg r)) (execCommand (pg r))
                     (nativeCalls (pg r)) in
    let p5 :=
      match originalWriteText with
      | Some f => mkPage (copyListeners p4) (Some f) (execCommand p4)
                         (nativeCalls p4)
      | None => p4
      end in
    let p6 := mkPage (copyListeners p5) (writeText p5) originalExecCommand
                     (nativeCalls p5) in
    (captured r, p6).

End Clipboard.

(* ================================================================== *)
(** ** What is left of a text when its whitespace is taken out *)

Module Ink.
Import Js.

(** The code units of [s] that are not whitespace, in order. *)
Definition ink (s : str) : str := filter (fun c => negb (is_ws c)) s.

Definition ink_lines (ls : list str) : str := concat (map ink ls).

End Ink.


(* ================================================================== *)
(** ** The shape of the calls made by the polling loop *)

Module ProtocolAux.
Import Js Poller.

(** [Shape st]: chunks first, then nothing more while the loop runs, and
    the closing calls once it has stopped. *)
Definition Shape (st : state) : Prop :=
  exists cs tail,
    events st = map NewChunk cs ++ tail
    /\ Forall (fun c => c <> []) cs
    /\ ((running st = true /\ tail = [])
        \/ (running st = false
            /\ (tail = [ResponseComplete]
                \/ exists m, tail = [FinalMarkdown m; ResponseComplete]))).

End ProtocolAux.

(* ================================================================== *)
(** ** The terminal side of [streamResponse]: the typing queue *)

Module Typist.
Import Js.

(** What reaches the terminal side: the three exposed functions called by
    the page, and the timer set by [typeNextChar]. *)
Inductive event : Type :=
| OnNewChunk : str -> event
| OnFinalMarkdown : str -> event
| OnResponseComplete : event
| Timer : event.

(** What the terminal side does, in order. *)
Inductive output : Type :=
| Put : char -> output        (* [process.stdout.write(char)] *)
| Separator : output          (* [process.stdout.write('\n\n')] *)
| Render : str -> output      (* [console.log(marked(fullText))], or
                                 [console.log(fullText)] when that throws *)
| Resolve : output.           (* [resolveStream()] *)

Record state : Type := mkState {
  charQueue : str;
  isTyping : bool;
  fullText : str;
  responseCompleteTriggered : bool;
  log : list output
}.

Definition init : state := mkState [] false [] false [].

(** [typeNextChar]; when it takes a character it sets the timer for its
    next call. *)
Definition typeNextChar (st : state) : state :=
  match charQueue st with
  | [] =>
      if responseCompleteTriggered st then
        mkState [] false (fullText st) true
                (log st ++ [Separator; Render (fullText st); Resolve])
      else mkState [] false (fullText st) false (log st)
  | c :: rest =>
      mkState rest true (fullText st ++ [c]) (responseCompleteTriggered st)
              (log st ++ [Put c])
  end.

(** The handlers; a timer is pending exactly while [isTyping] holds. *)
Definition handle (st : state) (ev : event) : state :=
  match ev with
  | OnNewChunk chunk =>
      let st1 := mkState (charQueue st ++ chunk) (isTyping st) (fullText st)
                         (responseCompleteTriggered st) (log st) in
      if isTyping st1 then st1 else typeNextChar st1
  | OnFinalMarkdown md =>
      mkState (charQueue st) (isTyping st) md (responseCompleteTriggered st)
              (log st)
  | OnResponseComplete =>
      let st1 := mkState (charQueue st) (isTyping st) (fullText st) true
                         (log st) in
      if negb (isTyping st1) && is_empty (charQueue st1)
      then typeNextChar st1 else st1
  | Timer => if isTyping st then typeNextChar st else st
  end.

Definition run (st : state) (evs : list event) : state :=
  fold_left handle evs st.

(** The text handed over by the chunks of [evs]. *)
Fixpoint received (evs : list event) : str :=
  match evs with
  | [] => []
  | OnNewChunk chunk :: rest => chunk ++ received rest
  | _ :: rest => received rest
  end.

(** The characters typed so far. *)
Fixpoint typed (l : list output) : str :=
  match l with
  | [] => []
  | Put c :: rest => c :: typed rest
  | _ :: rest => typed rest
  end.

End Typist.


(* ================================================================== *)
(** ** The rich-text walker: [render] and [domToMarkdown] *)

Module Render.
Import Js Dom Walker.

Inductive list_kind : Type := UL | OL.

(** An entry of [listStack]: [{ type, index }]. *)
Record entry : Type := mkEntry {
  kind : list_kind;
  index : nat
}.

(** The buffer [md] and [listStack]; the stack is kept innermost list
    first, so that [listStack[listStack.length - 1]] is its head. *)
Record state : Type := mkState {
  md : str;
  listStack : list entry
}.

Fixpoint leading_lf (s : str) : nat :=
  match s with
  | c :: r => if (c =? LF)%N then S (leading_lf r) else 0
  | [] => 0
  end.

(** [md.match(/\n*$/)[0].length]: the number of line feeds [md] ends
    with. *)
Definition trailingNewlines (md : str) : nat := leading_lf (rev md).

Definition ensureNewlines (count : nat) (md : str) : str :=
  let current := trailingNewlines md in
  if current <? count then md ++ repeat_char LF (count - current) else md.

Fixpoint digits (u : Decimal.uint) : str :=
  match u with
  | Decimal.Nil => []
  | Decimal.D0 r => 48%N :: digits r
  | Decimal.D1 r => 49%N :: digits r
  | Decimal.D2 r => 50%N :: digits r
  | Decimal.D3 r => 51%N :: digits r
  | Decimal.D4 r => 52%N :: digits r
  | Decimal.D5 r => 53%N :: digits r
  | Decimal.D6 r => 54%N :: digits r
  | Decimal.D7 r => 55%N :: digits r
  | Decimal.D8 r => 56%N :: digits r
  | Decimal.D9 r => 57%N :: digits r
  end.

(** A counter printed in a template string. *)
Definition decimal (n : nat) : str := digits (Nat.to_uint n).

Definition is_tag (t : string) (e : einfo) : bool := str_eqb (tag e) (lit t).

(** [child.classList.contains(k)] *)
Definition has_class (k : string) (e : einfo) : bool :=
  existsb (str_eqb (lit k)) (classes e).

(** [child.getAttribute(name) || ''] *)
Definition attr_or_empty (name : string) (e : einfo) : str :=
  match find (fun a => str_eqb (fst a) (lit name)) (attrs e) with
  | Some a => snd a
  | None => []
  end.

Definition ens (n : nat) (st : state) : state :=
  mkState (ensureNewlines n (md st)) (listStack st).

Definition app (t : str) (st : state) : state :=
  mkState (append (md st) t) (listStack st).

(** The marker of a list item and the stack after [++top.index]. *)
Definition item_marker (stack : list entry) : str * list entry :=
  match stack with
  | mkEntry OL i :: rest => (decimal (S i) ++ lit ".", mkEntry OL (S i) :: rest)
  | _ => (lit "-", stack)
  end.

(** The lines of a quote, each after ["> "] and before a line feed. *)
Definition quote_lines (content : list str) (m : str) : str :=
  fold_left (fun acc line => append acc (lit "> " ++ line ++ [LF])) content m.

Section Walk.

Variable toLowerCase : str -> str.

(** [render(child, inListItem)]; [anc] are the ancestors of [child]. *)
Fixpoint render (anc : list einfo) (inListItem : bool) (child : node)
    (st : state) {struct child} : state :=
  match child with
  | Text s => app s st
  | Comment _ => st
  | Elem e kids =>
      let renderChildren := fun (inLI : bool) (s0 : state) =>
        fold_left (fun s k => render (e :: anc) inLI k s) kids s0 in
      let heading := fun (marks : string) =>
        ens 2 (renderChildren false (app (lit marks) (ens 2 st))) in
      let list := fun (k : list_kind) =>
        let s1 := ens 2 (mkState (md st) (mkEntry k 0 :: listStack st)) in
        let s2 := renderChildren false s1 in
        ens 2 (mkState (md s2) (tl (listStack s2))) in
      if is_tag "code-block" e || has_class "code-block" e then
        mkState (extractCodeBlock toLowerCase anc child (md st)) (listStack st)
      else if is_tag "pre" e then
        mkState (extractCodeBlock toLowerCase anc child (md st)) (listStack st)
      else if is_tag "table" e then
        mkState (extractTable anc child (md st)) (listStack st)
      else if is_tag "br" e then app [LF] st
      else if is_tag "hr" e then ens 2 (app (lit "---") (ens 2 st))
      else if is_tag "p" e then
        if inListItem then renderChildren true st
        else ens 2 (renderChildren false (ens 2 st))
      else if is_tag "h1" e then heading "# "%string
      else if is_tag "h2" e then heading "## "%string
      else if is_tag "h3" e then heading "### "%string
      else if is_tag "h4" e then heading "#### "%string
      else if is_tag "h5" e then heading "##### "%string
      else if is_tag "h6" e then heading "###### "%string
      else if is_tag "ul" e then list UL
      else if is_tag "ol" e then list OL
      else if is_tag "li" e then
        let s1 := ens 1 st in
        let depth := List.length (listStack s1) - 1 in
        let indent := concat (repeat (lit "  ") depth) in
        let (marker, stack) := item_marker (listStack s1) in
        renderChildren true
          (app (indent ++ marker ++ [SPACE]) (mkState (md s1) stack))
      else if is_tag "blockquote" e then
        let s1 := ens 2 st in
        let inner := renderChildren false (mkState [] (listStack s1)) in
        let content := split_nl (trim (md inner)) in
        ens 2 (mkState (quote_lines content (md s1)) (listStack inner))
      else if is_tag "strong" e || is_tag "b" e then
        app (lit "**") (renderChildren inListItem (app (lit "**") st))
      else if is_tag "em" e || is_tag "i" e then
        app (lit "_") (renderChildren inListItem (app (lit "_") st))
      else if is_tag "code" e then
        let text := textContent child in
        let fence := inlineFence text in
        app (fence ++ text ++ fence) st
      else if is_tag "a" e then
        let href := attr_or_empty "href" e in
        app (lit "](" ++ href ++ lit ")")
            (renderChildren inListItem (app (lit "[") st))
      else renderChildren inListItem st
  end.

(** [renderChildren(el, inListItem)]; [anc] are the ancestors of the
    children, [el] included. *)
Definition renderChildren (anc : list einfo) (inListItem : bool)
    (kids : list node) (st : state) : state :=
  fold_left (fun s k => render anc inListItem k s) kids st.

(** [domToMarkdown(node)] for an element [node] with ancestors [anc]. *)
Definition domToMarkdown (anc : list einfo) (node : Dom.node) : str :=
  match node with
  | Elem e kids => trim (md (renderChildren (e :: anc) false kids (mkState [] [])))
  | _ => []
  end.

End Walk.

(** The tags and the class that [render] treats in a way of their own. *)
Definition handled (e : einfo) : bool :=
  has_class "code-block" e
  || existsb (fun t => is_tag t e)
       ["code-block"; "pre"; "table"; "br"; "hr"; "p"; "h1"; "h2"; "h3";
        "h4"; "h5"; "h6"; "ul"; "ol"; "li"; "blockquote"; "strong"; "b";
        "em"; "i"; "code"; "a"]%string.

(** Every element of the tree is one that [render] passes through. *)
Fixpoint plain (n : node) : bool :=
  match n with
  | Elem e kids => negb (handled e) && forallb plain kids
  | _ => true
  end.

(** No list item of the tree lies outside a list of the tree: the items
    counted are those a [render] of the tree would number in the list open
    around it. *)
Fixpoint closed (n : node) : bool :=
  match n with
  | Elem e kids =>
      if is_tag "code-block" e || has_class "code-block" e then true
      else if is_tag "pre" e || is_tag "table" e || is_tag "br" e
              || is_tag "hr" e then true
      else if is_tag "ul" e || is_tag "ol" e then true
      else if is_tag "li" e then false
      else if is_tag "code" e then true
      else forallb closed kids
  | _ => true
  end.

(** A list item whose content has no item of its own outside a list. *)
Definition is_item (n : node) : bool :=
  match n with
  | Elem e kids =>
      negb (is_tag "code-block" e || has_class "code-block" e)
      && is_tag "li" e && forallb closed kids
  | _ => false
  end.

(** [bump k stack]: the counter of the innermost list advanced by [k] when
    that list is an ordered one. *)
Definition bump (k : nat) (stack : list entry) : list entry :=
  match stack with
  | mkEntry OL i :: rest => mkEntry OL (i + k) :: rest
  | _ => stack
  end.

End Render.


(* ================================================================== *)
(** ** Notions used to state the properties of the table writer *)

Module TableAux.
Import Js.

(** Every pipe of [s] comes right after a backslash; [after_bs] tells
    whether the code unit before [s] is one. *)
Fixpoint pipes_escaped_from (after_bs : bool) (s : str) : bool :=
  match s with
  | [] => true
  | c :: r =>
      (negb (c =? PIPE)%N || after_bs)
      && pipes_escaped_from (c =? BACKSLASH)%N r
  end.

Definition pipes_escaped (s : str) : bool := pipes_escaped_from false s.

(** A cell that cannot break its row: no line feed, and no pipe without a
    backslash before it. *)
Definition cell_ok (s : str) : bool :=
  forallb (fun c => negb (c =? LF)%N) s && pipes_escaped s.

(** A line of a table, without its line feed. *)
Definition row_text (cells : list str) : str :=
  lit "| " ++ join (lit " | ") cells ++ lit " |".

(** What follows the first cell in a line: the other cells, each after
    [" | "], and the closing [" |"]. *)
Definition row_tail (rest : list str) : str :=
  concat (map (List.app (lit " | ")) rest) ++ lit " |".

Definition ok_cell (c : str) : Prop := cell_ok c = true.

Definition ok_row (row : list str) : Prop :=
  Forall (fun c => cell_ok c = true) row.

(** [value[i - 1] === '\\'], which is false at [i = 0]. *)
Definition is_bs (p : option char) : bool :=
  match p with Some c => (c =? BACKSLASH)%N | None => false end.

(** The class [[-:\s|]] of the separator line. *)
Definition sep_class (c : char) : bool :=
  ((c =? 45) || (c =? 58))%N || is_ws c || (c =? PIPE)%N.

End TableAux.


(* ================================================================== *)
(** ** The chat picker: [selectChatFromList] *)

Module Picker.
Import Js.

(** An entry of the list of chats: [{ title, href, clickIndex }]. *)
Record chat : Type := mkChat {
  title : str;
  href : str;
  clickIndex : Z
}.

(** [key.name], as far as [onKeypress] tells names apart. *)
Inductive key_name : Type :=
| KUp | KDown | KReturn | KEscape | KC | KOther.

(** The second argument of the [keypress] listener: [undefined], or a key
    with its name and its [ctrl] flag. *)
Definition key : Type := option (key_name * bool).

(** What the promise is resolved with: [chats[index]], which is
    [undefined] out of range, or [null]. *)
Inductive outcome : Type :=
| Chosen : option chat -> outcome
| Cancelled : outcome.

(** One call of [render]: the selected index, the index of the first line
    shown and the lines written after the header. *)
Record frame : Type := mkFrame {
  selected : Z;
  first : Z;
  lines : list str
}.

Record state : Type := mkState {
  index : Z;
  renderedLines : Z;
  frames : list frame;              (* the calls of [render], in order *)
  resolved : option outcome         (* set by [cleanup] and [resolve] *)
}.

Section WithChats.

Variable chats : list chat.
(** [process.stdout.columns], [None] when it is [undefined]. *)
Variable columns : option Z.

Definition n : Z := Z.of_nat (List.length chats).

Definition maxToShow : Z := Z.min n 12.

(** [Math.max(0, Math.min(index - Math.floor(maxToShow / 2),
    chats.length - maxToShow))] *)
Definition start (index : Z) : Z :=
  Z.max 0 (Z.min (index - maxToShow / 2) (n - maxToShow)).

Definition stop (index : Z) : Z := start index + maxToShow.

(** [chats[i]] *)
Definition at_index (i : Z) : option chat :=
  if (i <? 0)%Z then None else nth_error chats (Z.to_nat i).

(** [process.stdout.columns || 80] *)
Definition cols : Z :=
  match columns with
  | Some c => if (c =? 0)%Z then 80%Z else c
  | None => 80%Z
  end.

Definition maxLabelWidth : Z := Z.max 10 (cols - 6).

(** The label of an item: its title, or ['(untitled)'], cut to
    [maxLabelWidth]. *)
Definition label (item : chat) : str :=
  let l := if is_empty (title item) then lit "(untitled)" else title item in
  if (maxLabelWidth <? Z.of_nat (List.length l))%Z
  then firstn (Z.to_nat (maxLabelWidth - 3)) l ++ lit "..."
  else l.

(** The line of item [i]; [None] when [chats[i]] is [undefined] and
    reading its title throws. *)
Definition line (index i : Z) : option str :=
  match at_index i with
  | Some item =>
      Some ((if (i =? index)%Z then lit " > " else lit "   ") ++ label item)
  | None => None
  end.

(** The lines of the [for] loop from [i] on, [k] of them; [None] when one
    of them throws. *)
Fixpoint lines_from (index i : Z) (k : nat) : option (list str) :=
  match k with
  | O => Some []
  | S k' =>
      match line index i, lines_from index (i + 1) k' with
      | Some l, Some ls => Some (l :: ls)
      | _, _ => None
      end
  end.

(** [render()]; [None] when it throws. *)
Definition render (st : state) : option state :=
  match lines_from (index st) (start (index st)) (Z.to_nat maxToShow) with
  | Some ls =>
      Some (mkState (index st) (1 + maxToShow)
                    (frames st ++ [mkFrame (index st) (start (index st)) ls])
                    (resolved st))
  | None => None
  end.

(** [onKeypress(_str, key)]; once [cleanup] has removed the listener no key
    is seen any more.  [%] is the remainder of numbers; it is taken here on
    integers, for a list that is not empty. *)
Definition onKeypress (st : state) (k : key) : option state :=
  match resolved st with
  | Some _ => Some st
  | None =>
      match k with
      | None => Some st
      | Some (KUp, _) =>
          render (mkState (Z.rem (index st - 1 + n) n) (renderedLines st)
                          (frames st) None)
      | Some (KDown, _) =>
          render (mkState (Z.rem (index st + 1) n) (renderedLines st)
                          (frames st) None)
      | Some (KReturn, _) =>
          Some (mkState (index st) (renderedLines st) (frames st)
                        (Some (Chosen (at_index (index st)))))
      | Some (KEscape, _) | Some (KC, true) =>
          Some (mkState (index st) (renderedLines st) (frames st)
                        (Some Cancelled))
      | Some (_, _) => Some st
      end
  end.

(** The picker after the first [render()] and the keys [ks]. *)
Fixpoint presses (st : state) (ks : list key) : option state :=
  match ks with
  | [] => Some st
  | k :: rest =>
      match onKeypress st k with
      | Some st' => presses st' rest
      | None => None
      end
  end.

(** [selectChatFromList(chats)] on a terminal ([process.stdin.isTTY]): the
    first [render()] and the keys that follow. *)
Definition selectChatFromList (ks : list key) : option state :=
  match render (mkState 0 0 [] None) with
  | Some st => presses st ks
  | None => None
  end.

End WithChats.

End Picker.


(* ================================================================== *)
(** ** Writing the rendered reply: the end of [waitForResponseAndRender] *)

Module Printer.
Import Js.

(** The [for] loop over [rendered.split('\n')]: one [process.stdout.write]
    for each line, with a line feed after every line but the last. *)
Definition line_writes (lines : list str) : list str :=
  map (fun p : nat * str =>
         snd p ++ (if fst p <? List.length lines - 1 then [LF] else []))
      (combine (seq 0 (List.length lines)) lines).

(** All the calls of [process.stdout.write], in order. *)
Definition print (rendered : str) : list str :=
  line_writes (split_nl rendered)
  ++ (if endsWith [LF] rendered then [] else [[LF]]).

End Printer.


(* ================================================================== *)
(** ** The list of recent chats: [fetchRecentChats] *)

Module Recent.
Import Js Dom Render Picker.

(** What is read of an element found by
    [querySelectorAll('[data-test-id="conversation"]')]: the text content of
    its [.conversation-title] descendant if there is one, and three of its
    attributes ([None] for [null]). *)
Record conv : Type := mkConv {
  titleEl : option str;
  ariaLabel : option str;
  describedBy : option str;
  hrefAttr : option str
}.

(** What is read of a link of the navigation: its [href] attribute and
    property, its text content and three attributes. *)
Record link : Type := mkLink {
  l_hrefAttr : option str;
  l_href : str;
  l_text : str;
  l_aria : option str;
  l_title : option str;
  l_describedBy : option str
}.

(** [o || ''] *)
Definition or_empty (o : option str) : str :=
  match o with Some s => s | None => [] end.

(** [seen.has(key)] *)
Definition has (seen : list str) (key : str) : bool :=
  existsb (str_eqb key) seen.

(** [tooltipMap.get(id)]: the pairs are kept newest first. *)
Definition get (m : list (str * str)) (id : str) : option str :=
  match find (fun p => str_eqb (fst p) id) m with
  | Some p => Some (snd p)
  | None => None
  end.

(** The map of tooltips: [container] is [None] when there is no tooltip
    container, and otherwise the ids and text contents of its message
    elements. *)
Definition tooltipMap (container : option (list (str * str)))
  : list (str * str) :=
  match container with
  | None => []
  | Some els =>
      fold_left (fun m el =>
                   let text := trim (snd el) in
                   if is_empty text then m else (fst el, text) :: m)
                els []
  end.

Section WithTooltips.

Variable m : list (str * str).

(** The title of a conversation element. *)
Definition conv_title (el : conv) : str :=
  let t1 :=
    match titleEl el with
    | Some t => trim (collapse_ws t)
    | None => []
    end in
  let t2 :=
    if is_empty t1 then
      match ariaLabel el with
      | Some a => if is_empty a then t1 else trim a
      | None => t1
      end
    else t1 in
  if is_empty t2 then
    match describedBy el with
    | Some d => if is_empty d then t2 else or_empty (get m d)
    | None => t2
    end
  else t2.

(** The body of [convItems.forEach((el, index) => ...)] on the items and
    the keys seen so far. *)
Definition visit_conv (acc : list chat * list str) (p : nat * conv)
  : list chat * list str :=
  let (index, el) := p in
  let title := conv_title el in
  if is_empty title then acc
  else
    let href := or_empty (hrefAttr el) in
    let key :=
      if is_empty href then lit "click:" ++ decimal index else href in
    if has (snd acc) key then acc
    else (fst acc
          ++ [mkChat title href
                     (if is_empty href then Z.of_nat index else (-1)%Z)],
          key :: snd acc).

Definition pickTitle (el : link) : str :=
  let text := trim (collapse_ws (l_text el)) in
  if negb (is_empty text) then text
  else
    let aria := or_empty (l_aria el) in
    if negb (is_empty (trim aria)) then trim aria
    else
      let title := or_empty (l_title el) in
      if negb (is_empty (trim title)) then trim title
      else or_empty (get m (or_empty (l_describedBy el))).

(** The body of [for (const link of links)]. *)
Definition visit_link (acc : list chat * list str) (el : link)
  : list chat * list str :=
  let href :=
    if negb (is_empty (or_empty (l_hrefAttr el)))
    then or_empty (l_hrefAttr el)
    else l_href el in
  if is_empty href || negb (includes (lit "/app/") href) then acc
  else
    let title := pickTitle el in
    if has (snd acc) href then acc
    else (fst acc ++ [mkChat title href (-1)%Z], href :: snd acc).

End WithTooltips.

(** [fetchRecentChats]: what the function evaluated in the page returns,
    from the elements its queries find, when nothing throws. *)
Definition fetchRecentChats (container : option (list (str * str)))
    (convItems : list conv) (links : list link) : list chat :=
  let m := tooltipMap container in
  let acc :=
    fold_left (visit_conv m)
              (combine (seq 0 (List.length convItems)) convItems)
              ([], []) in
  if 0 <? List.length (fst acc) then firstn 30 (fst acc)
  else firstn 30 (fst (fold_left (visit_link m) links acc)).

(** The key under which an entry was recorded in [seen]. *)
Definition key_of (c : chat) : str :=
  if is_empty (href c)
  then lit "click:" ++ decimal (Z.to_nat (clickIndex c))
  else href c.

Definition has_href (c : chat) : bool := negb (is_empty (href c)).

(** An entry can be opened: it has an address, and then a title or an
    address of a chat; or it has a title and the index of the conversation
    element, one without address, that the title was read from. *)
Definition opens (m : list (str * str)) (convItems : list conv) (c : chat)
  : Prop :=
  (href c <> [] /\ clickIndex c = (-1)%Z
   /\ (title c <> [] \/ includes (lit "/app/") (href c) = true))
  \/ (href c = [] /\ title c <> [] /\ (0 <= clickIndex c)%Z
      /\ exists el, nth_error convItems (Z.to_nat (clickIndex c)) = Some el
                    /\ conv_title m el = title c
                    /\ or_empty (hrefAttr el) = []).

End Recent.


(* ================================================================== *)
(** ** Notions used to state and prove the properties of the picker *)

Module PickerAux.
Import Js Picker.

Section WithChats.

Variable chats : list chat.

(** A frame shows [maxToShow] items of the list, the selected one among
    them. *)
Definition frame_ok (f : frame) : Prop :=
  (0 <= first f)%Z
  /\ (first f <= selected f < first f + maxToShow chats)%Z
  /\ (first f + maxToShow chats <= n chats)%Z
  /\ Z.of_nat (List.length (lines f)) = maxToShow chats.

(** What holds of the picker after every key. *)
Definition InRange (st : state) : Prop :=
  (0 <= index st < n chats)%Z
  /\ renderedLines st = (1 + maxToShow chats)%Z
  /\ frames st <> []
  /\ Forall frame_ok (frames st)
  /\ forall c, resolved st = Some (Chosen c) ->
               exists item,
                 c = Some item
                 /\ nth_error chats (Z.to_nat (index st)) = Some item.

End WithChats.

End PickerAux.

(* ================================================================== *)
(** ** Notions used to state and prove the properties of the chat list *)

Module RecentAux.
Import Js Picker Recent.

Section WithPage.

Variable container : option (list (str * str)).
Variable convItems : list conv.

(** What holds of the items and of the keys seen, all along. *)
Definition Recorded (acc : list chat * list str) : Prop :=
  Forall (fun c => In (key_of c) (snd acc)) (fst acc)
  /\ NoDup (map key_of (fst acc))
  /\ Forall (opens (tooltipMap container) convItems) (fst acc).

End WithPage.

End RecentAux.

(* ================================================================== *)
(** ** The lines taken by the streamed text: the second [streamResponse] *)

Module LineCount.
Import Js.

Definition OUTPUT_WIDTH : nat := 88.

(** [process.stdout.columns || d]; [None] stands for [undefined]. *)
Definition columns_or (columns : option nat) (d : nat) : nat :=
  match columns with
  | Some (S c) => S c
  | _ => d
  end.

(** [Math.ceil(a / b)] for a width [b], which is never zero. *)
Definition ceil_div (a b : nat) : nat := (a + b - 1) / b.

(** [streamedText], [streamCol] and [streamLines]. *)
Record counters : Type := mkCounters {
  streamedText : str;
  streamCol : nat;
  streamLines : nat
}.

Definition start : counters := mkCounters [] 0 1.

(** What [typeNextChar] does to the counters when it writes [c]. *)
Definition type_char (columns : option nat) (st : counters) (c : char)
  : counters :=
  if (c =? LF)%N then
    mkCounters (streamedText st ++ [c]) 0 (streamLines st + 1)
  else
    let col := streamCol st + 1 in
    if columns_or columns OUTPUT_WIDTH <=? col
    then mkCounters (streamedText st ++ [c]) 0 (streamLines st + 1)
    else mkCounters (streamedText st ++ [c]) col (streamLines st).

(** The counters after the characters of [t] have been written. *)
Definition type_all (columns : option nat) (t : str) : counters :=
  fold_left (type_char columns) t start.

Section WithStrip.

(** [stripAnsi] *)
Variable stripAnsi : str -> str.

(** [calculateRawLines(text)] *)
Definition calculateRawLines (columns : option nat) (text : str) : nat :=
  fold_left
    (fun visualLineCount line =>
       visualLineCount
       + Nat.max 1 (ceil_div (List.length (stripAnsi line))
                             (columns_or columns 80)))
    (split_nl text) 0.

(** [Math.max(streamLines, calculateRawLines(streamedText || fullText))] *)
Definition linesToClear (columns : option nat) (st : counters)
    (fullText : str) : nat :=
  Nat.max (streamLines st)
          (calculateRawLines columns
             (if is_empty (streamedText st) then fullText
              else streamedText st)).

End WithStrip.

End LineCount.

(* ================================================================== *)
(** ** Notions used to prove the properties of the line counters *)

Module LineCountAux.
Import Js LineCount.

(** The rows of a line of [len] code units in a terminal of width [w]. *)
Definition rows (w len : nat) : nat := Nat.max 1 (ceil_div len w).

(** The rows of the lines of [t] when its first line is written after
    [col] code units. *)
Definition rows_after (w col : nat) (t : str) : nat :=
  match split_nl t with
  | l :: ls =>
      rows w (col + List.length l)
      + list_sum (map (fun x => rows w (List.length x)) ls)
  | [] => 0
  end.

End LineCountAux.


(* ================================================================== *)
(* ================================================================== *)
(** * Properties *)

(* ================================================================== *)
(** ** The matcher and the language of an expression *)

Module ReFacts.
Import Js Re.

Lemma accepts_void s : ~ accepts Void s.
Proof. intros H. inversion H. Qed.

Lemma accepts_eps s : accepts Eps s -> s = [].
Proof. intros H. now inversion H. Qed.

Lemma nullable_accepts r : nullable r = true <-> accepts r [].
Proof.
  split.
  - induction r as [| |p|a IHa b IHb|a IHa b IHb|a IHa]; cbn [nullable];
      intros H; try discriminate.
    + constructor.
    + apply andb_true_iff in H. destruct H as [Ha Hb].
      change (@nil char) with (@nil char ++ []). constructor; auto.
    + apply orb_true_iff in H. destruct H as [H|H];
        [apply AAltL | apply AAltR]; auto.
    + constructor.
  - assert (G : forall s, accepts r s -> s = [] -> nullable r = true).
    { intros s H.
      induction H as [|p c Hp|a b s t Ha IHa Hb IHb|a b s Ha IHa|a b s Hb IHb
                      |a|a s t Ha IHa Hs IHs]; cbn [nullable]; intros Es;
        try reflexivity; try discriminate.
      - apply app_eq_nil in Es. destruct Es as [-> ->].
        now rewrite IHa, IHb.
      - now rewrite IHa.
      - rewrite IHb by assumption. apply orb_true_r. }
    intros H. now apply (G []).
Qed.

Lemma cat_accepts a b s : accepts (cat a b) s <-> accepts (Cat a b) s.
Proof.
  split.
  - destruct a; destruct b; cbn [cat]; intros H;
      try (now apply accepts_void in H);
      try exact H;
      try (change s with ([] ++ s); constructor; [constructor | exact H]).
  - intros H. inversion H as [| |a' b' s1 s2 Ha Hb| | | |]; subst.
    destruct a; destruct b; cbn [cat];
      try (now apply accepts_void in Ha);
      try (now apply accepts_void in Hb);
      try (constructor; assumption);
      try (apply accepts_eps in Ha; subst s1; exact Hb).
Qed.

Lemma alt_accepts a b s : accepts (alt a b) s <-> accepts (Alt a b) s.
Proof.
  split.
  - destruct a; destruct b; cbn [alt]; intros H; try exact H;
      try (now apply accepts_void in H);
      try (now apply AAltR); try (now apply AAltL).
  - intros H. inversion H as [| | |a' b' s' Ha|a' b' s' Hb| |]; subst.
    + destruct a; destruct b; cbn [alt];
        try (now apply accepts_void in Ha);
        try exact Ha; try (now apply AAltL).
    + destruct a; destruct b; cbn [alt];
        try (now apply accepts_void in Hb);
        try exact Hb; try (now apply AAltR).
Qed.

Lemma star_cons a c s :
  accepts (Star a) (c :: s) ->
  exists s1 s2, s = s1 ++ s2 /\ accepts a (c :: s1) /\ accepts (Star a) s2.
Proof.
  assert (G : forall r w, accepts r w -> forall s,
            r = Star a -> w = c :: s ->
            exists s1 s2,
              s = s1 ++ s2 /\ accepts a (c :: s1) /\ accepts (Star a) s2).
  { intros r w H.
    induction H as [|p x Hp|a' b s0 t Ha IHa Hb IHb|a' b s0 Ha IHa
                    |a' b s0 Hb IHb|a'|a' s0 t Ha IHa Hs IHs];
      intros s' Er Ew; try discriminate.
    injection Er as ->.
    destruct s0 as [|x s0].
    - cbn [app] in Ew. now apply IHs.
    - cbn [app] in Ew. injection Ew as -> <-.
      exists s0, t. repeat split; assumption. }
  intros H. now apply (G (Star a) (c :: s)).
Qed.

Lemma cat_split a b s :
  accepts (Cat a b) s <->
  exists s1 s2, s = s1 ++ s2 /\ accepts a s1 /\ accepts b s2.
Proof.
  split.
  - intros H. inversion H; subst. eauto.
  - intros (s1 & s2 & -> & Ha & Hb). now constructor.
Qed.

Lemma cat_cons a b c s :
  accepts (Cat a b) (c :: s) <->
  (exists s1 s2, s = s1 ++ s2 /\ accepts a (c :: s1) /\ accepts b s2)
  \/ (accepts a [] /\ accepts b (c :: s)).
Proof.
  rewrite cat_split. split.
  - intros (s1 & s2 & E & Ha & Hb).
    destruct s1 as [|x s1]; cbn [app] in E.
    + right. subst s2. split; assumption.
    + injection E as <- ->. left. exists s1, s2. repeat split; assumption.
  - intros [(s1 & s2 & -> & Ha & Hb)|[Ha Hb]].
    + exists (c :: s1), s2. repeat split; assumption.
    + exists [], (c :: s). repeat split; assumption.
Qed.

(** The derivative by [c] accepts what is left of the words that start
    with [c]. *)
Lemma deriv_accepts r : forall c s,
  accepts (deriv c r) s <-> accepts r (c :: s).
Proof.
  induction r as [| |p|a IHa b IHb|a IHa b IHb|a IHa]; intros c s;
    cbn [deriv].
  - split; intros H; inversion H.
  - split; intros H; inversion H.
  - destruct (p c) eqn:Ep; split; intros H.
    + apply accepts_eps in H. subst. now constructor.
    + inversion H; subst. constructor.
    + now apply accepts_void in H.
    + inversion H; subst. congruence.
  - rewrite cat_cons.
    destruct (nullable a) eqn:En.
    + rewrite alt_accepts. split.
      * intros H. inversion H as [| | |a' b' s' Hl|a' b' s' Hr| |]; subst.
        -- apply cat_accepts, cat_split in Hl.
           destruct Hl as (s1 & s2 & -> & H1 & H2).
           left. exists s1, s2. repeat split; [now apply IHa | exact H2].
        -- right. split; [now apply nullable_accepts | now apply IHb].
      * intros [(s1 & s2 & -> & H1 & H2)|[_ H2]].
        -- apply AAltL, cat_accepts. constructor; [now apply IHa | exact H2].
        -- apply AAltR. now apply IHb.
    + rewrite cat_accepts, cat_split. split.
      * intros (s1 & s2 & -> & H1 & H2).
        left. exists s1, s2. repeat split; [now apply IHa | exact H2].
      * intros [(s1 & s2 & -> & H1 & H2)|[H1 _]].
        -- exists s1, s2. repeat split; [now apply IHa | exact H2].
        -- apply nullable_accepts in H1. congruence.
  - rewrite alt_accepts. split; intros H;
      inversion H as [| | |a' b' s' Hl|a' b' s' Hr| |]; subst.
    + apply AAltL. now apply IHa.
    + apply AAltR. now apply IHb.
    + apply AAltL. now apply IHa.
    + apply AAltR. now apply IHb.
  - rewrite cat_accepts, cat_split. split.
    + intros (s1 & s2 & -> & H1 & H2).
      change (c :: s1 ++ s2) with ((c :: s1) ++ s2).
      constructor; [now apply IHa | exact H2].
    + intros H. apply star_cons in H.
      destruct H as (s1 & s2 & -> & H1 & H2).
      exists s1, s2. repeat split; [now apply IHa | exact H2].
Qed.

(** The matcher decides membership in the language of the expression. *)
Theorem matches_accepts r s : matches r s = true <-> accepts r s.
Proof.
  revert r. induction s as [|c s IH]; intros r; cbn [matches].
  - apply nullable_accepts.
  - rewrite IH. apply deriv_accepts.
Qed.

End ReFacts.

(* ================================================================== *)
(** ** Facts about the string operations *)

Module JsFacts.
Import Js.

Lemma ltrim_fix s : head_ok s = true -> ltrim s = s.
Proof.
  destruct s as [|c r]; simpl; [reflexivity|].
  intros H. apply negb_true_iff in H. now rewrite H.
Qed.

Lemma head_ok_ltrim s : head_ok (ltrim s) = true.
Proof.
  induction s as [|c r IH]; simpl; [reflexivity|].
  destruct (is_ws c) eqn:E; [exact IH|]. simpl. now rewrite E.
Qed.

Lemma head_ok_rtrim s : head_ok s = true -> head_ok (rtrim s) = true.
Proof.
  destruct s as [|c r]; simpl; [reflexivity|].
  intros H. apply negb_true_iff in H.
  destruct (rtrim r); rewrite ?H; simpl; rewrite ?H; reflexivity.
Qed.

Lemma rtrim_idem s : rtrim (rtrim s) = rtrim s.
Proof.
  induction s as [|c r IH]; [reflexivity|].
  simpl. destruct (rtrim r) as [|x r'] eqn:E.
  - destruct (is_ws c) eqn:W; simpl; rewrite ?W; reflexivity.
  - change (rtrim (c :: x :: r')) with
      (match rtrim (x :: r') with
       | [] => if is_ws c then [] else [c]
       | y :: r'' => c :: y :: r''
       end).
    now rewrite IH.
Qed.

Lemma ltrim_trim s : ltrim (trim s) = trim s.
Proof.
  apply ltrim_fix. unfold trim. apply head_ok_rtrim, head_ok_ltrim.
Qed.

Lemma rtrim_trim s : rtrim (trim s) = trim s.
Proof. unfold trim. apply rtrim_idem. Qed.

Lemma trim_idem s : trim (trim s) = trim s.
Proof.
  unfold trim at 1. rewrite ltrim_trim. apply rtrim_trim.
Qed.

Lemma trim_nil : trim [] = [].
Proof. reflexivity. Qed.

Lemma rtrim_app a b : rtrim b <> [] -> rtrim (a ++ b) = a ++ rtrim b.
Proof.
  intros Hb. induction a as [|c a IH]; [reflexivity|].
  simpl. rewrite IH.
  destruct (a ++ rtrim b) eqn:E; [|reflexivity].
  apply app_eq_nil in E. tauto.
Qed.

Lemma ltrim_app a b : ltrim a <> [] -> ltrim (a ++ b) = ltrim a ++ b.
Proof.
  induction a as [|c a IH]; simpl; [congruence|].
  destruct (is_ws c); [exact IH | reflexivity].
Qed.

Lemma rtrim_cons_fixed c t : rtrim t = t -> t <> [] -> rtrim (c :: t) = c :: t.
Proof.
  intros E Hne. simpl. rewrite E. destruct t; congruence.
Qed.

(** Joining a trimmed, non-empty line and a trimmed, non-empty word with
    one space gives a trimmed line. *)
Lemma trim_join p l :
  trim p = p -> p <> [] -> trim l <> [] ->
  trim (p ++ [SPACE] ++ trim l) = p ++ [SPACE] ++ trim l.
Proof.
  intros Hp Hne Hl.
  assert (Lp : ltrim p = p) by (pose proof (ltrim_trim p) as E; now rewrite Hp in E).
  unfold trim at 1.
  rewrite ltrim_app by (rewrite Lp; exact Hne).
  rewrite Lp. simpl app.
  rewrite rtrim_app.
  - now rewrite (rtrim_cons_fixed SPACE (rtrim_trim l) Hl).
  - rewrite (rtrim_cons_fixed SPACE (rtrim_trim l) Hl). discriminate.
Qed.

Lemma rtrim_prefix s : exists z, s = rtrim s ++ z.
Proof.
  induction s as [|c r [z IH]]; [now exists []|].
  simpl. destruct (rtrim r) as [|x r'] eqn:E.
  - destruct (is_ws c).
    + now exists (c :: r).
    + exists r. reflexivity.
  - exists z. simpl. simpl in IH. now rewrite <- IH.
Qed.

Lemma startsWith_app p a b :
  startsWith p a = true -> startsWith p (a ++ b) = true.
Proof.
  revert a. induction p as [|x p IH]; intros a; [reflexivity|].
  destruct a as [|y a]; simpl; [discriminate|].
  intros H. apply andb_true_iff in H. destruct H as [H1 H2].
  rewrite H1. simpl. now apply IH.
Qed.


Lemma startsWith_nil_r p : p <> [] -> startsWith p [] = false.
Proof. destruct p; [congruence | reflexivity]. Qed.

(** The last code unit of a right-trimmed string is not whitespace. *)
Lemma head_ok_app a b : a <> [] -> head_ok (a ++ b) = head_ok a.
Proof. destruct a; [congruence | reflexivity]. Qed.

Lemma last_ok_rtrim s : head_ok (rev (rtrim s)) = true.
Proof.
  induction s as [|c r IH]; [reflexivity|].
  simpl. destruct (rtrim r) as [|x r'] eqn:E.
  - destruct (is_ws c) eqn:W; simpl; [reflexivity | now rewrite W].
  - change (rev (c :: x :: r')) with (rev (x :: r') ++ [c]).
    rewrite head_ok_app; [exact IH|].
    simpl. intros H. apply app_eq_nil in H. destruct H; discriminate.
Qed.

(** [s.trim().endsWith('  ')] never holds. *)
Lemma endsWith_spaces_trim s : endsWith [SPACE; SPACE] (trim s) = false.
Proof.
  unfold endsWith, trim.
  change (rev [SPACE; SPACE]) with [SPACE; SPACE].
  pose proof (last_ok_rtrim (ltrim s)) as H.
  destruct (rev (rtrim (ltrim s))) as [|c r]; [reflexivity|].
  cbn [startsWith head_ok] in *.
  destruct (N.eqb_spec SPACE c) as [<-|]; [|reflexivity].
  vm_compute in H. discriminate H.
Qed.

Lemma in_ltrim c s : In c (ltrim s) -> In c s.
Proof.
  induction s as [|x s IH]; simpl; [tauto|].
  destruct (is_ws x); simpl; tauto.
Qed.

Lemma in_rtrim c s : In c (rtrim s) -> In c s.
Proof.
  induction s as [|x s IH]; simpl; [tauto|].
  destruct (rtrim s) as [|y r'].
  - destruct (is_ws x); simpl; tauto.
  - intros [H|H]; [now left | right; now apply IH].
Qed.

Lemma in_trim c s : In c (trim s) -> In c s.
Proof. intros H. apply in_ltrim, in_rtrim, H. Qed.

Lemma split_nl_nonempty s : split_nl s <> [].
Proof.
  destruct s as [|c r]; simpl; [discriminate|].
  destruct (c =? LF)%N; [discriminate|].
  destruct (split_nl r); discriminate.
Qed.

Lemma in_split_nl s l c : In l (split_nl s) -> In c l -> In c s.
Proof.
  revert l. induction s as [|x s IH]; intros l; simpl.
  - intros [<-|[]]. tauto.
  - destruct (N.eqb_spec x LF).
    + intros [<-|H] Hc; [destruct Hc | right; now apply (IH l)].
    + destruct (split_nl s) as [|l0 ls] eqn:E.
      * intros [<-|[]] [->|[]]. now left.
      * intros [<-|H] Hc.
        -- destruct Hc as [->|Hc]; [now left | right; apply (IH l0); simpl; tauto].
        -- right. apply (IH l); simpl; tauto.
Qed.

Lemma no_lf_split_nl s : Forall (fun l => ~ In LF l) (split_nl s).
Proof.
  induction s as [|x s IH]; simpl.
  - constructor; [tauto | constructor].
  - destruct (N.eqb_spec x LF).
    + constructor; [tauto | exact IH].
    + destruct (split_nl s) as [|l0 ls]; constructor.
      * simpl. intros [H|[]]. congruence.
      * constructor.
      * inversion IH; subst. simpl. intros [H|H]; [congruence | tauto].
      * now inversion IH.
Qed.

Lemma split_nl_line l : ~ In LF l -> split_nl l = [l].
Proof.
  induction l as [|c l IH]; simpl; [reflexivity|].
  intros H. destruct (N.eqb_spec c LF); [tauto|].
  rewrite IH by tauto. reflexivity.
Qed.

Lemma split_nl_app_lf l rest :
  ~ In LF l -> split_nl (l ++ LF :: rest) = l :: split_nl rest.
Proof.
  induction l as [|c l IH]; simpl.
  - reflexivity.
  - intros H. destruct (N.eqb_spec c LF); [tauto|].
    rewrite IH by tauto. reflexivity.
Qed.

(** Splitting what [join] produced gives the lines back. *)
Lemma split_join_nl ls :
  ls <> [] -> Forall (fun l => ~ In LF l) ls -> split_nl (join_nl ls) = ls.
Proof.
  induction ls as [|l ls IH]; [congruence|].
  intros _ H. inversion H as [|? ? Hl Hls]; subst.
  destruct ls as [|l' ls'].
  - simpl. now apply split_nl_line.
  - change (join_nl (l :: l' :: ls')) with (l ++ LF :: join_nl (l' :: ls')).
    rewrite split_nl_app_lf by exact Hl.
    rewrite IH; [reflexivity | discriminate | exact Hls].
Qed.

End JsFacts.

(* ================================================================== *)
(** ** Facts about the normalizer loop *)

Module NormalizerFacts.
Import Js Re Normalizer NormalizerAux JsFacts.

Lemma loop_is_loop_la st lines : loop st lines = loop_la st lines [].
Proof.
  revert st. induction lines as [|l rest IH]; intros st; [reflexivity|].
  simpl. apply IH.
Qed.

Lemma loop_la_app st a b d :
  loop_la st (a ++ b) d = loop_la (loop_la st a (hd d b)) b d.
Proof.
  revert st. induction a as [|l a IH]; intros st; [reflexivity|].
  simpl. rewrite IH. destruct a; reflexivity.
Qed.


(** *** Single steps *)

Lemma step_fence st line next :
  is_fence_line line = true ->
  step st line next =
    mkState (out st ++ [line]) (negb (inFence st)) (inTable st)
            (tablePipeCount st).
Proof. unfold step, is_fence_line. now intros ->. Qed.

Lemma step_in_fence st line next :
  is_fence_line line = false -> inFence st = true ->
  step st line next = push st line.
Proof. unfold step, is_fence_line. now intros -> ->. Qed.

(** Outside fences and tables, on a line that does not open a table. *)
Lemma step_normal st line next :
  is_fence_line line = false -> inFence st = false -> inTable st = false ->
  (2 <=? countPipes line) && isTableSepLine next = false ->
  step st line next =
    if is_empty (trim line) then push st []
    else if isBlockStart line then push st line
    else if joinable (out st)
         then set_last st (last_line (out st) ++ [SPACE] ++ trim line)
         else push st (trim line).
Proof.
  unfold step, is_fence_line, joinable. intros -> -> -> H.
  cbn [negb andb]. rewrite H. reflexivity.
Qed.

Lemma countPipes_from_none p s : ~ In PIPE s -> countPipes_from p s = 0.
Proof.
  revert p. induction s as [|c s IH]; intros p H; [reflexivity|].
  cbn [countPipes_from].
  destruct (N.eqb_spec c PIPE) as [->|_]; [exfalso; apply H; now left|].
  cbn [andb]. apply IH. intros Hi. apply H. now right.
Qed.

Lemma countPipes_none s : ~ In PIPE s -> countPipes s = 0.
Proof. apply countPipes_from_none. Qed.

Lemma last_line_snoc (o : list str) p : last_line (o ++ [p]) = p.
Proof. unfold last_line. apply last_last. Qed.

Lemma snoc_cases (o : list str) :
  o = [] \/ o = removelast o ++ [last_line o].
Proof.
  destruct o as [|x o]; [now left | right].
  apply app_removelast_last. discriminate.
Qed.

Lemma is_empty_false (A : Type) (o : list A) : is_empty o = false -> o <> [].
Proof. destruct o; [discriminate | discriminate]. Qed.

Lemma is_empty_true (A : Type) (o : list A) : is_empty o = true -> o = [].
Proof. destruct o; [reflexivity | discriminate]. Qed.

Lemma is_empty_neq (A : Type) (o : list A) : o <> [] -> is_empty o = false.
Proof. destruct o; [congruence | reflexivity]. Qed.

(** What a step does to the output array: it pushes one line, or it
    extends the last line. *)
Lemma step_out st line next :
  (exists v, out (step st line next) = out st ++ [v]) \/
  (out st <> [] /\
   exists t, out (step st line next) =
             removelast (out st) ++ [last_line (out st) ++ [SPACE] ++ t]).
Proof.
  unfold step, push, set_last.
  destruct (startsWith fence3 (trim line)); [left; eexists; reflexivity|].
  destruct (inFence st); [left; eexists; reflexivity|].
  destruct (negb (inTable st) && (2 <=? countPipes line) && isTableSepLine next);
    [left; eexists; reflexivity|].
  destruct (inTable st).
  - destruct (is_empty (trim line)); [left; eexists; reflexivity|].
    destruct (isTableSepLine line || (tablePipeCount st <=? countPipes line));
      [left; eexists; reflexivity|].
    destruct (out st) as [|x o] eqn:E; [left; eexists; reflexivity|].
    right. split; [discriminate|]. eexists. reflexivity.
  - destruct (is_empty (trim line)); [left; eexists; reflexivity|].
    destruct (isBlockStart line); [left; eexists; reflexivity|].
    destruct (negb (is_empty (out st))) eqn:E; cbn [andb];
      [|left; eexists; reflexivity].
    match goal with |- context [if ?c then _ else _] => destruct c end;
      [|left; eexists; reflexivity].
    right. split; [|eexists; reflexivity].
    apply is_empty_false. now apply negb_true_iff.
Qed.

Lemma step_out_nonempty st line next : out (step st line next) <> [].
Proof.
  destruct (step_out st line next) as [[v ->]|[_ [t ->]]];
    intros H; apply app_eq_nil in H; destruct H; discriminate.
Qed.

Lemma loop_la_out_nonempty lines st d :
  lines <> [] -> out (loop_la st lines d) <> [].
Proof.
  revert st. induction lines as [|l rest IH]; intros st H; [congruence|].
  cbn [loop_la]. destruct rest as [|l' rest'].
  - apply step_out_nonempty.
  - apply IH. discriminate.
Qed.

(** Characters of the output come from the input, apart from the joining
    space. *)
Lemma step_keeps_out c st line next :
  c <> SPACE -> ~ In c line ->
  Forall (fun l => ~ In c l) (out st) ->
  Forall (fun l => ~ In c l) (out (step st line next)).
Proof.
  intros Hc Hl Ho.
  assert (Ht : ~ In c (trim line)) by (intros H; apply Hl, in_trim, H).
  assert (Push : forall v, ~ In c v -> Forall (fun l => ~ In c l) (out st ++ [v])).
  { intros v Hv. apply Forall_app. split; [exact Ho | now constructor]. }
  assert (Join : out st <> [] ->
            Forall (fun l => ~ In c l)
              (removelast (out st) ++ [last_line (out st) ++ [SPACE] ++ trim line])).
  { intros Hne. destruct (snoc_cases (out st)) as [E|E]; [congruence|].
    rewrite E in Ho. apply Forall_app in Ho. destruct Ho as [Ho1 Ho2].
    apply Forall_app. split; [exact Ho1|]. constructor; [|constructor].
    inversion Ho2; subst.
    intros H. apply in_app_or in H. destruct H as [H|[H|H]]; [tauto| congruence | tauto]. }
  unfold step.
  destruct (startsWith fence3 (trim line)); [now apply Push|].
  destruct (inFence st); [now apply Push|].
  destruct (negb (inTable st) && (2 <=? countPipes line) && isTableSepLine next);
    [now apply Push|].
  destruct (inTable st).
  - destruct (is_empty (trim line)); [apply Push; tauto|].
    destruct (isTableSepLine line || (tablePipeCount st <=? countPipes line));
      [now apply Push|].
    destruct (is_empty (out st)) eqn:E.
    + apply is_empty_true in E. rewrite E at 1. now apply Push.
    + apply is_empty_false in E.
      destruct (out st) as [|x o] eqn:E'; [congruence|].
      cbn [out set_last]. rewrite E'. apply Join. discriminate.
  - destruct (is_empty (trim line)); [apply Push; tauto|].
    destruct (isBlockStart line); [now apply Push|].
    destruct (negb (is_empty (out st))) eqn:E; cbn [andb]; [|now apply Push].
    match goal with |- context [if ?c then _ else _] => destruct c end;
      [|now apply Push].
    apply Join. apply is_empty_false. now apply negb_true_iff.
Qed.

Lemma loop_la_keeps_out c lines st d :
  c <> SPACE -> Forall (fun l => ~ In c l) lines ->
  Forall (fun l => ~ In c l) (out st) ->
  Forall (fun l => ~ In c l) (out (loop_la st lines d)).
Proof.
  intros Hc. revert st. induction lines as [|l rest IH]; intros st Hl Ho;
    [exact Ho|].
  inversion Hl; subst. cbn [loop_la]. apply IH; [assumption|].
  now apply step_keeps_out.
Qed.

End NormalizerFacts.

(* ================================================================== *)
(** ** Re-normalizing text without pipe characters *)

Module Renormalize.
Import Js Re Normalizer NormalizerAux JsFacts NormalizerFacts.

(** Outside tables the step has the following shape, whatever the
    look-ahead. *)
Lemma step_plain o f line next :
  ~ In PIPE line ->
  step (mkState o f false 0) line next =
    if is_fence_line line then mkState (o ++ [line]) (negb f) false 0
    else if f then mkState (o ++ [line]) true false 0
    else if is_empty (trim line) then mkState (o ++ [[]]) false false 0
    else if isBlockStart line then mkState (o ++ [line]) false false 0
    else if joinable o
         then mkState (removelast o ++ [last_line o ++ [SPACE] ++ trim line])
                      false false 0
         else mkState (o ++ [trim line]) false false 0.
Proof.
  intros Hp.
  destruct (is_fence_line line) eqn:Ef; [now rewrite step_fence|].
  destruct f; [now rewrite step_in_fence|].
  rewrite step_normal; try reflexivity; try assumption.
  rewrite (countPipes_none _ Hp). reflexivity.
Qed.

Lemma settled_loop o f :
  Settled o f -> forall d, loop_la init o d = mkState o f false 0.
Proof.
  induction 1 as [|o f p f' _ IH Hs]; intros d; [reflexivity|].
  rewrite loop_la_app. cbn [hd]. rewrite IH. cbn [loop_la]. apply Hs.
Qed.

Lemma fence3_not_after_space p t :
  startsWith fence3 p = false ->
  startsWith fence3 (p ++ [SPACE] ++ t) = false.
Proof.
  unfold fence3.
  destruct p as [|a [|b [|c r]]]; cbn [startsWith app]; intros H.
  - reflexivity.
  - destruct (N.eqb_spec BACKTICK a); [|reflexivity]. reflexivity.
  - destruct (N.eqb_spec BACKTICK a); [|reflexivity].
    destruct (N.eqb_spec BACKTICK b); reflexivity.
  - exact H.
Qed.

Lemma fence_line_join prev l :
  is_fence_line prev = true -> trim l <> [] ->
  is_fence_line (prev ++ [SPACE] ++ trim l) = true.
Proof.
  unfold is_fence_line. intros Hf Hl.
  assert (Hlt : ltrim prev <> []).
  { intros E. unfold trim in Hf. rewrite E in Hf. discriminate Hf. }
  unfold trim at 1. rewrite ltrim_app by exact Hlt.
  cbn [app]. rewrite rtrim_app.
  - rewrite (rtrim_cons_fixed SPACE (rtrim_trim l) Hl).
    apply startsWith_app.
    destruct (rtrim_prefix (ltrim prev)) as [z Ez].
    rewrite Ez. apply startsWith_app. exact Hf.
  - rewrite (rtrim_cons_fixed SPACE (rtrim_trim l) Hl). discriminate.
Qed.

Lemma no_pipe_join p l :
  ~ In PIPE p -> ~ In PIPE l -> ~ In PIPE (p ++ [SPACE] ++ trim l).
Proof.
  intros Hp Hl H. apply in_app_or in H. destruct H as [H|[H|H]].
  - tauto.
  - discriminate H.
  - apply Hl, in_trim, H.
Qed.

(** One step of the first pass keeps the output settled. *)
Lemma settled_step o f line :
  Settled o f -> Forall (fun l => ~ In PIPE l) o -> ~ In PIPE line ->
  exists o' f',
    (forall next, step (mkState o f false 0) line next
                  = mkState o' f' false 0)
    /\ Settled o' f'.
Proof.
  intros HS Ho Hl.
  assert (Push : forall v f',
    (forall next, step (mkState o f false 0) line next
                  = mkState (o ++ [v]) f' false 0) ->
    (forall next, step (mkState o f false 0) v next
                  = mkState (o ++ [v]) f' false 0) ->
    exists o' f',
      (forall next, step (mkState o f false 0) line next
                    = mkState o' f' false 0) /\ Settled o' f').
  { intros v f' H1 H2. exists (o ++ [v]), f'. split; [exact H1|].
    econstructor; eassumption. }
  destruct (is_fence_line line) eqn:Ef.
  { apply Push with (v := line) (f' := negb f);
      intros next; rewrite step_plain by assumption; now rewrite Ef. }
  destruct f.
  { apply Push with (v := line) (f' := true);
      intros next; rewrite step_plain by assumption; now rewrite Ef. }
  destruct (is_empty (trim line)) eqn:Ee.
  { apply Push with (v := []) (f' := false); intros next.
    - rewrite step_plain by assumption. now rewrite Ef, Ee.
    - rewrite step_plain by (simpl; tauto). reflexivity. }
  destruct (isBlockStart line) eqn:Eb.
  { apply Push with (v := line) (f' := false);
      intros next; rewrite step_plain by assumption; now rewrite Ef, Ee, Eb. }
  assert (Htne : trim line <> []) by (now apply is_empty_false).
  assert (Htp : ~ In PIPE (trim line)) by (intros H; apply Hl, in_trim, H).
  destruct (joinable o) eqn:Ej.
  - (* the line is joined to the last output line *)
    inversion HS as [E|o0 f0 prev f1 HS0 Hprev Eo Ef1].
    { subst o. discriminate Ej. }
    subst o f1.
    apply Forall_app in Ho. destruct Ho as [Ho0 Hp]. inversion Hp as [|? ? Hpp _]; subst.
    unfold joinable in Ej. rewrite last_line_snoc in Ej.
    apply andb_true_iff in Ej. destruct Ej as [Ej _].
    apply andb_true_iff in Ej. destruct Ej as [Ej Ejb].
    apply andb_true_iff in Ej. destruct Ej as [_ Eje].
    apply negb_true_iff in Ejb. apply negb_true_iff in Eje.
    apply is_empty_false in Eje.
    set (J := prev ++ [SPACE] ++ trim line).
    assert (HJp : ~ In PIPE J) by (now apply no_pipe_join).
    exists (o0 ++ [J]), false. 
    split.
    + intros next. rewrite step_plain by assumption.
      rewrite Ef, Ee, Eb.
      replace (joinable (o0 ++ [prev])) with true
        by (unfold joinable; rewrite last_line_snoc, Ejb;
            rewrite endsWith_spaces_trim, (is_empty_neq Eje);
            destruct o0; reflexivity).
      rewrite removelast_last, last_line_snoc. reflexivity.
    + apply Settled_snoc with (f := f0); [exact HS0|].
      intros next. specialize (Hprev next).
      rewrite step_plain in * by assumption.
      destruct (is_fence_line prev) eqn:Efp.
      { unfold J. rewrite (fence_line_join _ _ Efp Htne).
        injection Hprev as ->. reflexivity. }
      destruct f0; [discriminate Hprev|].
      destruct (is_empty (trim prev)) eqn:Eep.
      { injection Hprev as Hprev. apply app_inv_head in Hprev.
        injection Hprev as Hprev. congruence. }
      rewrite Ejb in Hprev.
      destruct (joinable o0) eqn:Ej0.
      { injection Hprev as Hprev.
        apply (f_equal (@List.length str)) in Hprev.
        rewrite !length_app in Hprev. cbn [List.length] in Hprev.
        unfold joinable in Ej0.
        destruct o0 as [|x o0']; [discriminate Ej0|].
        assert (Hrl : List.length (removelast (x :: o0')) + 1
                      = List.length (x :: o0')).
        { rewrite (app_removelast_last (@nil char) (l := x :: o0')) at 2 by discriminate.
          rewrite length_app. reflexivity. }
        lia. }
      injection Hprev as Hprev. apply app_inv_head in Hprev.
      injection Hprev as Htrim.
      assert (HtJ : trim J = J) by (now apply trim_join).
      unfold is_fence_line. rewrite HtJ.
      unfold is_fence_line in Efp. rewrite Htrim in Efp.
      unfold J at 1. rewrite (fence3_not_after_space _ _ Efp).
      replace (is_empty J) with false by (unfold J; destruct prev; reflexivity).
      destruct (isBlockStart J); reflexivity.
  - (* the trimmed line becomes a new output line *)
    apply Push with (v := trim line) (f' := false); intros next.
    + rewrite step_plain by assumption. now rewrite Ef, Ee, Eb, Ej.
    + rewrite step_plain by assumption.
      unfold is_fence_line. rewrite trim_idem.
      unfold is_fence_line in Ef. rewrite Ef, Ee, Ej.
      destruct (isBlockStart (trim line)); reflexivity.
Qed.

Lemma settled_loop_la lines : forall o f d,
  Settled o f -> Forall (fun l => ~ In PIPE l) o ->
  Forall (fun l => ~ In PIPE l) lines ->
  exists o' f',
    loop_la (mkState o f false 0) lines d = mkState o' f' false 0
    /\ Settled o' f'.
Proof.
  induction lines as [|l rest IH]; intros o f d HS Ho Hl.
  - exists o, f. split; [reflexivity | exact HS].
  - inversion Hl as [|? ? Hl1 Hl2]; subst.
    destruct (@settled_step o f l HS Ho Hl1) as (o1 & f1 & Hstep & HS1).
    cbn [loop_la]. rewrite Hstep.
    apply IH; [exact HS1 | | exact Hl2].
    specialize (Hstep []).
    apply (f_equal out) in Hstep. cbn [out] in Hstep. rewrite <- Hstep.
    apply step_keeps_out; [discriminate | exact Hl1 | exact Ho].
Qed.

End Renormalize.

(* ================================================================== *)
(** ** Fenced blocks *)

Module FenceFacts.
Import Js Re Normalizer NormalizerAux JsFacts NormalizerFacts.





End FenceFacts.

(* ================================================================== *)
(** ** Idempotence and fence preservation *)

Module NormalizerProps.
Import Js Re Normalizer NormalizerAux JsFacts NormalizerFacts Renormalize FenceFacts.

Lemma not_in_by_bool (c : char) (s : str) :
  existsb (N.eqb c) s = false -> ~ In c s.
Proof.
  intros H Hin.
  assert (E : existsb (N.eqb c) s = true).
  { apply existsb_exists. exists c. split; [exact Hin | apply N.eqb_refl]. }
  congruence.
Qed.

(** C1, as stated, fails: a table whose separator line is followed by a
    wrapped continuation line is changed again by a second pass. *)
Lemma normalize_not_idempotent :
  normalizeMarkdown (text ["|a|b|"; "|-|-|"; "x"]%string)
    = text ["|a|b|"; "|-|-| x"]%string
  /\ normalizeMarkdown (text ["|a|b|"; "|-|-| x"]%string)
    = text ["|a|b| |-|-| x"]%string
  /\ normalizeMarkdown
       (normalizeMarkdown (text ["|a|b|"; "|-|-|"; "x"]%string))
     <> normalizeMarkdown (text ["|a|b|"; "|-|-|"; "x"]%string).
Proof.
  split; [vm_compute; reflexivity|].
  split; [vm_compute; reflexivity|].
  vm_compute. discriminate.
Qed.

(** C1, amended: on every input without a pipe character, normalizing the
    normalized text gives the normalized text back. *)
Theorem normalize_idempotent_without_pipes (md : str) :
  ~ In PIPE md ->
  normalizeMarkdown (normalizeMarkdown md) = normalizeMarkdown md.
Proof.
  intros Hp. unfold normalizeMarkdown.
  assert (Hlp : Forall (fun l => ~ In PIPE l) (split_nl md)).
  { apply Forall_forall. intros l Hl Hc. apply Hp. eapply in_split_nl; eassumption. }
  destruct (@settled_loop_la (split_nl md) [] false [] Settled_nil
              (Forall_nil _) Hlp) as (o & f & Eo & HS).
  change (mkState [] false false 0) with init in Eo.
  rewrite (loop_is_loop_la init (split_nl md)), Eo. cbn [out].
  assert (Hne : o <> []).
  { pose proof (@loop_la_out_nonempty (split_nl md) init []
                  (split_nl_nonempty md)) as H.
    now rewrite Eo in H. }
  assert (Hlf : Forall (fun l => ~ In LF l) o).
  { pose proof (@loop_la_keeps_out LF (split_nl md) init []) as H.
    rewrite Eo in H. apply H; [discriminate | apply no_lf_split_nl | constructor]. }
  rewrite (split_join_nl Hne Hlf).
  rewrite loop_is_loop_la, (settled_loop HS). reflexivity.
Qed.

Lemma normalize_idempotent_witness :
  normalizeMarkdown
    (normalizeMarkdown
       (text ["# Title"; "first line"; "  wrapped  "; ""; "```js"; "x  ";
              "```"; "after"]%string))
  = normalizeMarkdown
      (text ["# Title"; "first line"; "  wrapped  "; ""; "```js"; "x  ";
             "```"; "after"]%string).
Proof.
  apply normalize_idempotent_without_pipes.
  apply not_in_by_bool. vm_compute. reflexivity.
Defined.




End NormalizerProps.

(* ================================================================== *)
(** ** Soft-wrapped lines *)

Module SoftWrap.
Import Js Re Normalizer NormalizerAux JsFacts NormalizerFacts NormalizerProps.

(** C6, as stated, fails: after a blank output line the next paragraph
    line starts a new output line; it is not appended to the blank one. *)
Lemma soft_wrap_after_blank_line :
  normalizeMarkdown (text ["a"; ""; "b"]%string)
    = text ["a"; ""; "b"]%string
  /\ ~ soft_wrap_as_stated.
Proof.
  split; [vm_compute; reflexivity|].
  intros H.
  specialize (H (mkState [lit "a"; []] false false 0) (lit "b") []).
  vm_compute in H.
  assert (E : [[97%N]; []; [98%N]] = [[97%N]; [32%N; 98%N]])
    by (apply H; try reflexivity; discriminate).
  discriminate E.
Qed.

(** C6, amended: outside fences and tables, a non-blank line that is no
    block start is pushed, trimmed, as a new output line when there is no
    output yet or the previous output line is empty or a block start; it
    is appended, trimmed and after one space, to the previous output line
    when that line is non-empty, no block start and does not end with two
    spaces. *)
Theorem soft_wrap_continuation (st : state) (line next : str) :
  inFence st = false -> inTable st = false ->
  is_fence_line line = false ->
  (2 <=? countPipes line) && isTableSepLine next = false ->
  trim line <> [] -> isBlockStart line = false ->
  (out st = [] \/ last_line (out st) = []
     \/ isBlockStart (last_line (out st)) = true ->
   step st line next = push st (trim line))
  /\ (out st <> [] -> last_line (out st) <> [] ->
      isBlockStart (last_line (out st)) = false ->
      endsWith two_spaces (last_line (out st)) = false ->
      step st line next
      = set_last st (last_line (out st) ++ [SPACE] ++ trim line)).
Proof.
  intros Hf Ht Hfl Htab Hne Hb.
  rewrite step_normal by assumption.
  rewrite (is_empty_neq Hne), Hb.
  split.
  - intros H. replace (joinable (out st)) with false; [reflexivity|].
    unfold joinable. destruct H as [H|[H|H]]; rewrite H; cbn;
      rewrite ?andb_false_r; reflexivity.
  - intros H1 H2 H3 _. replace (joinable (out st)) with true; [reflexivity|].
    unfold joinable.
    rewrite (is_empty_neq H1), (is_empty_neq H2), H3, endsWith_spaces_trim.
    reflexivity.
Qed.

Lemma soft_wrap_continuation_witness :
  step (mkState [lit "# T"] false false 0) (lit "  one ") []
    = push (mkState [lit "# T"] false false 0) (lit "one")
  /\ step (mkState [lit "one"] false false 0) (lit "  two ") []
    = set_last (mkState [lit "one"] false false 0) (lit "one two").
Proof.
  split.
  - apply (@soft_wrap_continuation (mkState [lit "# T"] false false 0)
             (lit "  one ") []); try reflexivity; try discriminate.
    right. right. vm_compute. reflexivity.
  - apply (@soft_wrap_continuation (mkState [lit "one"] false false 0)
             (lit "  two ") []); try reflexivity; try discriminate.
Defined.

(** X18: the guard [!prev.trim().endsWith('  ')] never fires, since a
    trimmed string has no trailing space: a line after an output line that
    ends in two spaces is joined all the same. *)
Lemma hard_break_guard_is_dead (prev : str) :
  negb (endsWith two_spaces (trim prev)) = true.
Proof. unfold two_spaces. now rewrite endsWith_spaces_trim. Qed.

Example joined_after_two_trailing_spaces :
  normalizeMarkdown (text ["```"; "x"; "```  "; "bar"]%string)
  = text ["```"; "x"; "```   bar"]%string.
Proof. vm_compute. reflexivity. Qed.

End SoftWrap.

(* ================================================================== *)
(** ** The choice of the final text *)

Module SelectorProps.
Import Js Normalizer Selector NormalizerProps.

(** C3: what is rendered is the normalized chosen text, whatever the
    renderer.  The chosen text is the walker's when the copied text is
    missing, empty or blank; it is the copied text when that looks like
    Markdown; when the copied text does not look like Markdown the walker's
    text replaces it if it is not blank, and the copied text stays
    otherwise.  Scenario C is the instance given last. *)
Theorem final_text_selection (marked : str -> str) (copy : option str)
    (dom : str) :
  rendered marked copy dom = marked (finalText copy dom)
  /\ (exists chosen,
        rendered marked copy dom = marked (normalizeMarkdown chosen)
        /\ (chosen = dom \/ copy = Some chosen))
  /\ (copy = None ->
      finalText copy dom = normalizeMarkdown dom
      /\ rendered marked copy dom = marked (normalizeMarkdown dom))
  /\ (forall t, copy = Some t -> trim t = [] ->
        finalText copy dom = normalizeMarkdown dom
        /\ rendered marked copy dom = marked (normalizeMarkdown dom))
  /\ (forall t, copy = Some t -> trim t <> [] ->
        looksLikeMarkdown t = true ->
        finalText copy dom = normalizeMarkdown t
        /\ rendered marked copy dom = marked (normalizeMarkdown t))
  /\ (forall t, copy = Some t -> trim t <> [] ->
        looksLikeMarkdown t = false -> trim dom <> [] ->
        finalText copy dom = normalizeMarkdown dom
        /\ rendered marked copy dom = marked (normalizeMarkdown dom))
  /\ (forall t, copy = Some t -> trim t <> [] ->
        looksLikeMarkdown t = false -> trim dom = [] ->
        finalText copy dom = normalizeMarkdown t
        /\ rendered marked copy dom = marked (normalizeMarkdown t))
  /\ (looksLikeMarkdown (lit "plain sentence, no markdown") = false
      /\ rendered marked (Some (lit "plain sentence, no markdown"))
                  (text ["- one"; "- two"]%string)
         = marked (normalizeMarkdown (text ["- one"; "- two"]%string))).
Proof.
  assert (Hblank : forall s, trim s <> [] -> s <> []).
  { intros s H E. subst s. now apply H. }
  assert (Hr : forall x, finalText copy dom = normalizeMarkdown x ->
                 finalText copy dom = normalizeMarkdown x
                 /\ rendered marked copy dom = marked (normalizeMarkdown x)).
  { intros x E. split; [exact E|]. unfold rendered. now rewrite E. }
  split; [reflexivity|].
  split; [|split; [|split; [|split; [|split; [|split]]]]].
  - unfold rendered, finalText, chooseFinalText, falsy, blank.
    destruct copy as [t|]; [|exists dom; split; [reflexivity | now left]].
    destruct (is_empty t || is_empty (trim t));
      [exists dom; split; [reflexivity | now left]|].
    destruct (negb (looksLikeMarkdown t));
      [|exists t; split; [reflexivity | now right]].
    destruct (negb (is_empty dom) && negb (is_empty (trim dom)));
      [exists dom; split; [reflexivity | now left]
      |exists t; split; [reflexivity | now right]].
  - intros E. apply Hr. subst copy. reflexivity.
  - intros t E Ht. apply Hr. subst copy.
    unfold finalText, chooseFinalText, falsy, blank.
    rewrite Ht. cbn [is_empty]. now rewrite orb_true_r.
  - intros t E Ht Hl. apply Hr. subst copy.
    unfold finalText, chooseFinalText, falsy, blank.
    rewrite (NormalizerFacts.is_empty_neq Ht),
      (NormalizerFacts.is_empty_neq (Hblank _ Ht)), Hl.
    reflexivity.
  - intros t E Ht Hl Hd. apply Hr. subst copy.
    unfold finalText, chooseFinalText, falsy, blank.
    rewrite (NormalizerFacts.is_empty_neq Ht),
      (NormalizerFacts.is_empty_neq (Hblank _ Ht)), Hl,
      (NormalizerFacts.is_empty_neq Hd),
      (NormalizerFacts.is_empty_neq (Hblank _ Hd)).
    reflexivity.
  - intros t E Ht Hl Hd. apply Hr. subst copy.
    unfold finalText, chooseFinalText, falsy, blank.
    rewrite (NormalizerFacts.is_empty_neq Ht),
      (NormalizerFacts.is_empty_neq (Hblank _ Ht)), Hl, Hd.
    cbn [is_empty negb orb andb]. now rewrite andb_false_r.
  - split; [vm_compute; reflexivity|].
    unfold rendered. apply f_equal. vm_compute. reflexivity.
Qed.

Lemma final_text_selection_witness :
  rendered (fun s => lit "<pre>" ++ s)
           (Some (lit "plain sentence, no markdown"))
           (text ["- one"; "- two"]%string)
  = lit "<pre>" ++ normalizeMarkdown (text ["- one"; "- two"]%string).
Proof.
  destruct (@final_text_selection (fun s => lit "<pre>" ++ s)
              (Some (lit "plain sentence, no markdown"))
              (text ["- one"; "- two"]%string))
    as (_ & _ & _ & _ & _ & H & _).
  apply (H (lit "plain sentence, no markdown")).
  - reflexivity.
  - discriminate.
  - reflexivity.
  - discriminate.
Defined.

End SelectorProps.

(* ================================================================== *)
(** ** Facts about the polling loops *)

Module PollFacts.
Import Js Poller PollAux.

Lemma tracked_nil : Tracked [] (0, 0).
Proof. repeat split; cbn; intros; lia. Qed.

Lemma count_head_rev_other n lens :
  last lens 0 <> n -> 0 < n -> count_head n (rev lens) = 0.
Proof.
  intros H Hn. destruct lens as [|x l] using rev_ind; [reflexivity|].
  rewrite last_last in H. rewrite rev_unit. cbn [count_head].
  destruct (Nat.eqb_spec x n); [congruence | reflexivity].
Qed.

Lemma tracked_step lens p n :
  Tracked lens p -> fst p <= n -> Tracked (lens ++ [n]) (track p n).
Proof.
  intros (HL & H0 & Hpos) Hle. unfold Tracked, track.
  rewrite last_last, rev_unit.
  destruct (Nat.ltb_spec (fst p) n) as [Hlt|Hge]; cbn [fst snd].
  - split; [reflexivity|]. split; [reflexivity|].
    intros _. cbn [count_head]. rewrite Nat.eqb_refl.
    rewrite count_head_rev_other; [reflexivity | lia | lia].
  - assert (E : n = fst p) by lia.
    rewrite <- E, Nat.eqb_refl. cbn [andb].
    destruct (Nat.ltb_spec 0 n) as [Hn|Hn]; cbn [fst snd].
    + split; [reflexivity|]. split; [lia|].
      intros _. cbn [count_head]. rewrite Nat.eqb_refl.
      f_equal. rewrite E. apply Hpos. lia.
    + split; [symmetry; exact E|]. split; [intros; apply H0; lia | lia].
Qed.

Lemma firstn_all_eq n k l :
  (k <=? List.length l) && forallb (Nat.eqb n) (firstn k l)
  = (k <=? count_head n l).
Proof.
  revert l. induction k as [|k IH]; intros l; [reflexivity|].
  destruct l as [|x r]; [reflexivity|].
  cbn [List.length firstn forallb count_head].
  rewrite (Nat.eqb_sym n x).
  destruct (Nat.eqb_spec x n) as [->|Hne]; cbn [andb].
  - change (S k <=? S (List.length r)) with (k <=? List.length r).
    change (S k <=? S (count_head n r)) with (k <=? count_head n r).
    apply IH.
  - now rewrite andb_false_r.
Qed.

(** The test of the loops agrees with the wording: six ticks in a row
    without change, at a non-zero length. *)
Lemma tracked_six lens p n :
  Tracked lens p -> fst p <= n ->
  (5 <? snd (track p n)) && (0 <? fst (track p n))
  = six_unchanged_ticks (lens ++ [n]).
Proof.
  intros HT Hle.
  destruct (tracked_step HT Hle) as (HL & H0 & Hpos).
  rewrite last_last in HL.
  unfold six_unchanged_ticks. rewrite rev_unit.
  rewrite <- andb_assoc, firstn_all_eq.
  rewrite HL in *. rewrite rev_unit in Hpos. cbn [count_head] in Hpos.
  rewrite Nat.eqb_refl in Hpos.
  destruct (Nat.ltb_spec 0 n) as [Hn|Hn].
  - specialize (Hpos Hn). injection Hpos as Hpos. rewrite <- Hpos.
    rewrite andb_true_r. cbn [andb].
    destruct (Nat.ltb_spec 5 (snd (track p n))), (Nat.leb_spec 6 (snd (track p n)));
      (reflexivity || lia).
  - rewrite andb_false_r. reflexivity.
Qed.

Lemma nondecreasing_snoc_gen lens n : forall prev,
  nondecreasing_from prev (lens ++ [n])
  = nondecreasing_from prev lens && (last (prev :: lens) 0 <=? n).
Proof.
  induction lens as [|x l IH]; intros prev.
  - cbn. now rewrite andb_true_r.
  - cbn [nondecreasing_from app]. rewrite IH, andb_assoc. reflexivity.
Qed.

Lemma nondecreasing_snoc lens n :
  nondecreasing_from 0 (lens ++ [n])
  = nondecreasing_from 0 lens && (last lens 0 <=? n).
Proof. rewrite nondecreasing_snoc_gen. destruct lens; reflexivity. Qed.

Lemma extends_snoc_gen texts t : forall prev,
  extends_from prev (texts ++ [t])
  <-> extends_from prev texts /\ exists s, t = last (prev :: texts) [] ++ s.
Proof.
  induction texts as [|x l IH]; intros prev.
  - cbn. tauto.
  - cbn [extends_from app]. rewrite IH.
    change (last (prev :: x :: l) []) with (last (x :: l) []). tauto.
Qed.

Lemma extends_snoc texts t :
  extends_from [] (texts ++ [t])
  <-> extends_from [] texts /\ exists s, t = last texts [] ++ s.
Proof. rewrite extends_snoc_gen. destruct texts; reflexivity. Qed.

Lemma poll_snoc ic os o : forall st,
  poll ic st (os ++ [o])
  = if running (poll ic st os) then tick ic (poll ic st os) o
    else poll ic st os.
Proof.
  induction os as [|a r IH]; intros st.
  - cbn. destruct (running st); reflexivity.
  - cbn [poll app]. destruct (running st) eqn:E; [apply IH|].
    now rewrite E.
Qed.

Lemma observe_track st t :
  (lastTextLength (observe st t), stableCount (observe st t))
  = track (lastTextLength st, stableCount st) (List.length t).
Proof.
  unfold observe, track. cbn [fst snd].
  destruct (lastTextLength st <? List.length t); [reflexivity|].
  destruct ((List.length t =? lastTextLength st) && (0 <? List.length t));
    reflexivity.
Qed.

Lemma observe_running st t : running (observe st t) = running st.
Proof.
  unfold observe.
  destruct (lastTextLength st <? List.length t); [reflexivity|].
  destruct ((List.length t =? lastTextLength st) && (0 <? List.length t));
    reflexivity.
Qed.

Lemma observe_monotone st t : lastTextLength st <= lastTextLength (observe st t).
Proof.
  unfold observe.
  destruct (Nat.ltb_spec (lastTextLength st) (List.length t));
    cbn [lastTextLength]; [lia|].
  destruct ((List.length t =? lastTextLength st) && (0 <? List.length t));
    cbn [lastTextLength]; lia.
Qed.

Lemma tick_monotone ic st o : lastTextLength st <= lastTextLength (tick ic st o).
Proof.
  unfold tick, finish.
  pose proof (observe_monotone st (currentText o)).
  repeat match goal with
         | |- context [if ?c then _ else _] => destruct c
         end; cbn [lastTextLength]; lia.
Qed.

Lemma poll_monotone ic os : forall st,
  lastTextLength st <= lastTextLength (poll ic st os).
Proof.
  induction os as [|o r IH]; intros st; cbn [poll]; [lia|].
  destruct (running st); [|lia].
  pose proof (tick_monotone ic st o). specialize (IH (tick ic st o)). lia.
Qed.

Lemma chunks_app a b : chunks (a ++ b) = chunks a ++ chunks b.
Proof.
  induction a as [|e a IH]; [reflexivity|].
  destruct e; cbn [chunks app]; now rewrite IH.
Qed.

Lemma streamed_finish st o : streamed (finish st o) = streamed st.
Proof.
  unfold streamed, finish. cbn [events]. rewrite chunks_app.
  cbn [chunks]. now rewrite app_nil_r.
Qed.

Lemma lengths_snoc os o :
  lengths (os ++ [o]) = lengths os ++ [List.length (currentText o)].
Proof. unfold lengths. now rewrite map_app. Qed.

(** While the loop runs on a reply that is present and does not shrink,
    its counters track the observed lengths. *)
Lemma poll_tracked ic os :
  Forall (fun o => ic < candidates o) os ->
  nondecreasing_from 0 (lengths os) = true ->
  running (poll ic init os) = true ->
  Tracked (lengths os)
          (lastTextLength (poll ic init os), stableCount (poll ic init os)).
Proof.
  induction os as [|o os IH] using rev_ind; intros Hp Hm Hr.
  - apply tracked_nil.
  - apply Forall_app in Hp. destruct Hp as [Hp Ho].
    inversion Ho as [|? ? Hoc _]; subst.
    rewrite lengths_snoc, nondecreasing_snoc in Hm.
    apply andb_true_iff in Hm. destruct Hm as [Hm Hlast].
    apply Nat.leb_le in Hlast.
    rewrite poll_snoc in *.
    destruct (running (poll ic init os)) eqn:Er; [|congruence].
    specialize (IH Hp Hm eq_refl).
    assert (Hle : lastTextLength (poll ic init os) <= List.length (currentText o)).
    { destruct IH as [E _]. cbn [fst] in E. rewrite E. exact Hlast. }
    pose proof (tracked_step IH Hle) as HT. cbn [fst] in Hle.
    rewrite <- observe_track in HT. rewrite lengths_snoc.
    unfold tick in *. apply Nat.ltb_lt in Hoc. rewrite Hoc in *.
    match goal with
    | H : running (if ?c then _ else _) = true |- _ => destruct c
    end; [discriminate Hr | exact HT].
Qed.

End PollFacts.

(* ================================================================== *)
(** ** Completion, streaming and time-out of the polling loop *)

Module PollerProps.
Import Js Poller PollAux PollFacts.

(** C4, as stated, fails: a reply that is still growing after two minutes
    is completed by the time limit of the loop, with no completion marker
    and no six unchanged ticks. *)
Lemma completion_by_time_limit :
  Forall (fun o => 0 < candidates o) (steady_growth 601)
  /\ nondecreasing_from 0 (lengths (steady_growth 601)) = true
  /\ running (poll 0 init (steady_growth 600)) = true
  /\ running (poll 0 init (steady_growth 601)) = false
  /\ existsb uiComplete (steady_growth 601) = false
  /\ six_unchanged_ticks (lengths (steady_growth 601)) = false.
Proof.
  split.
  { apply Forall_forall. intros o Ho. unfold steady_growth in Ho.
    apply in_map_iff in Ho. destruct Ho as (i & <- & _). cbn. lia. }
  repeat split; vm_compute; reflexivity.
Qed.

(** C4, amended: while a reply is present and its observed length does not
    go down, a tick ends the polling exactly when the completion marker is
    present, or the length has been the same, and not zero, for six ticks
    in a row, or more than 120000 ms have passed; the tick that ends the
    polling hands over the final Markdown and signals completion.
    Scenario A is the instance given last. *)
Theorem completion_exactly_when (ic : nat) (os : list observation)
    (o : observation) :
  Forall (fun x => ic < candidates x) (os ++ [o]) ->
  nondecreasing_from 0 (lengths (os ++ [o])) = true ->
  running (poll ic init os) = true ->
  (running (poll ic init (os ++ [o])) = false
   <-> uiComplete o = true
       \/ six_unchanged_ticks (lengths (os ++ [o])) = true
       \/ (120000 < elapsed o)%Z)
  /\ (running (poll ic init (os ++ [o])) = false ->
      exists md,
        events (poll ic init (os ++ [o]))
        = events (observe (poll ic init os) (currentText o))
          ++ [FinalMarkdown md; ResponseComplete])
  /\ (let hello := sees 1 "Hello" 200 in
      let world := sees 1 "Hello world" in
      running (poll 0 init [hello; world 400%Z; world 600%Z; world 800%Z;
                            world 1000%Z; world 1200%Z; world 1400%Z]) = true
      /\ poll 0 init [hello; world 400%Z; world 600%Z; world 800%Z; world 1000%Z;
                      world 1200%Z; world 1400%Z; world 1600%Z]
         = mkState 11 6 false
             [NewChunk (lit "Hello"); NewChunk (lit " world");
              FinalMarkdown (lit "Hello world"); ResponseComplete]).
Proof.
  intros Hp Hm Hr.
  assert (Hp' := Hp). apply Forall_app in Hp'. destruct Hp' as [Hpos Ho].
  inversion Ho as [|? ? Hoc _]; subst.
  assert (Hm' := Hm). rewrite lengths_snoc, nondecreasing_snoc in Hm'.
  apply andb_true_iff in Hm'. destruct Hm' as [Hmos Hlast].
  apply Nat.leb_le in Hlast.
  pose proof (poll_tracked Hpos Hmos Hr) as HT.
  assert (Hle : lastTextLength (poll ic init os) <= List.length (currentText o)).
  { destruct HT as [E _]. cbn [fst] in E. rewrite E. exact Hlast. }
  pose proof (tracked_six HT Hle) as Hsix.
  rewrite <- observe_track, <- lengths_snoc in Hsix. cbn [fst snd] in Hsix.
  rewrite poll_snoc, Hr. unfold tick.
  apply Nat.ltb_lt in Hoc. rewrite Hoc, Hsix.
  pose proof (observe_running (poll ic init os) (currentText o)) as Hrun.
  rewrite Hr in Hrun.
  split; [|split].
  - destruct (uiComplete o); cbn [orb].
    { split; [intros _; now left | reflexivity]. }
    destruct (six_unchanged_ticks (lengths (os ++ [o]))); cbn [orb].
    { split; [intros _; right; now left | reflexivity]. }
    destruct (Z.ltb_spec 120000 (elapsed o)) as [Hlim|Hlim].
    { split; [intros _; right; now right | reflexivity]. }
    rewrite Hrun. split; [discriminate|].
    intros [Hx|[Hx|Hx]]; try discriminate Hx. lia.
  - match goal with
    | |- context [if ?c then _ else _] => destruct c
    end.
    + intros _. eexists. reflexivity.
    + rewrite Hrun. discriminate.
  - split; vm_compute; reflexivity.
Qed.

Lemma completion_exactly_when_witness :
  running (poll 0 init [sees 1 "Hi" 200; sees 1 "Hi there" 400]) = false
  <-> uiComplete (sees 1 "Hi there" 400) = true
      \/ six_unchanged_ticks
           (lengths [sees 1 "Hi" 200; sees 1 "Hi there" 400]) = true
      \/ (120000 < elapsed (sees 1 "Hi there" 400))%Z.
Proof.
  apply (@completion_exactly_when 0 [sees 1 "Hi" 200] (sees 1 "Hi there" 400)).
  - repeat constructor.
  - reflexivity.
  - reflexivity.
Defined.

(** C5, as stated, fails in its last part: only lengths are tracked, so
    when the page rewrites the reply the chunks do not add up to the text
    last observed. *)
Lemma chunks_do_not_rebuild_text :
  running (poll 0 init [sees 1 "abc" 200; sees 1 "xyzw" 400]) = true
  /\ streamed (poll 0 init [sees 1 "abc" 200; sees 1 "xyzw" 400])
     = lit "abcw"
  /\ streamed (poll 0 init [sees 1 "abc" 200; sees 1 "xyzw" 400])
     <> currentText (sees 1 "xyzw" 400).
Proof.
  split; [reflexivity|]. split; [vm_compute; reflexivity|].
  vm_compute. discriminate.
Qed.

Lemma seen_snoc ic os o :
  seen ic (os ++ [o])
  = seen ic os ++ (if ic <? candidates o then [currentText o] else []).
Proof.
  unfold seen. rewrite filter_app, map_app. cbn [filter].
  destruct (ic <? candidates o); reflexivity.
Qed.

(** A tick on a text that extends what has been streamed. *)
Lemma observe_extends st p s :
  streamed st = p -> lastTextLength st = List.length p ->
  streamed (observe st (p ++ s)) = p ++ s
  /\ lastTextLength (observe st (p ++ s)) = List.length (p ++ s).
Proof.
  intros Es El. unfold observe, streamed in *. rewrite El, length_app.
  destruct (Nat.ltb_spec (List.length p) (List.length p + List.length s)).
  - cbn [events lastTextLength]. rewrite chunks_app, concat_app, Es.
    cbn [chunks concat]. unfold substring_from.
    rewrite skipn_app, skipn_all, Nat.sub_diag. cbn [skipn app].
    now rewrite app_nil_r.
  - assert (s = [])
      by (destruct s; [reflexivity | cbn [List.length] in *; lia]).
    subst s. rewrite app_nil_r, Nat.add_0_r, Nat.eqb_refl. cbn [andb].
    destruct (0 <? List.length p); cbn [events lastTextLength]; auto.
Qed.

(** What has been streamed after a tick, when the text it reads, if it
    reads one, extends what had been streamed. *)
Lemma tick_seen ic st o p :
  streamed st = p -> lastTextLength st = List.length p ->
  (ic < candidates o -> exists s, currentText o = p ++ s) ->
  let q := if ic <? candidates o then currentText o else p in
  streamed (tick ic st o) = q
  /\ lastTextLength (tick ic st o) = List.length q.
Proof.
  intros Es El Hext. unfold tick.
  destruct (Nat.ltb_spec ic (candidates o)) as [Hc|Hc]; cbv zeta.
  - destruct (Hext Hc) as [s E]. rewrite E.
    destruct (@observe_extends st p s Es El) as [H1 H2].
    match goal with
    | |- context [if ?c then _ else _] => destruct c
    end; [|split; assumption].
    rewrite streamed_finish. split; [exact H1|].
    unfold finish. cbn [lastTextLength]. exact H2.
  - destruct (30000 <? elapsed o)%Z; [|split; assumption].
    unfold streamed in *. cbn [events lastTextLength].
    rewrite chunks_app, concat_app, Es. cbn [chunks concat].
    now rewrite app_nil_r.
Qed.

Lemma poll_seen ic os :
  extends_from [] (seen ic os) ->
  running (poll ic init os) = true ->
  streamed (poll ic init os) = last (seen ic os) []
  /\ lastTextLength (poll ic init os) = List.length (last (seen ic os) []).
Proof.
  induction os as [|o os IH] using rev_ind; intros He Hr.
  - split; reflexivity.
  - rewrite seen_snoc in *. rewrite poll_snoc in *.
    destruct (running (poll ic init os)) eqn:Er; [|congruence].
    assert (He0 : extends_from [] (seen ic os)).
    { destruct (ic <? candidates o); [|now rewrite app_nil_r in He].
      now apply extends_snoc in He. }
    destruct (IH He0 eq_refl) as [IH1 IH2].
    assert (Hext : ic < candidates o ->
                   exists s, currentText o = last (seen ic os) [] ++ s).
    { intros Hc. apply Nat.ltb_lt in Hc. rewrite Hc in He.
      now apply extends_snoc in He. }
    destruct (@tick_seen ic (poll ic init os) o _ IH1 IH2 Hext) as [T1 T2].
    destruct (ic <? candidates o).
    + rewrite last_last. split; assumption.
    + rewrite app_nil_r. split; assumption.
Qed.

(** C5, amended: from one tick to the next the tracked length never goes
    down; a tick that sees a reply longer than the tracked length emits
    exactly the text beyond that length, and no other tick emits a chunk;
    when every text read extends the one read before, whatever ticks
    without a reply come in between, the chunks emitted so far add up to
    the text last read. *)
Theorem stream_monotone_suffix (ic : nat) (os : list observation)
    (o : observation) :
  running (poll ic init os) = true ->
  lastTextLength (poll ic init os)
    <= lastTextLength (poll ic init (os ++ [o]))
  /\ (ic < candidates o ->
      lastTextLength (poll ic init os) < List.length (currentText o) ->
      chunks (events (poll ic init (os ++ [o])))
      = chunks (events (poll ic init os))
        ++ [substring_from (lastTextLength (poll ic init os))
                           (currentText o)])
  /\ (~ (ic < candidates o
         /\ lastTextLength (poll ic init os)
            < List.length (currentText o)) ->
      chunks (events (poll ic init (os ++ [o])))
      = chunks (events (poll ic init os)))
  /\ (extends_from [] (seen ic (os ++ [o])) ->
      streamed (poll ic init (os ++ [o])) = last (seen ic (os ++ [o])) [])
  /\ (Forall (fun x => ic < candidates x) (os ++ [o]) ->
      extends_from [] (map currentText (os ++ [o])) ->
      streamed (poll ic init (os ++ [o])) = currentText o).
Proof.
  intros Hr.
  assert (G : extends_from [] (seen ic (os ++ [o])) ->
              streamed (poll ic init (os ++ [o]))
              = last (seen ic (os ++ [o])) []).
  { intros He. rewrite seen_snoc in *. rewrite poll_snoc, Hr.
    assert (He0 : extends_from [] (seen ic os)).
    { destruct (ic <? candidates o); [|now rewrite app_nil_r in He].
      now apply extends_snoc in He. }
    destruct (@poll_seen ic os He0 Hr) as [P1 P2].
    assert (Hext : ic < candidates o ->
                   exists s, currentText o = last (seen ic os) [] ++ s).
    { intros Hc. apply Nat.ltb_lt in Hc. rewrite Hc in He.
      now apply extends_snoc in He. }
    destruct (@tick_seen ic (poll ic init os) o _ P1 P2 Hext) as [T1 _].
    destruct (ic <? candidates o).
    - now rewrite last_last.
    - now rewrite app_nil_r. }
  assert (All : Forall (fun x => ic < candidates x) (os ++ [o]) ->
                seen ic (os ++ [o]) = map currentText (os ++ [o])).
  { intros Hp. unfold seen. f_equal. generalize (os ++ [o]) Hp. clear.
    intros l. induction 1 as [|x l Hx _ IH]; [reflexivity|].
    cbn [filter]. apply Nat.ltb_lt in Hx. now rewrite Hx, IH. }
  rewrite poll_snoc, Hr.
  split; [apply tick_monotone|].
  assert (Hchunks : forall st,
             chunks (events (finish st o)) = chunks (events st)).
  { intros st. unfold finish. cbn [events]. rewrite chunks_app.
    cbn [chunks]. apply app_nil_r. }
  split; [|split; [|split]].
  - intros Hc Hlen. unfold tick. apply Nat.ltb_lt in Hc. rewrite Hc.
    assert (E : chunks (events (observe (poll ic init os) (currentText o)))
                = chunks (events (poll ic init os))
                  ++ [substring_from (lastTextLength (poll ic init os))
                                     (currentText o)]).
    { unfold observe. apply Nat.ltb_lt in Hlen. rewrite Hlen.
      cbn [events]. now rewrite chunks_app. }
    match goal with
    | |- context [if ?c then _ else _] => destruct c
    end; [rewrite Hchunks|]; exact E.
  - intros Hn. unfold tick.
    destruct (Nat.ltb_spec ic (candidates o)) as [Hc|Hc].
    + assert (E : chunks (events (observe (poll ic init os) (currentText o)))
                  = chunks (events (poll ic init os))).
      { unfold observe.
        destruct (Nat.ltb_spec (lastTextLength (poll ic init os))
                    (List.length (currentText o))); [tauto|].
        match goal with
        | |- context [if ?c then _ else _] => destruct c
        end; reflexivity. }
      match goal with
      | |- context [if ?c then _ else _] => destruct c
      end; [rewrite Hchunks|]; exact E.
    + destruct (30000 <? elapsed o)%Z; [|reflexivity].
      cbn [events]. rewrite chunks_app. apply app_nil_r.
  - intros He. specialize (G He). rewrite poll_snoc, Hr in G. exact G.
  - intros Hp He. rewrite <- (All Hp) in He. specialize (G He).
    rewrite poll_snoc, Hr in G. rewrite G, (All Hp), map_app. cbn [map].
    apply last_last.
Qed.

Lemma stream_monotone_suffix_witness :
  streamed (poll 0 init [mkObs 0 (lit "old") false 100 [];
                         sees 1 "Hel" 200;
                         mkObs 0 [] false 300 [];
                         sees 1 "Hello" 400])
  = lit "Hello".
Proof.
  apply (proj1 (proj2 (proj2 (proj2
           (@stream_monotone_suffix 0
              [mkObs 0 (lit "old") false 100 []; sees 1 "Hel" 200;
               mkObs 0 [] false 300 []]
              (sees 1 "Hello" 400) eq_refl))))).
  cbn. split; [now exists (lit "Hel")|].
  split; [now exists (lit "lo") | exact I].
Defined.

Lemma poll_waiting ic os : forall st,
  running st = true ->
  Forall (fun o => candidates o <= ic) os ->
  poll ic st os
  = if existsb (fun o => (30000 <? elapsed o)%Z) os
    then mkState (lastTextLength st) (stableCount st) false
                 (events st ++ [ResponseComplete])
    else st.
Proof.
  induction os as [|o os IH]; intros st Hr Hw; [reflexivity|].
  inversion Hw as [|? ? Ho Hos]; subst.
  cbn [poll existsb]. rewrite Hr. unfold tick.
  destruct (Nat.ltb_spec ic (candidates o)); [lia|].
  destruct (30000 <? elapsed o)%Z; cbn [orb].
  - destruct os; reflexivity.
  - now apply IH.
Qed.

Lemma poll_stopped ic os : forall st,
  running st = false -> poll ic st os = st.
Proof.
  destruct os as [|o os]; intros st H; [reflexivity|].
  cbn [poll]. now rewrite H.
Qed.

Lemma poll_app ic a b : forall st,
  poll ic st (a ++ b) = poll ic (poll ic st a) b.
Proof.
  induction a as [|x a IH]; intros st; [reflexivity|].
  cbn [poll app]. destruct (running st) eqn:E; [apply IH|].
  now rewrite poll_stopped.
Qed.

(** C9: when the number of reply elements has not exceeded the baseline up
    to a tick that comes more than 30000 ms after the start, the polling
    stops there: the only call made is the completion signal, no text was
    emitted, and later observations are not looked at. *)
Theorem no_candidate_timeout (ic : nat) (waiting : list observation)
    (o : observation) (later : list observation) :
  Forall (fun x => candidates x <= ic) (waiting ++ [o]) ->
  (30000 < elapsed o)%Z ->
  running (poll ic init (waiting ++ o :: later)) = false
  /\ events (poll ic init (waiting ++ o :: later)) = [ResponseComplete]
  /\ streamed (poll ic init (waiting ++ o :: later)) = [].
Proof.
  intros Hw Ht.
  replace (waiting ++ o :: later) with ((waiting ++ [o]) ++ later)
    by (now rewrite <- app_assoc).
  rewrite poll_app.
  rewrite (@poll_waiting ic (waiting ++ [o]) init eq_refl Hw).
  replace (existsb (fun x => (30000 <? elapsed x)%Z) (waiting ++ [o]))
    with true.
  - rewrite poll_stopped by reflexivity. repeat split.
  - symmetry. apply existsb_exists. exists o. split.
    + apply in_or_app. right. now left.
    + now apply Z.ltb_lt.
Qed.

Lemma no_candidate_timeout_witness :
  running (poll 2 init [mkObs 2 [] false 200 []; mkObs 1 [] false 30000 [];
                        mkObs 2 [] false 30200 [];
                        mkObs 3 (lit "late") false 30400 (lit "late")])
  = false
  /\ events (poll 2 init [mkObs 2 [] false 200 []; mkObs 1 [] false 30000 [];
                          mkObs 2 [] false 30200 [];
                          mkObs 3 (lit "late") false 30400 (lit "late")])
     = [ResponseComplete]
  /\ streamed (poll 2 init [mkObs 2 [] false 200 [];
                            mkObs 1 [] false 30000 [];
                            mkObs 2 [] false 30200 [];
                            mkObs 3 (lit "late") false 30400 (lit "late")])
     = [].
Proof.
  apply (@no_candidate_timeout 2
           [mkObs 2 [] false 200 []; mkObs 1 [] false 30000 []]
           (mkObs 2 [] false 30200 [])
           [mkObs 3 (lit "late") false 30400 (lit "late")]).
  - repeat constructor.
  - reflexivity.
Defined.

End PollerProps.

(** *** The same for the loop of [waitForResponseAndRender] *)

Module WaiterProps.
Import Poller PollAux PollFacts Waiter.

Lemma wait_snoc os o : forall st,
  wait st (os ++ [o])
  = if snd (wait st os) then wait st os else round (fst (wait st os)) o.
Proof.
  induction os as [|a r IH]; intros st.
  - cbn. destruct (round st o) as [st' d]. destruct d; reflexivity.
  - cbn [wait app]. destruct (round st a) as [st' d].
    destruct d; [reflexivity | apply IH].
Qed.

Lemma round_track st o :
  lastLength st <= textLength o ->
  snd (round st o) = false ->
  (lastLength (fst (round st o)), Waiter.stableCount (fst (round st o)))
  = track (lastLength st, Waiter.stableCount st) (textLength o).
Proof.
  intros Hle. unfold round, track. cbn [fst snd].
  destruct (abortRequested o); [discriminate|].
  destruct (hasCopy o); [discriminate|].
  intros _.
  assert (E : forall b,
    (lastLength
       (if 0 <? textLength o then
          if textLength o =? lastLength st
          then mkState (lastLength st) (S (Waiter.stableCount st)) b
          else mkState (textLength o) 0 b
        else mkState (lastLength st) (Waiter.stableCount st) b),
     Waiter.stableCount
       (if 0 <? textLength o then
          if textLength o =? lastLength st
          then mkState (lastLength st) (S (Waiter.stableCount st)) b
          else mkState (textLength o) 0 b
        else mkState (lastLength st) (Waiter.stableCount st) b))
    = (if lastLength st <? textLength o then (textLength o, 0)
       else if (textLength o =? lastLength st) && (0 <? textLength o)
            then (lastLength st, S (Waiter.stableCount st))
            else (lastLength st, Waiter.stableCount st))).
  { intros b.
    destruct (Nat.ltb_spec 0 (textLength o)),
             (Nat.eqb_spec (textLength o) (lastLength st)),
             (Nat.ltb_spec (lastLength st) (textLength o));
      cbn; (reflexivity || lia). }
  destruct st as [L sc hs]. cbn [lastLength Waiter.stableCount hasStartedTyping] in *.
  destruct ((0 <? textLength o) && negb hs);
    cbn [lastLength Waiter.stableCount hasStartedTyping];
    repeat match goal with
           | |- context [if ?c && ?d then (_, true) else _] =>
               destruct (c && d)
           | |- context [if (300000 <? ?e)%Z then _ else _] =>
               destruct (300000 <? e)%Z
           end; cbn [fst snd]; apply E.
Qed.

Lemma wait_tracked os :
  nondecreasing_from 0 (map textLength os) = true ->
  snd (wait init os) = false ->
  Tracked (map textLength os)
          (lastLength (fst (wait init os)),
           Waiter.stableCount (fst (wait init os))).
Proof.
  induction os as [|o os IH] using rev_ind; intros Hm Hr.
  - apply tracked_nil.
  - rewrite map_app in *. cbn [map] in *.
    rewrite nondecreasing_snoc in Hm.
    apply andb_true_iff in Hm. destruct Hm as [Hm Hlast].
    apply Nat.leb_le in Hlast.
    rewrite wait_snoc in *.
    destruct (snd (wait init os)) eqn:Er; [congruence|].
    specialize (IH Hm eq_refl).
    assert (Hle : lastLength (fst (wait init os)) <= textLength o).
    { destruct IH as [E _]. cbn [fst] in E. rewrite E. exact Hlast. }
    rewrite (round_track _ _ Hle Hr).
    now apply tracked_step.
Qed.

Lemma round_snd st o :
  lastLength st <= textLength o ->
  snd (round st o)
  = abortRequested o
    || (hasCopy o
        || ((5 <? snd (track (lastLength st, Waiter.stableCount st)
                             (textLength o)))
            && (0 <? fst (track (lastLength st, Waiter.stableCount st)
                                (textLength o)))
            || (300000 <? elapsed o)%Z)).
Proof.
  intros Hle. unfold round, track. cbn [fst snd].
  destruct (abortRequested o); [reflexivity|].
  destruct (hasCopy o); [reflexivity|]. cbn [orb].
  destruct st as [L sc hs].
  cbn [lastLength Waiter.stableCount hasStartedTyping] in *.
  destruct hs;
    destruct (0 <? textLength o) eqn:Hn;
    cbn [andb negb lastLength Waiter.stableCount hasStartedTyping];
    destruct (Nat.eqb_spec (textLength o) L) as [E|E];
    destruct (Nat.ltb_spec L (textLength o)) as [Hl|Hl]; try lia;
    cbn [andb negb lastLength Waiter.stableCount hasStartedTyping fst snd];
    rewrite ?Hn, ?andb_true_r, ?andb_false_r;
    try (rewrite <- E, Hn); rewrite ?andb_true_r;
    unfold Nat.ltb;
    repeat match goal with
           | |- context [if ?c then _ else _] => destruct c
           end;
    cbn [snd andb orb];
    rewrite ?andb_false_r, ?andb_true_r, ?orb_true_r, ?orb_false_r;
    reflexivity.
Qed.

(** X17: while the observed length does not go down, a round leaves the
    loop exactly when an abort was requested, or the copy button is there,
    or the length has been the same, and not zero, for six rounds in a row,
    or more than 300000 ms have passed. *)
Theorem wait_leaves_exactly_when (os : list observation) (o : observation) :
  nondecreasing_from 0 (map textLength (os ++ [o])) = true ->
  snd (wait init os) = false ->
  snd (wait init (os ++ [o])) = true
  <-> abortRequested o = true
      \/ hasCopy o = true
      \/ six_unchanged_ticks (map textLength (os ++ [o])) = true
      \/ (300000 < elapsed o)%Z.
Proof.
  intros Hm Hr.
  assert (Hm' := Hm). rewrite map_app in Hm'. cbn [map] in Hm'.
  rewrite nondecreasing_snoc in Hm'.
  apply andb_true_iff in Hm'. destruct Hm' as [Hmos Hlast].
  apply Nat.leb_le in Hlast.
  pose proof (wait_tracked os Hmos Hr) as HT.
  assert (Hle : lastLength (fst (wait init os)) <= textLength o).
  { destruct HT as [E _]. cbn [fst] in E. rewrite E. exact Hlast. }
  pose proof (tracked_six HT Hle) as Hsix.
  rewrite map_app. cbn [map]. rewrite <- Hsix.
  rewrite wait_snoc, Hr, (round_snd _ _ Hle).
  rewrite !orb_true_iff, Z.ltb_lt. tauto.
Qed.

Lemma wait_leaves_exactly_when_witness :
  snd (wait init (repeat (mkObs false false 5 100) 6
                  ++ [mkObs false false 5 3100]))
  = true.
Proof.
  apply (proj2 (@wait_leaves_exactly_when
                  (repeat (mkObs false false 5 100) 6)
                  (mkObs false false 5 3100) eq_refl eq_refl)).
  right. right. left. reflexivity.
Defined.

End WaiterProps.

(* ================================================================== *)
(** ** Properties of the walker *)

Module WalkerProps.
Import Js Dom Walker NormalizerProps.

Lemma fold_max_ge (l : list nat) : forall a,
  a <= fold_left Nat.max l a
  /\ Forall (fun r => r <= fold_left Nat.max l a) l.
Proof.
  induction l as [|x l IH]; intros a; cbn [fold_left].
  - split; [lia | constructor].
  - destruct (IH (Nat.max a x)) as [H1 H2]. split; [lia|].
    constructor; [lia | exact H2].
Qed.

(** The fence is made of backticks only, has at least three of them, and is
    longer than every run of backticks in the code. *)
Lemma fenceFor_longer (t : str) :
  fenceFor t = repeat BACKTICK (List.length (fenceFor t))
  /\ 3 <= List.length (fenceFor t)
  /\ Forall (fun r => r < List.length (fenceFor t)) (backtick_runs t).
Proof.
  unfold fenceFor, repeat_char, longest_run. rewrite repeat_length.
  split; [reflexivity|]. split; [lia|].
  destruct (fold_max_ge (backtick_runs t) 0) as [_ H].
  eapply Forall_impl; [|exact H]. intros r Hr. cbv beta in *. lia.
Qed.

(** C7, the failing input: a [pre] element that holds its text directly.
    [querySelector] searches the descendants of the block only, so no code
    element is found and the fenced block comes out empty.  With the text
    inside a [code] child the block has the expected content. *)
Theorem pre_with_direct_text_loses_code (toLowerCase : str -> str)
    (anc : list einfo) (md : str) :
  extractCodeBlock toLowerCase anc (el "pre" [Text (lit "print('hi')")]) md
    = md ++ text [""; ""; "```"; ""; "```"; ""; ""]%string
  /\ trim (extractCodeBlock toLowerCase anc
             (el "pre" [Text (lit "print('hi')")]) [])
     = text ["```"; ""; "```"]%string
  /\ extractCodeBlock toLowerCase anc
       (el "pre" [el "code" [Text (lit "print('hi')")]]) md
     = md ++ text [""; ""; "```"; "print('hi')"; "```"; ""; ""]%string.
Proof.
  split; [reflexivity|]. split; [reflexivity|].
  unfold extractCodeBlock.
  assert (Hlang : querySelector anc
                    (el "pre" [el "code" [Text (lit "print('hi')")]])
                    lang_selectors = None).
  { unfold querySelector, querySelectorAll, lang_selectors.
    cbn. reflexivity. }
  assert (Hcode : querySelector anc
                    (el "pre" [el "code" [Text (lit "print('hi')")]])
                    code_selectors
                  = Some (el "code" [Text (lit "print('hi')")],
                          [mkInfo (lit "pre") [] []] ++ anc)).
  { unfold querySelector, querySelectorAll, code_selectors.
    cbn. rewrite orb_true_r. reflexivity. }
  rewrite Hlang, Hcode. reflexivity.
Qed.

(** C8, the failing input: a table with a head section.  The rows are
    collected with ['tbody tr, tr'], which also selects the row of the head,
    so the header cells come out a second time as the first body row. *)
Theorem thead_row_is_repeated (md : str) :
  extractTable []
    (el "table"
       [ el "thead" [el "tr" [el "th" [Text (lit "A")];
                              el "th" [Text (lit "B")]]];
         el "tbody" [el "tr" [el "td" [Text (lit "1")];
                              el "td" [Text (lit "2")]]] ])
    md
  = md ++ text [""; ""; "| A | B |"; "| --- | --- |"; "| A | B |";
                "| 1 | 2 |"; ""; ""]%string.
Proof. reflexivity. Qed.

(** Without a head section the first row gives the header and the other
    rows the body, padded to the widest row. *)
Example table_without_thead :
  extractTable []
    (el "table"
       [ el "tr" [el "th" [Text (lit "A")]; el "th" [Text (lit "B |  x")]];
         el "tr" [el "td" [Text (lit "1")]];
         el "tr" [el "td" [Text (lit "1")]; el "td" [Text (lit "2")];
                  el "td" [Text (lit "3")]] ])
    []
  = text [""; ""; "| A | B \| x |  |"; "| --- | --- | --- |"; "| 1 |  |  |";
          "| 1 | 2 | 3 |"; ""; ""]%string.
Proof. reflexivity. Qed.

End WalkerProps.

(* ================================================================== *)
(** ** The page after the copy action *)

Module ClipboardProps.
Import Js Clipboard.

(** While both functions are patched, the click reaches no native function
    and changes nothing of the page. *)
Lemma perform_patched (r : run) (a : action) :
  (writeText (pg r) = None \/ writeText (pg r) = Some CaptureText) ->
  execCommand (pg r) = AlwaysTrue ->
  pg (perform r a) = pg r.
Proof.
  intros Hw He. destruct a as [t| |d]; cbn [perform].
  - destruct Hw as [-> | ->]; reflexivity.
  - rewrite He. reflexivity.
  - generalize (copyListeners (pg r)). intros ls. revert r Hw He.
    induction ls as [|l ls IH]; intros r Hw He; [reflexivity|].
    cbn [fold_left].
    assert (E : pg (deliver d r l) = pg r) by (destruct l, d; reflexivity).
    rewrite IH; [exact E | rewrite E; exact Hw | rewrite E; exact He].
Qed.

Lemma click_patched (click : list action) : forall r,
  (writeText (pg r) = None \/ writeText (pg r) = Some CaptureText) ->
  execCommand (pg r) = AlwaysTrue ->
  pg (fold_left perform click r) = pg r.
Proof.
  induction click as [|a click IH]; intros r Hw He; [reflexivity|].
  cbn [fold_left].
  pose proof (perform_patched r a Hw He) as E.
  rewrite IH; [exact E | rewrite E; exact Hw | rewrite E; exact He].
Qed.

Lemma filter_fresh (ls : list listener) :
  ~ In OnCopy ls ->
  filter (fun l => negb (is_OnCopy l)) (ls ++ [OnCopy]) = ls.
Proof.
  induction ls as [|l ls IH]; intros H; [reflexivity|].
  cbn [app filter]. destruct l as [n|].
  - cbn. rewrite IH; [reflexivity|]. intros Hin. apply H. now right.
  - exfalso. apply H. now left.
Qed.

(** C10, as stated, fails for [writeText]: what is put back is the original
    function bound to the clipboard, a new function value. *)
Lemma writeText_is_rebound :
  let p := mkPage [PageListener 1] (Some (Native "writeText"))
                  (Native "execCommand") [] in
  fetchCopyMarkdown true [CallWriteText (lit "**hi**")] p
  = (Some (lit "**hi**"),
     mkPage [PageListener 1] (Some (Bound (Native "writeText") TheClipboard))
            (Native "execCommand") [])
  /\ writeText (snd (fetchCopyMarkdown true [CallWriteText (lit "**hi**")] p))
     <> writeText p.
Proof.
  split; [reflexivity|]. cbn. discriminate.
Qed.

(** C10, amended: whatever the click does and whether or not a text was
    captured, the page that [fetchCopyMarkdown] leaves has its [copy]
    listeners and [document.execCommand] as before and no native function
    was called; [navigator.clipboard.writeText], when it exists and the copy
    button was found, is the original function bound to the clipboard, and
    calling that on the clipboard is calling the original; without a copy
    button the result is [null] and the page is untouched. *)
Theorem clipboard_restored (copyBtn : bool) (click : list action) (p : page) :
  ~ In OnCopy (copyListeners p) ->
  copyListeners (snd (fetchCopyMarkdown copyBtn click p)) = copyListeners p
  /\ execCommand (snd (fetchCopyMarkdown copyBtn click p)) = execCommand p
  /\ nativeCalls (snd (fetchCopyMarkdown copyBtn click p)) = nativeCalls p
  /\ writeText (snd (fetchCopyMarkdown copyBtn click p))
     = (if copyBtn
        then match writeText p with
             | Some f => Some (Bound f TheClipboard)
             | None => None
             end
        else writeText p)
  /\ (forall f arg r,
        invoke (Bound f TheClipboard) TheClipboard arg r
        = invoke f TheClipboard arg r)
  /\ (copyBtn = false -> fetchCopyMarkdown copyBtn click p = (None, p)).
Proof.
  intros Hfresh. unfold fetchCopyMarkdown.
  destruct copyBtn; cbn [negb snd].
  2: { repeat split; reflexivity. }
  cbn [copyListeners writeText execCommand nativeCalls].
  destruct (writeText p) as [f|] eqn:Ew;
    cbn [copyListeners writeText execCommand nativeCalls];
    rewrite click_patched
      by (cbn [pg writeText execCommand]; auto);
    cbn [pg copyListeners writeText execCommand nativeCalls];
    rewrite ?Ew, (filter_fresh _ Hfresh);
    repeat split; discriminate.
Qed.

Lemma clipboard_restored_witness :
  copyListeners
    (snd (fetchCopyMarkdown true
            [CallExecCommand; DispatchCopy (Some (lit "x"))]
            (mkPage [PageListener 7] None (Native "execCommand") [])))
  = [PageListener 7]
  /\ execCommand
       (snd (fetchCopyMarkdown true
               [CallExecCommand; DispatchCopy (Some (lit "x"))]
               (mkPage [PageListener 7] None (Native "execCommand") [])))
     = Native "execCommand".
Proof.
  destruct (@clipboard_restored true
              [CallExecCommand; DispatchCopy (Some (lit "x"))]
              (mkPage [PageListener 7] None (Native "execCommand") []))
    as (H1 & H2 & _).
  - cbn. intros [H|[]]. discriminate H.
  - split; [exact H1 | exact H2].
Defined.

(** Each call binds once more. *)
Example rebinding_accumulates :
  let p := mkPage [] (Some (Native "writeText")) (Native "execCommand") [] in
  writeText (snd (fetchCopyMarkdown true []
                    (snd (fetchCopyMarkdown true [] p))))
  = Some (Bound (Bound (Native "writeText") TheClipboard) TheClipboard).
Proof. reflexivity. Qed.

End ClipboardProps.

(* ================================================================== *)
(** ** The normalizer only moves whitespace *)

Module InkProps.
Import Js Re Normalizer NormalizerAux JsFacts NormalizerFacts Ink.

Lemma ink_app a b : ink (a ++ b) = ink a ++ ink b.
Proof. apply filter_app. Qed.

Lemma ink_ltrim s : ink (ltrim s) = ink s.
Proof.
  induction s as [|c s IH]; [reflexivity|].
  cbn [ltrim]. destruct (is_ws c) eqn:E; [|reflexivity].
  rewrite IH. cbn [ink filter]. now rewrite E.
Qed.

Lemma ink_rtrim s : ink (rtrim s) = ink s.
Proof.
  induction s as [|c s IH]; [reflexivity|].
  cbn [rtrim]. destruct (rtrim s) as [|x r] eqn:E.
  - change (ink (c :: s)) with (ink ([c] ++ s)). rewrite ink_app, <- IH.
    destruct (is_ws c) eqn:W; cbn [ink filter app]; rewrite ?W; reflexivity.
  - change (ink (c :: x :: r)) with (ink ([c] ++ x :: r)).
    change (ink (c :: s)) with (ink ([c] ++ s)).
    now rewrite !ink_app, IH.
Qed.

Lemma ink_trim s : ink (trim s) = ink s.
Proof. unfold trim. now rewrite ink_rtrim, ink_ltrim. Qed.

Lemma ink_lines_app a b : ink_lines (a ++ b) = ink_lines a ++ ink_lines b.
Proof. unfold ink_lines. now rewrite map_app, concat_app. Qed.

Lemma ink_join_nl ls : ink (join_nl ls) = ink_lines ls.
Proof.
  induction ls as [|l ls IH]; [reflexivity|].
  destruct ls as [|l' ls'].
  - cbn. now rewrite app_nil_r.
  - change (join_nl (l :: l' :: ls')) with (l ++ [LF] ++ join_nl (l' :: ls')).
    rewrite !ink_app, IH. reflexivity.
Qed.

Lemma ink_split_nl s : ink_lines (split_nl s) = ink s.
Proof.
  induction s as [|c s IH]; [reflexivity|].
  cbn [split_nl]. change (ink (c :: s)) with (ink ([c] ++ s)).
  rewrite ink_app, <- IH.
  destruct (N.eqb_spec c LF) as [->|Hc]; [reflexivity|].
  destruct (split_nl s) as [|l ls]; unfold ink_lines; cbn [map concat].
  - reflexivity.
  - change (ink (c :: l)) with (ink ([c] ++ l)).
    now rewrite ink_app, app_assoc.
Qed.

(** What a step does to the output array, with the line it comes from. *)
Lemma step_out_cases st line next :
  out (step st line next) = out st ++ [line]
  \/ out (step st line next) = out st ++ [trim line]
  \/ (out st <> []
      /\ out (step st line next)
         = removelast (out st) ++ [last_line (out st) ++ [SPACE] ++ trim line]).
Proof.
  unfold step, push, set_last.
  destruct (startsWith fence3 (trim line)); [now left|].
  destruct (inFence st); [now left|].
  destruct (negb (inTable st) && (2 <=? countPipes line) && isTableSepLine next);
    [now left|].
  destruct (inTable st).
  - destruct (is_empty (trim line)) eqn:Ee.
    { right. left. apply is_empty_true in Ee. now rewrite Ee. }
    destruct (isTableSepLine line || (tablePipeCount st <=? countPipes line));
      [now left|].
    destruct (out st) as [|x o] eqn:E; [right; now left|].
    right. right. split; [discriminate | reflexivity].
  - destruct (is_empty (trim line)) eqn:Ee.
    { right. left. apply is_empty_true in Ee. now rewrite Ee. }
    destruct (isBlockStart line); [now left|].
    destruct (negb (is_empty (out st))) eqn:E; cbn [andb];
      [|right; now left].
    match goal with |- context [if ?c then _ else _] => destruct c end;
      [|right; now left].
    right. right. split; [|reflexivity].
    apply is_empty_false. now apply negb_true_iff.
Qed.

Lemma step_ink st line next :
  ink_lines (out (step st line next)) = ink_lines (out st) ++ ink line.
Proof.
  assert (One : forall l, ink_lines [l] = ink l).
  { intros l. unfold ink_lines. cbn [map concat]. apply app_nil_r. }
  destruct (step_out_cases st line next) as [E|[E|[Hne E]]]; rewrite E.
  - now rewrite ink_lines_app, One.
  - now rewrite ink_lines_app, One, ink_trim.
  - destruct (snoc_cases (out st)) as [E0|E0]; [congruence|].
    assert (Eo : ink_lines (out st)
                 = ink_lines (removelast (out st)) ++ ink (last_line (out st))).
    { rewrite E0 at 1. now rewrite ink_lines_app, One. }
    rewrite Eo, ink_lines_app, One, !ink_app, ink_trim.
    change (ink [SPACE]) with (@nil char). cbn [app].
    now rewrite app_assoc.
Qed.

Lemma loop_ink lines : forall st,
  ink_lines (out (loop st lines)) = ink_lines (out st) ++ ink_lines lines.
Proof.
  induction lines as [|l rest IH]; intros st.
  - cbn. now rewrite app_nil_r.
  - cbn [loop]. rewrite IH, step_ink.
    change (l :: rest) with ([l] ++ rest). rewrite (ink_lines_app [l] rest).
    replace (ink_lines [l]) with (ink l)
      by (unfold ink_lines; cbn [map concat]; now rewrite app_nil_r).
    now rewrite app_assoc.
Qed.

(** X1: normalizing changes whitespace only: the non-whitespace code units
    of the result are those of the input, in the same order. *)
Theorem normalize_keeps_ink (md : str) :
  ink (normalizeMarkdown md) = ink md.
Proof.
  unfold normalizeMarkdown.
  rewrite ink_join_nl, loop_ink. apply ink_split_nl.
Qed.

Lemma step_out_length st line next :
  List.length (out (step st line next)) <= S (List.length (out st)).
Proof.
  destruct (step_out_cases st line next) as [E|[E|[Hne E]]]; rewrite E;
    rewrite length_app; cbn [List.length]; try lia.
  destruct (snoc_cases (out st)) as [E0|E0]; [congruence|].
  rewrite E0 at 2. rewrite length_app. cbn [List.length]. lia.
Qed.

Lemma loop_out_length lines : forall st,
  List.length (out (loop st lines))
  <= List.length (out st) + List.length lines.
Proof.
  induction lines as [|l rest IH]; intros st; cbn [loop List.length]; [lia|].
  pose proof (IH (step st l (hd [] rest))).
  pose proof (step_out_length st l (hd [] rest)). lia.
Qed.

(** X2: normalizing never adds a line: the result has at least one line and
    at most as many lines as the input. *)
Theorem normalize_line_count (md : str) :
  1 <= List.length (split_nl (normalizeMarkdown md))
  /\ List.length (split_nl (normalizeMarkdown md))
     <= List.length (split_nl md).
Proof.
  unfold normalizeMarkdown.
  assert (Hne : out (loop init (split_nl md)) <> []).
  { rewrite loop_is_loop_la. apply loop_la_out_nonempty, split_nl_nonempty. }
  assert (Hlf : Forall (fun l => ~ In LF l) (out (loop init (split_nl md)))).
  { rewrite loop_is_loop_la.
    apply loop_la_keeps_out;
      [discriminate | apply no_lf_split_nl | constructor]. }
  rewrite (split_join_nl Hne Hlf). split.
  - destruct (out (loop init (split_nl md))); [congruence | cbn; lia].
  - apply (loop_out_length (split_nl md) init).
Qed.

End InkProps.

(* ================================================================== *)
(** ** The calls made by the polling loop *)

Module ProtocolProps.
Import Js Poller PollAux PollFacts ProtocolAux.

Lemma observe_shape st t :
  running st = true -> Shape st -> Shape (observe st t).
Proof.
  intros Hr (cs & tail & E & Hcs & Ht).
  destruct Ht as [[_ ->]|[Hf _]]; [|congruence].
  rewrite app_nil_r in E. unfold observe.
  destruct (Nat.ltb_spec (lastTextLength st) (List.length t)) as [Hlt|Hge].
  - exists (cs ++ [substring_from (lastTextLength st) t]), [].
    cbn [events running]. rewrite E, map_app, app_nil_r.
    split; [reflexivity|]. split; [|left; now split].
    apply Forall_app. split; [exact Hcs|]. constructor; [|constructor].
    unfold substring_from. intros Hnil.
    apply (f_equal (@List.length char)) in Hnil.
    rewrite length_skipn in Hnil. cbn in Hnil. lia.
  - destruct ((List.length t =? lastTextLength st) && (0 <? List.length t));
      exists cs, []; cbn [events running]; rewrite E, app_nil_r;
      (split; [reflexivity|]; split; [exact Hcs | left; now split]).
Qed.

Lemma tick_shape ic st o :
  running st = true -> Shape st -> Shape (tick ic st o).
Proof.
  intros Hr HS. unfold tick.
  destruct (ic <? candidates o).
  - pose proof (observe_shape (currentText o) Hr HS) as (cs & tail & E & Hcs & Ht).
    pose proof (observe_running st (currentText o)) as Hrun.
    rewrite Hr in Hrun.
    destruct Ht as [[_ ->]|[Hf _]]; [|congruence].
    rewrite app_nil_r in E.
    match goal with |- context [if ?c then _ else _] => destruct c end.
    + exists cs. eexists. unfold finish. cbn [events running]. rewrite E.
      split; [reflexivity|]. split; [exact Hcs|].
      right. split; [reflexivity|]. right. eexists. reflexivity.
    + exists cs, []. rewrite E, app_nil_r.
      split; [reflexivity|]. split; [exact Hcs | left; now split].
  - destruct HS as (cs & tail & E & Hcs & Ht).
    destruct Ht as [[_ ->]|[Hf _]]; [|congruence].
    rewrite app_nil_r in E.
    destruct (30000 <? elapsed o)%Z.
    + exists cs, [ResponseComplete]. cbn [events running]. rewrite E.
      split; [reflexivity|]. split; [exact Hcs|].
      right. split; [reflexivity | now left].
    + exists cs, []. rewrite E, app_nil_r.
      split; [reflexivity|]. split; [exact Hcs | left; now split].
Qed.

Lemma poll_shape ic os : forall st, Shape st -> Shape (poll ic st os).
Proof.
  induction os as [|o os IH]; intros st HS; [exact HS|].
  cbn [poll]. destruct (running st) eqn:Hr; [|exact HS].
  apply IH. now apply tick_shape.
Qed.

(** X3: whatever is observed, the calls made to the terminal side are a
    run of non-empty chunks, followed by nothing while the loop still runs
    and, once it has stopped, by the completion signal alone or by the final
    Markdown and the completion signal: completion is signalled at most
    once and nothing is emitted after it. *)
Theorem poll_protocol (ic : nat) (os : list observation) :
  exists cs tail,
    events (poll ic init os) = map NewChunk cs ++ tail
    /\ Forall (fun c => c <> []) cs
    /\ ((running (poll ic init os) = true /\ tail = [])
        \/ (running (poll ic init os) = false
            /\ (tail = [ResponseComplete]
                \/ exists m, tail = [FinalMarkdown m; ResponseComplete]))).
Proof.
  apply (poll_shape ic os).
  exists [], []. split; [reflexivity|]. split; [constructor|].
  left. split; reflexivity.
Qed.

End ProtocolProps.

(* ================================================================== *)
(** ** What the typing queue writes and what is rendered at the end *)

Module TypistProps.
Import Js Typist.

Lemma typed_app a b : typed (a ++ b) = typed a ++ typed b.
Proof.
  induction a as [|o a IH]; [reflexivity|].
  destruct o; cbn [typed app]; now rewrite IH.
Qed.

Lemma run_app st a b : run st (a ++ b) = run (run st a) b.
Proof. apply fold_left_app. Qed.

Lemma typeNextChar_inv st r :
  typed (log st) ++ charQueue st = r ->
  typed (log (typeNextChar st)) ++ charQueue (typeNextChar st) = r
  /\ (isTyping (typeNextChar st) = false -> charQueue (typeNextChar st) = []).
Proof.
  intros H. unfold typeNextChar.
  destruct (charQueue st) as [|c q] eqn:Eq.
  - rewrite app_nil_r in H.
    destruct (responseCompleteTriggered st); cbn [log charQueue isTyping];
      rewrite ?typed_app; cbn [typed]; rewrite ?app_nil_r;
      (split; [exact H | reflexivity]).
  - cbn [log charQueue isTyping]. rewrite typed_app. cbn [typed].
    rewrite <- app_assoc. split; [exact H | discriminate].
Qed.

Lemma handle_inv st ev r :
  typed (log st) ++ charQueue st = r ->
  (isTyping st = false -> charQueue st = []) ->
  typed (log (handle st ev)) ++ charQueue (handle st ev) = r ++ received [ev]
  /\ (isTyping (handle st ev) = false -> charQueue (handle st ev) = []).
Proof.
  intros H Hq. destruct ev as [chunk|md| |]; cbn [handle received];
    rewrite ?app_nil_r.
  - cbn [isTyping]. destruct (isTyping st) eqn:Et.
    + cbn [log charQueue isTyping]. rewrite app_assoc, H.
      split; [reflexivity | congruence].
    + apply typeNextChar_inv. cbn [log charQueue].
      now rewrite app_assoc, H.
  - cbn [log charQueue isTyping]. split; assumption.
  - cbn [isTyping charQueue].
    destruct (negb (isTyping st) && is_empty (charQueue st)).
    + apply typeNextChar_inv. exact H.
    + cbn [log charQueue isTyping]. split; assumption.
  - destruct (isTyping st) eqn:Et.
    + apply typeNextChar_inv. exact H.
    + split; [exact H | intros _; now apply Hq].
Qed.

Lemma run_inv evs : forall st r,
  typed (log st) ++ charQueue st = r ->
  (isTyping st = false -> charQueue st = []) ->
  typed (log (run st evs)) ++ charQueue (run st evs) = r ++ received evs
  /\ (isTyping (run st evs) = false -> charQueue (run st evs) = []).
Proof.
  induction evs as [|ev evs IH]; intros st r H Hq.
  - cbn. rewrite app_nil_r. split; assumption.
  - destruct (@handle_inv st ev r H Hq) as [H1 H2].
    change (run st (ev :: evs)) with (run (handle st ev) evs).
    destruct (IH (handle st ev) (r ++ received [ev]) H1 H2) as [H3 H4].
    split; [|exact H4].
    rewrite H3, <- app_assoc. f_equal.
    destruct ev; cbn [received]; rewrite ?app_nil_r; reflexivity.
Qed.

(** X4: in whatever order chunks, timers and the other calls arrive, the
    characters typed so far followed by those still queued are exactly the
    text of the chunks received, in order; and the queue is empty whenever
    no timer is pending. *)
Theorem typing_follows_stream (evs : list event) :
  typed (log (run init evs)) ++ charQueue (run init evs) = received evs
  /\ (isTyping (run init evs) = false -> charQueue (run init evs) = []).
Proof.
  apply (@run_inv evs init []); reflexivity.
Qed.

Lemma typing_follows_stream_witness :
  charQueue (run init [OnNewChunk (lit "Hi"); Timer; Timer; Timer]) = [].
Proof.
  apply (proj2 (typing_follows_stream
                  [OnNewChunk (lit "Hi"); Timer; Timer; Timer])).
  reflexivity.
Defined.

Lemma timers_idle k : forall st,
  isTyping st = false -> run st (repeat Timer k) = st.
Proof.
  induction k as [|k IH]; intros st H; [reflexivity|].
  cbn [repeat]. change (run st (Timer :: repeat Timer k))
    with (run (handle st Timer) (repeat Timer k)).
  cbn [handle]. rewrite H. now apply IH.
Qed.

Lemma timers_type k : forall q ft rct l,
  k <= List.length q ->
  run (mkState q true ft rct l) (repeat Timer k)
  = mkState (skipn k q) true (ft ++ firstn k q) rct
            (l ++ map Put (firstn k q)).
Proof.
  induction k as [|k IH]; intros q ft rct l Hk.
  - cbn. now rewrite !app_nil_r.
  - destruct q as [|c q]; [cbn in Hk; lia|].
    cbn [repeat]. change (run ?s (Timer :: ?r)) with (run (handle s Timer) r).
    cbn [handle isTyping typeNextChar charQueue fullText log
         responseCompleteTriggered].
    rewrite IH by (cbn in Hk; lia).
    cbn [skipn firstn map]. now rewrite <- !app_assoc.
Qed.

Lemma timers_drain k q ft rct l :
  List.length q < k ->
  run (mkState q true ft rct l) (repeat Timer k)
  = mkState [] false (ft ++ q) rct
            (l ++ map Put q
               ++ (if rct then [Separator; Render (ft ++ q); Resolve]
                   else [])).
Proof.
  intros Hk.
  replace k with (List.length q + S (k - S (List.length q))) by lia.
  rewrite repeat_app, run_app, timers_type by lia.
  rewrite skipn_all, firstn_all.
  cbn [repeat]. change (run ?s (Timer :: ?r)) with (run (handle s Timer) r).
  cbn [handle isTyping typeNextChar charQueue fullText log
       responseCompleteTriggered].
  destruct rct; rewrite timers_idle by reflexivity;
    now rewrite <- ?app_assoc, ?app_nil_r.
Qed.

(** X5: the final Markdown replaces the text typed so far, but characters
    typed after it has arrived are appended to it.  When it arrives with
    [q] still queued and completion is signalled after it, then, once the
    timers have emptied the queue, the queued characters have been typed
    and what is rendered, once, is the final Markdown followed by [q]; it is
    the final Markdown itself only when the queue was empty. *)
Theorem final_text_after_markdown (pre : list event) (md : str)
    (k1 k2 : nat) :
  responseCompleteTriggered (run init pre) = false ->
  (isTyping (run init pre) = true ->
   List.length (charQueue (run init pre)) < k1 + k2) ->
  run init (pre ++ OnFinalMarkdown md :: repeat Timer k1
              ++ OnResponseComplete :: repeat Timer k2)
  = mkState [] false (md ++ charQueue (run init pre)) true
            (log (run init pre) ++ map Put (charQueue (run init pre))
               ++ [Separator; Render (md ++ charQueue (run init pre));
                   Resolve]).
Proof.
  intros Hrct Hk.
  destruct (@run_inv pre init [] eq_refl (fun _ => eq_refl)) as [_ Hq].
  rewrite run_app.
  destruct (run init pre) as [q ty ft rct l].
  cbn [responseCompleteTriggered isTyping charQueue log] in *. subst rct.
  change (run ?s (OnFinalMarkdown md :: ?r))
    with (run (handle s (OnFinalMarkdown md)) r).
  cbn [handle charQueue isTyping fullText responseCompleteTriggered log].
  rewrite run_app.
  destruct ty.
  - specialize (Hk eq_refl).
    destruct (Nat.le_gt_cases k1 (List.length q)) as [Hle|Hgt].
    + rewrite timers_type by exact Hle.
      change (run ?s (OnResponseComplete :: ?r))
        with (run (handle s OnResponseComplete) r).
      cbn [handle charQueue isTyping fullText responseCompleteTriggered log
           negb andb].
      rewrite timers_drain by (rewrite length_skipn; lia).
      pose proof (firstn_skipn k1 q) as Eq.
      set (a := firstn k1 q) in *. set (b := skipn k1 q) in *.
      clearbody a b. subst q.
      now rewrite map_app, <- !app_assoc.
    + rewrite timers_drain by exact Hgt.
      change (run ?s (OnResponseComplete :: ?r))
        with (run (handle s OnResponseComplete) r).
      cbn [handle charQueue isTyping fullText responseCompleteTriggered log
           negb andb is_empty typeNextChar].
      rewrite timers_idle by reflexivity.
      now rewrite app_nil_r, <- !app_assoc.
  - rewrite (Hq eq_refl) in *.
    rewrite timers_idle by reflexivity.
    change (run ?s (OnResponseComplete :: ?r))
      with (run (handle s OnResponseComplete) r).
    cbn [handle charQueue isTyping fullText responseCompleteTriggered log
         negb andb is_empty typeNextChar].
    rewrite timers_idle by reflexivity.
    cbn [map app]. now rewrite app_nil_r.
Qed.

Lemma final_text_after_markdown_witness :
  run init [OnNewChunk (lit "Hello"); Timer; Timer;
            OnFinalMarkdown (lit "**Hello**"); Timer; OnResponseComplete;
            Timer; Timer; Timer]
  = mkState [] false (lit "**Hello**lo") true
            [Put 72%N; Put 101%N; Put 108%N; Put 108%N; Put 111%N;
             Separator; Render (lit "**Hello**lo"); Resolve].
Proof.
  apply (@final_text_after_markdown
           [OnNewChunk (lit "Hello"); Timer; Timer] (lit "**Hello**") 1 3).
  - reflexivity.
  - intros _. cbn. lia.
Defined.

End TypistProps.

(* ================================================================== *)
(** ** Properties of [render] *)

Module RenderProps.
Import Js Dom Walker Render JsFacts.

Lemma node_induction (P : node -> Prop) :
  (forall s, P (Text s)) ->
  (forall s, P (Comment s)) ->
  (forall e kids, Forall P kids -> P (Elem e kids)) ->
  forall n, P n.
Proof.
  intros Ht Hc He. fix IH 1. intros [s|s|e kids]; [apply Ht | apply Hc |].
  apply He. induction kids as [|k kids IHk]; constructor;
    [apply IH | exact IHk].
Qed.

Lemma leading_lf_repeat k s :
  leading_lf (repeat LF k ++ s) = k + leading_lf s.
Proof. induction k as [|k IH]; [reflexivity|]. cbn. now rewrite IH. Qed.

Lemma rev_repeat (c : char) k : rev (repeat c k) = repeat c k.
Proof.
  induction k as [|k IH]; [reflexivity|].
  cbn [repeat rev]. rewrite IH. clear IH.
  induction k as [|k IH]; [reflexivity|]. cbn. now rewrite IH.
Qed.

Lemma trailing_app_lf m k :
  trailingNewlines (m ++ repeat LF k) = k + trailingNewlines m.
Proof.
  unfold trailingNewlines. now rewrite rev_app_distr, rev_repeat, leading_lf_repeat.
Qed.

Lemma ensureNewlines_eq n m :
  ensureNewlines n m = m ++ repeat LF (n - trailingNewlines m).
Proof.
  unfold ensureNewlines, repeat_char.
  destruct (Nat.ltb_spec (trailingNewlines m) n) as [H|H]; [reflexivity|].
  replace (n - trailingNewlines m) with 0 by lia. cbn. now rewrite app_nil_r.
Qed.

(** X6: [ensureNewlines(n)] only appends line feeds, as many as are
    missing: afterwards the buffer ends with [max n t] line feeds, where [t]
    is the number it ended with; asking again, or asking for fewer, changes
    nothing, so blocks that follow one another never pile up blank lines. *)
Theorem ensureNewlines_tops_up (n m : nat) (buf : str) :
  ensureNewlines n buf = buf ++ repeat LF (n - trailingNewlines buf)
  /\ trailingNewlines (ensureNewlines n buf)
     = Nat.max n (trailingNewlines buf)
  /\ ensureNewlines m (ensureNewlines n buf)
     = ensureNewlines (Nat.max m n) buf.
Proof.
  split; [apply ensureNewlines_eq|].
  assert (T : trailingNewlines (ensureNewlines n buf)
              = Nat.max n (trailingNewlines buf)).
  { rewrite ensureNewlines_eq, trailing_app_lf. lia. }
  split; [exact T|].
  rewrite (ensureNewlines_eq m), T, !ensureNewlines_eq, <- app_assoc,
    <- repeat_app.
  f_equal. f_equal. lia.
Qed.

Lemma append_eq m t : append m t = m ++ t.
Proof.
  unfold append. destruct t; [cbn; now rewrite app_nil_r | reflexivity].
Qed.

Ltac split_handled H :=
  unfold handled in H; cbn [existsb] in H;
  repeat (apply orb_false_iff in H; destruct H as [? H]).

Ltac rewrite_tags :=
  repeat match goal with
         | H : is_tag _ _ = false |- _ => rewrite H; clear H
         | H : has_class _ _ = false |- _ => rewrite H; clear H
         end.

Section WithLower.
Variable toLowerCase : str -> str.

(** X7: elements that [render] does not know are passed through: on a tree
    made of text, comments and such elements it appends the text content and
    leaves the list stack alone, and [domToMarkdown] of an element with such
    children is its trimmed text content. *)
Theorem plain_passthrough (n : node) :
  plain n = true ->
  (forall anc b st,
      render toLowerCase anc b n st
      = mkState (md st ++ textContent n) (listStack st))
  /\ (forall anc e kids, n = Elem e kids ->
        domToMarkdown toLowerCase anc n = trim (textContent n)).
Proof.
  intros Hp.
  assert (R : forall n, plain n = true -> forall anc b st,
            render toLowerCase anc b n st
            = mkState (md st ++ textContent n) (listStack st)).
  { clear n Hp. induction n as [s|s|e kids IH] using node_induction;
      intros Hp anc b st.
    - cbn [render textContent]. unfold app. now rewrite append_eq.
    - cbn [render textContent]. rewrite app_nil_r. now destruct st.
    - cbn [plain] in Hp. apply andb_true_iff in Hp. destruct Hp as [Hh Hk].
      apply negb_true_iff in Hh. split_handled Hh.
      cbn [render orb]. rewrite_tags. cbn [orb].
      cbn [textContent]. clear Hh. revert st.
      induction kids as [|k kids IHk]; intros st.
      + cbn. rewrite app_nil_r. now destruct st.
      + cbn [forallb] in Hk. apply andb_true_iff in Hk. destruct Hk as [Hk1 Hk2].
        inversion IH as [|? ? IH1 IH2]; subst.
        cbn [fold_left map concat]. rewrite (IH1 Hk1), (IHk IH2 Hk2).
        cbn [md listStack]. now rewrite app_assoc. }
  split; [apply R, Hp|].
  intros anc e kids ->. cbn [domToMarkdown textContent].
  cbn [plain] in Hp. apply andb_true_iff in Hp. destruct Hp as [_ Hk].
  f_equal. unfold renderChildren.
  change (concat (map textContent kids))
    with (md (mkState [] []) ++ concat (map textContent kids)).
  generalize (mkState [] []). induction kids as [|k kids IHk]; intros st.
  - cbn. now rewrite app_nil_r.
  - cbn [forallb] in Hk. apply andb_true_iff in Hk. destruct Hk as [Hk1 Hk2].
    cbn [fold_left map concat]. rewrite (R k Hk1), (IHk Hk2).
    cbn [md]. now rewrite app_assoc.
Qed.

End WithLower.

Lemma plain_passthrough_witness :
  domToMarkdown (fun s => s) []
    (el "div" [Text (lit " Hello "); Comment (lit "c");
               el "span" [Text (lit "big "); el "u" [Text (lit "world ")]]])
  = lit "Hello big world".
Proof.
  refine (eq_trans
            (proj2 (@plain_passthrough (fun s => s)
                      (el "div" [Text (lit " Hello "); Comment (lit "c");
                                 el "span" [Text (lit "big ");
                                            el "u" [Text (lit "world ")]]])
                      eq_refl)
               [] (mkInfo (lit "div") [] []) _ eq_refl) _).
  reflexivity.
Defined.

End RenderProps.

(* ================================================================== *)
(** ** The list stack of [render] and the numbering of ordered lists *)

Module ListProps.
Import Js Dom Walker Render JsFacts RenderProps.

Lemma bump_0 s : bump 0 s = s.
Proof.
  destruct s as [|[[|] i] rest]; cbn; try reflexivity.
  now rewrite Nat.add_0_r.
Qed.

Lemma bump_bump a b s : bump b (bump a s) = bump (a + b) s.
Proof.
  destruct s as [|[[|] i] rest]; cbn; try reflexivity.
  now rewrite Nat.add_assoc.
Qed.

Lemma tl_bump k e s : tl (bump k (e :: s)) = s.
Proof. destruct e as [[|] i]; reflexivity. Qed.

Lemma item_marker_bump s : snd (item_marker s) = bump 1 s.
Proof.
  destruct s as [|[[|] i] rest]; cbn; try reflexivity.
  now rewrite Nat.add_1_r.
Qed.

Lemma str_eqb_eq a : forall b, str_eqb a b = true -> a = b.
Proof.
  induction a as [|x a IH]; intros [|y b] H; try discriminate H;
    [reflexivity|].
  cbn [str_eqb] in H. apply andb_true_iff in H. destruct H as [H1 H2].
  apply N.eqb_eq in H1. subst y. f_equal. now apply IH.
Qed.

(** An element has one tag. *)
Lemma tag_excl a b e :
  is_tag a e = true -> str_eqb (lit a) (lit b) = false -> is_tag b e = false.
Proof.
  unfold is_tag. intros Ha Hb. apply str_eqb_eq in Ha. now rewrite Ha.
Qed.

Ltac other_tags E :=
  repeat match goal with
         | |- context [is_tag ?t ?e] => rewrite (@tag_excl _ t e E eq_refl)
         end;
  rewrite ?E; cbn [orb].

Section WithLower.
Variable toLowerCase : str -> str.

Lemma fold_render_stack anc b kids :
  Forall (fun n => forall anc b st, exists k,
            listStack (render toLowerCase anc b n st)
            = bump k (listStack st)) kids ->
  forall st, exists k,
    listStack (fold_left (fun s n => render toLowerCase anc b n s) kids st)
    = bump k (listStack st).
Proof.
  induction 1 as [|n kids Hn _ IH]; intros st.
  - exists 0. cbn. now rewrite bump_0.
  - cbn [fold_left]. destruct (IH (render toLowerCase anc b n st)) as [k2 E2].
    destruct (Hn anc b st) as [k1 E1].
    exists (k1 + k2). now rewrite E2, E1, bump_bump.
Qed.

(** After rendering any node the list stack has the entries it had, except
    that the counter of the innermost list may have advanced. *)
Lemma render_stack_bump (n : node) (anc : list einfo) (b : bool)
    (st : state) :
  exists k, listStack (render toLowerCase anc b n st) = bump k (listStack st).
Proof.
  revert anc b st.
  induction n as [s|s|e kids IH] using node_induction; intros anc b st.
  - exists 0. cbn. now rewrite bump_0.
  - exists 0. cbn. now rewrite bump_0.
  - assert (F : forall b' st', exists k,
               listStack (fold_left
                            (fun s n => render toLowerCase (e :: anc) b' n s)
                            kids st')
               = bump k (listStack st'))
      by (intros b' st'; now apply fold_render_stack).
    assert (Z : exists k, listStack st = bump k (listStack st))
      by (exists 0; now rewrite bump_0).
    assert (L : forall kd, exists k,
               listStack
                 (ens 2
                    (mkState
                       (md (fold_left
                              (fun s n => render toLowerCase (e :: anc) false n s)
                              kids
                              (ens 2 (mkState (md st)
                                        (mkEntry kd 0 :: listStack st)))))
                       (tl (listStack
                              (fold_left
                                 (fun s n =>
                                    render toLowerCase (e :: anc) false n s)
                                 kids
                                 (ens 2 (mkState (md st)
                                           (mkEntry kd 0 :: listStack st))))))))
               = bump k (listStack st)).
    { intros kd.
      destruct (F false (ens 2 (mkState (md st) (mkEntry kd 0 :: listStack st))))
        as [k E].
      exists 0. cbn [ens listStack] in *. now rewrite E, tl_bump, bump_0. }
    cbn [render].
    repeat lazymatch goal with
           | |- context [listStack (if ?c then _ else _)] => destruct c
           end;
      try (cbn [listStack ens app];
           first [ exact Z
                 | lazymatch goal with
                   | |- exists k, listStack (fold_left _ kids ?s0) = _ =>
                       apply (F _ s0)
                   end
                 | apply L ]).
    (* what is left is the list item *)
    destruct (item_marker (listStack (ens 1 st))) as [marker stack] eqn:Em.
    match goal with
    | |- context [fold_left _ kids ?s0] => destruct (F true s0) as [k E]
    end.
    exists (1 + k). rewrite E. cbn [app listStack].
    pose proof (item_marker_bump (listStack (ens 1 st))) as Hb.
    rewrite Em in Hb. cbn [snd ens listStack] in Hb.
    now rewrite Hb, bump_bump.
Qed.

Lemma fold_render_closed anc b kids :
  Forall (fun n => closed n = true -> forall anc b st,
            listStack (render toLowerCase anc b n st) = listStack st) kids ->
  forallb closed kids = true ->
  forall st,
    listStack (fold_left (fun s n => render toLowerCase anc b n s) kids st)
    = listStack st.
Proof.
  induction 1 as [|n kids Hn _ IH]; intros Hc st; [reflexivity|].
  cbn [forallb] in Hc. apply andb_true_iff in Hc. destruct Hc as [Hc1 Hc2].
  cbn [fold_left]. rewrite (IH Hc2). now apply Hn.
Qed.

(** A node whose list items all lie inside lists of its own leaves the
    stack exactly as it was. *)
Lemma closed_keeps_stack (n : node) :
  closed n = true ->
  forall anc b st, listStack (render toLowerCase anc b n st) = listStack st.
Proof.
  induction n as [s|s|e kids IH] using node_induction; intros Hc anc b st;
    try reflexivity.
  assert (L : forall kd,
             listStack
               (ens 2
                  (mkState
                     (md (fold_left
                            (fun s n => render toLowerCase (e :: anc) false n s)
                            kids
                            (ens 2 (mkState (md st)
                                      (mkEntry kd 0 :: listStack st)))))
                     (tl (listStack
                            (fold_left
                               (fun s n =>
                                  render toLowerCase (e :: anc) false n s)
                               kids
                               (ens 2 (mkState (md st)
                                         (mkEntry kd 0 :: listStack st))))))))
             = listStack st).
  { intros kd.
    destruct (@fold_render_stack (e :: anc) false kids) with
      (st := ens 2 (mkState (md st) (mkEntry kd 0 :: listStack st)))
      as [k E].
    - apply Forall_forall. intros x _ anc' b' st'. apply render_stack_bump.
    - cbn [ens listStack] in *. now rewrite E, tl_bump. }
  cbn [closed] in Hc. cbn [render].
  destruct (is_tag "code-block" e || has_class "code-block" e);
    [reflexivity|].
  destruct (is_tag "pre" e); [reflexivity|].
  destruct (is_tag "table" e); [reflexivity|].
  destruct (is_tag "br" e); [reflexivity|].
  destruct (is_tag "hr" e); [reflexivity|].
  cbn [orb] in Hc.
  destruct (is_tag "ul" e) eqn:Eul.
  { other_tags Eul. apply L. }
  destruct (is_tag "ol" e) eqn:Eol.
  { other_tags Eol. apply L. }
  cbn [orb] in Hc.
  destruct (is_tag "li" e) eqn:Eli; [discriminate Hc|].
  destruct (is_tag "code" e) eqn:Ecode.
  { other_tags Ecode. reflexivity. }
  pose proof (@fold_render_closed (e :: anc) true kids IH Hc) as Ft.
  pose proof (@fold_render_closed (e :: anc) false kids IH Hc) as Ff.
  pose proof (@fold_render_closed (e :: anc) b kids IH Hc) as Fb.
  repeat match goal with
         | |- context [if ?c then _ else _] => destruct c
         end; cbn [listStack ens app];
    rewrite ?Ft, ?Ff, ?Fb; reflexivity.
Qed.

(** X8: [render] never leaves a list open and never closes one it did not
    open: after rendering any node the list stack has the entries it had,
    except that the counter of the innermost list, when that is an ordered
    one, may have advanced by the items met outside a list of the node; a
    node without such items leaves the stack exactly as it was. *)
Theorem render_keeps_stack (n : node) (anc : list einfo) (b : bool)
    (st : state) :
  (exists k,
      listStack (render toLowerCase anc b n st) = bump k (listStack st))
  /\ (closed n = true ->
      listStack (render toLowerCase anc b n st) = listStack st).
Proof.
  split; [apply render_stack_bump|].
  intros Hc. now apply closed_keeps_stack.
Qed.

End WithLower.

Lemma render_keeps_stack_witness :
  listStack
    (render (fun s => s) [] false
       (el "div" [el "ul" [el "li" [Text (lit "a")]];
                  el "p" [Text (lit "b")]])
       (mkState (lit "x") [mkEntry OL 4; mkEntry UL 0]))
  = [mkEntry OL 4; mkEntry UL 0].
Proof.
  apply (proj2 (@render_keeps_stack (fun s => s)
                  (el "div" [el "ul" [el "li" [Text (lit "a")]];
                             el "p" [Text (lit "b")]])
                  [] false (mkState (lit "x") [mkEntry OL 4; mkEntry UL 0]))).
  reflexivity.
Defined.

End ListProps.

(* ================================================================== *)
(** ** The numbers of the items of an ordered list *)

Module NumberingProps.
Import Js Dom Walker Render JsFacts RenderProps ListProps.

Section WithLower.
Variable toLowerCase : str -> str.

Lemma fold_closed anc b kids :
  forallb closed kids = true ->
  forall st,
    listStack (fold_left (fun s n => render toLowerCase anc b n s) kids st)
    = listStack st.
Proof.
  intros Hc. apply fold_render_closed; [|exact Hc].
  apply Forall_forall. intros n _. apply closed_keeps_stack.
Qed.

Lemma item_render e kids anc b st :
  is_tag "li" e = true ->
  has_class "code-block" e = false ->
  render toLowerCase anc b (Elem e kids) st
  = fold_left (fun s k => render toLowerCase (e :: anc) true k s) kids
      (mkState
         (ensureNewlines 1 (md st)
          ++ concat (repeat (lit "  ") (List.length (listStack st) - 1))
          ++ fst (item_marker (listStack st)) ++ [SPACE])
         (snd (item_marker (listStack st)))).
Proof.
  intros Eli Ecb. cbn [render]. other_tags Eli. rewrite Ecb. cbn [orb].
  cbn [ens listStack md]. destruct (item_marker (listStack st)) as [m s'].
  cbn [fst snd]. unfold app. cbn [md listStack]. rewrite append_eq.
  reflexivity.
Qed.

Lemma item_bumps n :
  is_item n = true ->
  forall anc b st,
    listStack (render toLowerCase anc b n st) = bump 1 (listStack st).
Proof.
  destruct n as [s|s|e kids]; try discriminate. cbn [is_item].
  intros H anc b st. apply andb_true_iff in H. destruct H as [H Hk].
  apply andb_true_iff in H. destruct H as [Hcb Hli].
  apply negb_true_iff, orb_false_iff in Hcb. destruct Hcb as [_ Hcb].
  rewrite (@item_render e kids anc b st Hli Hcb), (@fold_closed _ _ _ Hk).
  cbn [listStack]. apply item_marker_bump.
Qed.

Lemma items_counted anc b kids :
  forallb (fun n => is_item n || closed n) kids = true ->
  forall st,
    listStack (fold_left (fun s n => render toLowerCase anc b n s) kids st)
    = bump (List.length (filter is_item kids)) (listStack st).
Proof.
  induction kids as [|n kids IH]; intros H st.
  - cbn. now rewrite bump_0.
  - cbn [forallb] in H. apply andb_true_iff in H. destruct H as [Hn Hk].
    cbn [fold_left filter]. rewrite (IH Hk). destruct (is_item n) eqn:En.
    + rewrite (@item_bumps n En). cbn [List.length]. now rewrite bump_bump.
    + cbn [orb] in Hn. now rewrite (@closed_keeps_stack toLowerCase n Hn).
Qed.

(** X9: the items of an ordered list are numbered 1, 2, 3, ... in document
    order whatever they contain: when the children before an item are items
    and nodes that hold no item outside a list of their own, the item is
    written on a line of its own as two spaces for each enclosing list, the
    number of items before it plus one, a full stop and a space, and the
    list is closed again after its last child. *)
Theorem ordered_list_numbering (anc : list einfo) (b : bool) (e ei : einfo)
    (before ikids after : list node) (st : state) :
  is_tag "ol" e = true ->
  has_class "code-block" e = false ->
  forallb (fun n => is_item n || closed n) before = true ->
  is_tag "li" ei = true ->
  has_class "code-block" ei = false ->
  let opened := ens 2 (mkState (md st) (mkEntry OL 0 :: listStack st)) in
  let s2 := renderChildren toLowerCase (e :: anc) false before opened in
  let k := S (List.length (filter is_item before)) in
  let s3 :=
    renderChildren toLowerCase (ei :: e :: anc) true ikids
      (mkState
         (ensureNewlines 1 (md s2)
          ++ concat (repeat (lit "  ") (List.length (listStack st)))
          ++ decimal k ++ lit ". ")
         (mkEntry OL k :: listStack st)) in
  let s4 := renderChildren toLowerCase (e :: anc) false after s3 in
  render toLowerCase anc b (Elem e (before ++ Elem ei ikids :: after)) st
  = ens 2 (mkState (md s4) (tl (listStack s4))).
Proof.
  intros Eol Ecb Hb Eli Ecbi opened s2 k s3 s4.
  cbn [render]. other_tags Eol. rewrite Ecb. cbn [orb].
  rewrite fold_left_app. cbn [fold_left]. fold opened.
  change (fold_left (fun s n => render toLowerCase (e :: anc) false n s)
            before opened) with s2.
  assert (E2 : listStack s2
               = mkEntry OL (List.length (filter is_item before))
                   :: listStack st).
  { unfold s2, renderChildren. rewrite (@items_counted _ _ _ Hb). reflexivity. }
  rewrite (@item_render ei ikids (e :: anc) false s2 Eli Ecbi), E2.
  cbn [item_marker fst snd List.length Nat.sub]. rewrite Nat.sub_0_r.
  replace ((decimal (S (List.length (filter is_item before))) ++ lit ".")
           ++ [SPACE])
    with (decimal k ++ lit ". ")
    by (unfold k; now rewrite <- app_assoc).
  reflexivity.
Qed.

End WithLower.

Lemma ordered_list_numbering_witness :
  render (fun s => s) [] false
    (el "ol" [el "li" [Text (lit "a")]; Text (lit " ");
              el "li" [Text (lit "b"); el "ul" [el "li" [Text (lit "c")]]];
              el "li" [Text (lit "d")]])
    (mkState [] [])
  = mkState
      (text [""; ""; "1. a "; "2. b"; ""; "  - c"; ""; "3. d"; ""; ""]%string) [].
Proof.
  refine (eq_trans
            (@ordered_list_numbering (fun s => s) [] false
               (mkInfo (lit "ol") [] []) (mkInfo (lit "li") [] [])
               [el "li" [Text (lit "a")]; Text (lit " ");
                el "li" [Text (lit "b"); el "ul" [el "li" [Text (lit "c")]]]]
               [Text (lit "d")] [] (mkState [] [])
               eq_refl eq_refl eq_refl eq_refl eq_refl) _).
  vm_compute. reflexivity.
Defined.

End NumberingProps.

(* ================================================================== *)
(** ** The table written by [extractTable] *)

Module TableProps.
Import Js Dom Walker TableAux JsFacts RenderProps WalkerProps.

Lemma ws_not_special c :
  is_ws c = true -> (c =? PIPE)%N = false /\ (c =? BACKSLASH)%N = false.
Proof.
  intros H. split; apply N.eqb_neq; intros ->; discriminate H.
Qed.

Lemma pipes_escaped_weaken s : forall b,
  pipes_escaped_from b s = true -> pipes_escaped_from true s = true.
Proof.
  destruct s as [|c r]; intros b H; [reflexivity|].
  cbn [pipes_escaped_from] in *. apply andb_true_iff in H.
  destruct H as [_ H]. now rewrite orb_true_r.
Qed.

Lemma pipes_escaped_ltrim s :
  pipes_escaped s = true -> pipes_escaped (ltrim s) = true.
Proof.
  unfold pipes_escaped. induction s as [|c r IH]; intros H; [reflexivity|].
  cbn [ltrim]. destruct (is_ws c) eqn:Ew; [|exact H].
  apply IH. cbn [pipes_escaped_from] in H. apply andb_true_iff in H.
  destruct H as [_ H]. destruct (ws_not_special c Ew) as [_ Eb].
  now rewrite Eb in H.
Qed.

Lemma pipes_escaped_prefix a z : forall b,
  pipes_escaped_from b (a ++ z) = true -> pipes_escaped_from b a = true.
Proof.
  induction a as [|c a IH]; intros b H; [reflexivity|].
  cbn [List.app pipes_escaped_from] in *. apply andb_true_iff in H.
  destruct H as [H1 H2]. rewrite H1. cbn [andb]. now apply IH.
Qed.

Lemma pipes_escaped_trim s :
  pipes_escaped s = true -> pipes_escaped (trim s) = true.
Proof.
  intros H. apply pipes_escaped_ltrim in H. unfold trim.
  destruct (rtrim_prefix (ltrim s)) as [z Ez]. rewrite Ez in H.
  now apply pipes_escaped_prefix in H.
Qed.

Lemma escape_pipes_escaped s : forall b,
  pipes_escaped_from b (escape_pipes s) = true.
Proof.
  induction s as [|c r IH]; intros b; [reflexivity|].
  cbn [escape_pipes]. destruct (N.eqb_spec c PIPE) as [->|Hn].
  - cbn [pipes_escaped_from]. rewrite IH. reflexivity.
  - cbn [pipes_escaped_from]. rewrite IH.
    apply N.eqb_neq in Hn. now rewrite Hn.
Qed.

Lemma in_escape_pipes c s :
  In c (escape_pipes s) -> c = BACKSLASH \/ In c s.
Proof.
  induction s as [|x r IH]; [intros []|].
  cbn [escape_pipes]. destruct (N.eqb_spec x PIPE) as [->|Hn]; cbn [In].
  - intros [H|[H|H]]; [now left | right; now left |].
    destruct (IH H) as [|]; [now left | right; now right].
  - intros [H|H]; [right; now left|].
    destruct (IH H) as [|]; [now left | right; now right].
Qed.

Lemma no_lf_collapse_ws s : forall b, ~ In LF (collapse_ws_from b s).
Proof.
  induction s as [|c r IH]; intros b; [intros []|].
  cbn [collapse_ws_from]. destruct (is_ws c) eqn:Ew.
  - destruct b; [apply IH|]. cbn [In]. intros [H|H]; [discriminate H|].
    now apply IH in H.
  - cbn [In]. intros [H|H]; [subst c; discriminate Ew|]. now apply IH in H.
Qed.

Lemma escapeTableCell_ok t : cell_ok (escapeTableCell t) = true.
Proof.
  unfold cell_ok, escapeTableCell. apply andb_true_iff. split.
  - apply forallb_forall. intros c Hc. apply negb_true_iff, N.eqb_neq.
    intros ->. apply in_trim, in_escape_pipes in Hc.
    destruct Hc as [Hc|Hc]; [discriminate Hc|].
    now apply no_lf_collapse_ws in Hc.
  - apply pipes_escaped_trim, escape_pipes_escaped.
Qed.

Lemma cells_of_ok th row :
  Forall (fun c => cell_ok c = true) (cells_of th row).
Proof.
  unfold cells_of. apply Forall_forall. intros c Hc.
  apply in_map_iff in Hc. destruct Hc as [x [<- _]].
  apply escapeTableCell_ok.
Qed.

Lemma pad_ok row k : ok_row row -> ok_row (row ++ repeat [] k).
Proof.
  intros H. apply Forall_app. split; [exact H|].
  apply Forall_forall. intros c Hc. apply repeat_spec in Hc. now subst c.
Qed.

(** What [extractTable] writes from the header cells and the rows it has
    collected. *)
Lemma grid_written (headerCells : list str) (rows : list (list str))
    (md : str) :
  ok_row headerCells -> Forall ok_row rows ->
  let colCount :=
    fold_left Nat.max (map (@List.length str) rows)
              (List.length headerCells) in
  let pad := fun arr : list str =>
    arr ++ repeat [] (colCount - List.length arr) in
  let out :=
    if is_empty headerCells then md
    else append md
           ([LF; LF] ++ table_line (pad headerCells)
            ++ table_line (map (fun _ => lit "---") (pad headerCells))
            ++ concat (map (fun row => table_line (pad row)) rows) ++ [LF]) in
  out = md
  \/ exists n header body,
       0 < n
       /\ List.length header = n
       /\ Forall (fun row => List.length row = n) body
       /\ ok_row header /\ Forall ok_row body
       /\ out = md ++ [LF; LF] ++ table_line header
                ++ table_line (repeat (lit "---") n)
                ++ concat (map table_line body) ++ [LF].
Proof.
  intros Hh Hr colCount pad out. subst out.
  destruct (fold_max_ge (map (@List.length str) rows)
              (List.length headerCells)) as [Ha Hl].
  fold colCount in Ha, Hl.
  destruct (is_empty headerCells) eqn:Ee; [now left|]. right.
  assert (Hpos : 0 < List.length headerCells)
    by (destruct headerCells; [discriminate Ee | cbn; lia]).
  assert (Hpad : forall arr, List.length arr <= colCount ->
                             List.length (pad arr) = colCount).
  { intros arr Hle. unfold pad. rewrite length_app, repeat_length. lia. }
  exists colCount, (pad headerCells), (map pad rows).
  split; [lia|].
  split; [now apply Hpad|].
  split.
  { apply Forall_forall. intros row Hin. apply in_map_iff in Hin.
    destruct Hin as [r [<- Hin]]. apply Hpad.
    rewrite Forall_forall in Hl. apply Hl. now apply in_map. }
  split; [now apply pad_ok|].
  split.
  { apply Forall_forall. intros row Hin. apply in_map_iff in Hin.
    destruct Hin as [r [<- Hin]]. apply pad_ok.
    rewrite Forall_forall in Hr. now apply Hr. }
  rewrite append_eq, map_map.
  replace (map (fun _ : str => lit "---") (pad headerCells))
    with (repeat (lit "---") colCount); [reflexivity|].
  rewrite <- (Hpad headerCells Ha). generalize (pad headerCells).
  intros l. induction l as [|x l IH]; [reflexivity|].
  cbn [List.length repeat map]. now rewrite IH.
Qed.

Lemma extractTable_grid (anc : list einfo) (table : node) (md : str) :
  extractTable anc table md = md
  \/ exists n header body,
       0 < n
       /\ List.length header = n
       /\ Forall (fun row => List.length row = n) body
       /\ Forall (fun c => cell_ok c = true) header
       /\ Forall (Forall (fun c => cell_ok c = true)) body
       /\ extractTable anc table md
          = md ++ [LF; LF] ++ table_line header
            ++ table_line (repeat (lit "---") n)
            ++ concat (map table_line body) ++ [LF].
Proof.
  unfold extractTable.
  set (headerCells0 := match querySelector anc table [just (by_tag "thead")]
                       with
                       | Some (thead, thead_anc) => _
                       | None => []
                       end).
  set (rows0 := filter _ _).
  assert (H0 : ok_row headerCells0).
  { unfold headerCells0.
    destruct (querySelector anc table [just (by_tag "thead")])
      as [[thead thead_anc]|]; [|constructor].
    destruct (querySelector thead_anc thead [just (by_tag "tr")])
      as [[headerRow ?]|]; [apply cells_of_ok | constructor]. }
  assert (R0 : Forall ok_row rows0).
  { unfold rows0. apply Forall_forall. intros row Hin.
    apply filter_In in Hin. destruct Hin as [Hin _].
    apply in_map_iff in Hin. destruct Hin as [r [<- _]]. apply cells_of_ok. }
  clearbody headerCells0 rows0.
  destruct headerCells0 as [|h hs]; [destruct rows0 as [|first rest]|].
  - now left.
  - inversion R0 as [|? ? Hf Hrest]; subst.
    apply (@grid_written first rest md Hf Hrest).
  - apply (@grid_written (h :: hs) rows0 md H0 R0).
Qed.

(** X10: the table written is rectangular.  [extractTable] either writes
    nothing or writes, after a blank line, a header line, a line of [---]
    cells and the body lines, all with the same number of cells, at least
    one; no cell holds a line feed, and every pipe inside a cell has a
    backslash right before it. *)
Theorem table_is_rectangular (anc : list einfo) (table : node) (md : str) :
  extractTable anc table md = md
  \/ exists n header body,
       0 < n
       /\ List.length header = n
       /\ Forall (fun row => List.length row = n) body
       /\ Forall (fun c => cell_ok c = true) header
       /\ Forall (Forall (fun c => cell_ok c = true)) body
       /\ extractTable anc table md
          = md ++ [LF; LF] ++ table_line header
            ++ table_line (repeat (lit "---") n)
            ++ concat (map table_line body) ++ [LF].
Proof. apply extractTable_grid. Qed.

End TableProps.

(* ================================================================== *)
(** ** Properties of the chat picker *)

Module PickerProps.
Import Js Picker PickerAux.

Section WithChats.

Variable chats : list chat.
Variable columns : option Z.

Lemma window (i : Z) :
  (0 <= i < n chats)%Z ->
  (0 <= start chats i)%Z
  /\ (start chats i <= i < start chats i + maxToShow chats)%Z
  /\ (start chats i + (maxToShow chats) <= n chats)%Z.
Proof.
  unfold Picker.start, Picker.maxToShow. intros H.
  assert (D : (0 <= Z.min (n chats) 12 / 2)%Z
              /\ (Z.min (n chats) 12 / 2 < Z.min (n chats) 12)%Z).
  { split; [apply Z.div_pos; lia|]. apply Z.div_lt_upper_bound; lia. }
  lia.
Qed.

Lemma at_index_some (i : Z) :
  (0 <= i < n chats)%Z -> exists item, at_index chats i = Some item.
Proof.
  unfold Picker.n, at_index. intros H.
  destruct (Z.ltb_spec i 0) as [|_]; [lia|].
  destruct (nth_error chats (Z.to_nat i)) as [item|] eqn:E; [now exists item|].
  apply nth_error_None in E. lia.
Qed.

Lemma lines_from_some (index : Z) (k : nat) : forall i,
  (0 <= i)%Z -> (i + Z.of_nat k <= n chats)%Z ->
  exists ls, lines_from chats columns index i k = Some ls
             /\ List.length ls = k.
Proof.
  induction k as [|k IH]; intros i H0 Hn.
  - exists []. split; reflexivity.
  - cbn [lines_from]. unfold line.
    destruct (@at_index_some i) as [item ->]; [lia|].
    destruct (IH (i + 1)%Z) as [ls [-> Hl]]; [lia | lia |].
    eexists. split; [reflexivity|]. cbn [List.length]. now rewrite Hl.
Qed.

Lemma render_inv (st : state) :
  (0 <= index st < n chats)%Z -> Forall (frame_ok chats) (frames st) ->
  resolved st = None ->
  exists st', render chats columns st = Some st' /\ InRange chats st'
              /\ resolved st' = None.
Proof.
  intros Hi Hf Hr. unfold render.
  destruct (@window (index st) Hi) as [W0 [W1 W2]].
  assert (M : (0 <= maxToShow chats)%Z)
    by (unfold Picker.maxToShow, Picker.n; lia).
  destruct (@lines_from_some (index st) (Z.to_nat (maxToShow chats))
              (start chats (index st)) W0) as [ls [-> Hl]]; [lia|].
  eexists. split; [reflexivity|]. split; [|exact Hr].
  unfold InRange. cbn [index renderedLines frames resolved].
  split; [exact Hi|]. split; [reflexivity|].
  split; [now destruct (frames st)|].
  split.
  - apply Forall_app. split; [exact Hf|]. constructor; [|constructor].
    unfold frame_ok. cbn [first selected lines]. rewrite Hl. lia.
  - rewrite Hr. discriminate.
Qed.

Lemma onKeypress_inv (st : state) (k : key) :
  InRange chats st ->
  exists st', onKeypress chats columns st k = Some st' /\ InRange chats st'.
Proof.
  intros I. pose proof I as [Hi [Hl [Hne [Hf Hc]]]]. unfold onKeypress.
  destruct (resolved st) as [o|] eqn:Hr; [now exists st|].
  assert (Up : (0 <= Z.rem (index st - 1 + n chats) (n chats) < n chats)%Z).
  { rewrite Z.rem_mod_nonneg by lia. apply Z.mod_pos_bound. lia. }
  assert (Down : (0 <= Z.rem (index st + 1) (n chats) < n chats)%Z).
  { rewrite Z.rem_mod_nonneg by lia. apply Z.mod_pos_bound. lia. }
  destruct k as [[[| | | | |] ctrl]|]; try (now exists st).
  - destruct (@render_inv (mkState (Z.rem (index st - 1 + (n chats)) (n chats))
                             (renderedLines st) (frames st) None))
      as [st' [E [I' _]]]; [exact Up | exact Hf | reflexivity |].
    now exists st'.
  - destruct (@render_inv (mkState (Z.rem (index st + 1) (n chats))
                             (renderedLines st) (frames st) None))
      as [st' [E [I' _]]]; [exact Down | exact Hf | reflexivity |].
    now exists st'.
  - eexists. split; [reflexivity|]. unfold InRange.
    cbn [index renderedLines frames resolved].
    repeat (split; [assumption|]). intros c [= <-].
    destruct (@at_index_some (index st) Hi) as [item E]. exists item.
    split; [exact E|]. unfold at_index in E.
    destruct (Z.ltb_spec (index st) 0) as [|_]; [lia | exact E].
  - eexists. split; [reflexivity|]. unfold InRange.
    cbn [index renderedLines frames resolved].
    repeat (split; [assumption|]). discriminate.
  - destruct ctrl; [|now exists st].
    eexists. split; [reflexivity|]. unfold InRange.
    cbn [index renderedLines frames resolved].
    repeat (split; [assumption|]). discriminate.
Qed.

Lemma presses_inv (ks : list key) : forall st,
  InRange chats st ->
  exists st', presses chats columns st ks = Some st' /\ InRange chats st'.
Proof.
  induction ks as [|k ks IH]; intros st I; [now exists st|].
  cbn [presses]. destruct (@onKeypress_inv st k I) as [st1 [-> I1]].
  now apply IH.
Qed.

(** X11: on a list of chats that is not empty the picker never fails,
    whatever keys arrive: [render] reads existing entries only and
    shows [min(chats.length, 12)] of them, the selected one always among
    them; the index stays inside the list, so that Enter resolves with an
    entry of the list, never with [undefined]; and [renderedLines] is the
    number of lines of the last frame, header included. *)
Theorem picker_stays_in_range (ks : list key) :
  chats <> [] ->
  exists st,
    selectChatFromList chats columns ks = Some st
    /\ (0 <= index st < n chats)%Z
    /\ renderedLines st = (1 + Z.min (n chats) 12)%Z
    /\ frames st <> []
    /\ Forall (fun f =>
                 (0 <= first f)%Z
                 /\ (first f <= selected f < first f + Z.min (n chats) 12)%Z
                 /\ (first f + Z.min (n chats) 12 <= n chats)%Z
                 /\ Z.of_nat (List.length (lines f)) = Z.min (n chats) 12)
              (frames st)
    /\ forall c, resolved st = Some (Chosen c) ->
                 exists item, c = Some item /\ In item chats.
Proof.
  intros Hne. unfold selectChatFromList.
  assert (Hn : (0 < n chats)%Z).
  { unfold Picker.n. destruct chats; [congruence | cbn; lia]. }
  destruct (@render_inv (mkState 0 0 [] None)) as [st0 [-> [I0 _]]];
    [cbn; lia | constructor | reflexivity |].
  destruct (@presses_inv ks st0 I0) as [st [-> [Hi [Hl [Hf0 [Hf Hc]]]]]].
  exists st. split; [reflexivity|]. split; [exact Hi|].
  split; [exact Hl|]. split; [exact Hf0|]. split; [exact Hf|].
  intros c Hr. destruct (Hc c Hr) as [item [-> E]].
  exists item. split; [reflexivity|]. now apply nth_error_In in E.
Qed.

(** X12: a line of the picker is never longer than three code units more
    than [maxLabelWidth = max(10, cols - 6)]; it fits a terminal of 13
    columns or more. *)
Theorem picker_line_fits (index i : Z) (l : str) :
  line chats columns index i = Some l ->
  (Z.of_nat (List.length l) <= 3 + Z.max 10 (cols columns - 6))%Z
  /\ ((13 <= cols columns)%Z ->
      (Z.of_nat (List.length l) <= cols columns)%Z).
Proof.
  unfold line. destruct (at_index chats i) as [item|]; [|discriminate].
  intros [= <-].
  assert (L : (Z.of_nat (List.length (label columns item))
               <= maxLabelWidth columns)%Z).
  { unfold label.
    set (t := if is_empty (title item) then lit "(untitled)"
              else title item).
    assert (W : (10 <= maxLabelWidth columns)%Z)
      by (unfold maxLabelWidth; lia).
    destruct (Z.ltb_spec (maxLabelWidth columns) (Z.of_nat (List.length t)))
      as [H|H]; [|exact H].
    rewrite length_app, length_firstn. cbn [List.length lit].
    change (List.length (lit "...")) with 3. lia. }
  rewrite length_app.
  assert (P : List.length (if (i =? index)%Z then lit " > " else lit "   ")
              = 3) by (destruct (i =? index)%Z; reflexivity).
  rewrite P. unfold maxLabelWidth in L. split; lia.
Qed.

End WithChats.

Lemma picker_stays_in_range_witness :
  exists st,
    selectChatFromList
      [mkChat (lit "+ New Chat") [] 0; mkChat (lit "Trip") (lit "/app/1") (-1)]
      None [Some (KUp, false); Some (KReturn, false)] = Some st
    /\ resolved st
       = Some (Chosen (Some (mkChat (lit "Trip") (lit "/app/1") (-1)))).
Proof.
  destruct (@picker_stays_in_range
              [mkChat (lit "+ New Chat") [] 0;
               mkChat (lit "Trip") (lit "/app/1") (-1)]
              None [Some (KUp, false); Some (KReturn, false)])
    as [st [E _]]; [discriminate|].
  exists st. split; [exact E|].
  vm_compute in E. injection E as <-. reflexivity.
Defined.

Lemma picker_line_fits_witness :
  (Z.of_nat (List.length (lit " > Trip to the...")) <= 20)%Z.
Proof.
  apply (proj2 (@picker_line_fits
                  [mkChat (lit "Trip to the mountains in May") [] 0]
                  (Some 20%Z) 0 0 (lit " > Trip to the...")
                  eq_refl)).
  vm_compute. discriminate.
Defined.

End PickerProps.

(* ================================================================== *)
(** ** What reaches the terminal *)

Module PrinterProps.
Import Js Printer JsFacts.

Lemma join_split_nl s : join_nl (split_nl s) = s.
Proof.
  induction s as [|c r IH]; [reflexivity|].
  cbn [split_nl]. pose proof (split_nl_nonempty r) as Hne.
  destruct (split_nl r) as [|l ls] eqn:E; [congruence|].
  destruct (c =? LF)%N eqn:Ec.
  - apply N.eqb_eq in Ec. subst c.
    change (join_nl ([] :: l :: ls)) with (LF :: join_nl (l :: ls)).
    now rewrite IH.
  - destruct ls as [|l' ls']; cbn in IH |- *; now rewrite IH.
Qed.

Lemma writes_from (total : nat) (lines : list str) : forall k,
  k + List.length lines = total ->
  concat (map (fun p : nat * str =>
                 snd p ++ (if fst p <? total - 1 then [LF] else []))
              (combine (seq k (List.length lines)) lines))
  = join_nl lines.
Proof.
  induction lines as [|l rest IH]; intros k Hk; [reflexivity|].
  cbn [List.length seq combine map concat fst snd].
  cbn [List.length] in Hk.
  destruct rest as [|l' rest'].
  - cbn [List.length] in Hk.
    destruct (Nat.ltb_spec k (total - 1)) as [H|H]; [lia|].
    cbn. now rewrite !app_nil_r.
  - rewrite (IH (S k)) by (cbn [List.length] in *; lia).
    cbn [List.length] in Hk.
    destruct (Nat.ltb_spec k (total - 1)) as [H|H]; [|lia].
    change (join_nl (l :: l' :: rest'))
      with (l ++ [LF] ++ join_nl (l' :: rest')).
    now rewrite <- app_assoc.
Qed.

Lemma line_writes_join lines : concat (line_writes lines) = join_nl lines.
Proof. unfold line_writes. now apply writes_from. Qed.

Lemma endsWith_snoc s c : endsWith [c] (s ++ [c]) = true.
Proof.
  unfold endsWith. rewrite rev_app_distr. cbn. now rewrite N.eqb_refl.
Qed.

(** X13: the writes to the terminal, put together, are the rendered text,
    followed by one line feed when it does not end with one: nothing of the
    text is lost or repeated, and the output always ends with a line
    feed. *)
Theorem printed_is_rendered (rendered : str) :
  concat (print rendered)
  = (if endsWith [LF] rendered then rendered else rendered ++ [LF])
  /\ endsWith [LF] (concat (print rendered)) = true.
Proof.
  assert (E : concat (print rendered)
              = if endsWith [LF] rendered then rendered
                else rendered ++ [LF]).
  { unfold print. rewrite concat_app, line_writes_join, join_split_nl.
    destruct (endsWith [LF] rendered); cbn; now rewrite ?app_nil_r. }
  split; [exact E|]. rewrite E.
  destruct (endsWith [LF] rendered) eqn:H; [exact H | apply endsWith_snoc].
Qed.

End PrinterProps.

(* ================================================================== *)
(** ** Properties of the list of recent chats *)

Module RecentProps.
Import Js Dom Render Picker Recent RecentAux NormalizerFacts ListProps.

Lemma str_eqb_refl a : str_eqb a a = true.
Proof.
  induction a as [|x a IH]; [reflexivity|].
  cbn [str_eqb]. now rewrite N.eqb_refl, IH.
Qed.

Lemma has_false seen key : has seen key = false -> ~ In key seen.
Proof.
  unfold has. intros H Hin.
  assert (E : existsb (str_eqb key) seen = true).
  { apply existsb_exists. exists key. split; [exact Hin|].
    apply str_eqb_refl. }
  congruence.
Qed.

Lemma fold_left_inv (A B : Type) (f : A -> B -> A) (P : A -> Prop)
    (l : list B) :
  (forall acc x, In x l -> P acc -> P (f acc x)) ->
  forall init, P init -> P (fold_left f l init).
Proof.
  induction l as [|x l IH]; intros Hf init Hi; [exact Hi|].
  cbn [fold_left]. apply IH.
  - intros acc y Hy. apply Hf. now right.
  - apply Hf; [now left | exact Hi].
Qed.

Lemma in_indexed (A : Type) (l : list A) : forall k i x,
  In (i, x) (combine (seq k (List.length l)) l) ->
  k <= i /\ nth_error l (i - k) = Some x.
Proof.
  induction l as [|y l IH]; intros k i x; [intros []|].
  cbn [List.length seq combine In]. intros [H|H].
  - injection H as <- <-. rewrite Nat.sub_diag. split; [lia | reflexivity].
  - destruct (IH (S k) i x H) as [Hk E]. split; [lia|].
    replace (i - k) with (S (i - S k)) by lia. exact E.
Qed.

Section WithPage.

Variable container : option (list (str * str)).
Variable convItems : list conv.

Lemma push_inv (acc : list chat * list str) (c : chat) :
  Recorded container convItems acc -> has (snd acc) (key_of c) = false ->
  opens (tooltipMap container) convItems c ->
  Recorded container convItems (fst acc ++ [c], key_of c :: snd acc).
Proof.
  intros [Hs [Hn Hw]] Hk Hc. apply has_false in Hk.
  unfold Recorded. cbn [fst snd]. split; [|split].
  - apply Forall_app. split.
    + eapply Forall_impl; [|exact Hs]. intros x Hx. now right.
    + constructor; [now left | constructor].
  - rewrite map_app. cbn [map].
    apply NoDup_rev in Hn. rewrite <- (rev_involutive (_ ++ _)).
    apply NoDup_rev. rewrite rev_app_distr. cbn [rev List.app].
    constructor; [|exact Hn].
    rewrite <- in_rev. intros Hin. apply in_map_iff in Hin.
    destruct Hin as [x [Ex Hx]]. rewrite Forall_forall in Hs.
    apply Hs in Hx. now rewrite Ex in Hx.
  - apply Forall_app. split; [exact Hw|]. constructor; [exact Hc|constructor].
Qed.

Lemma visit_conv_inv (acc : list chat * list str) (p : nat * conv) :
  In p (combine (seq 0 (List.length convItems)) convItems) ->
  Recorded container convItems acc ->
  Recorded container convItems (visit_conv (tooltipMap container) acc p).
Proof.
  destruct p as [index el]. intros Hin I.
  apply in_indexed in Hin. destruct Hin as [_ Hel].
  rewrite Nat.sub_0_r in Hel. unfold visit_conv.
  destruct (is_empty (conv_title (tooltipMap container) el)) eqn:Et;
    [exact I|].
  apply is_empty_false in Et.
  set (h := or_empty (hrefAttr el)).
  destruct (is_empty h) eqn:Eh.
  - set (c := mkChat (conv_title (tooltipMap container) el) h
                     (Z.of_nat index)).
    assert (K : key_of c = lit "click:" ++ decimal index).
    { unfold key_of, c. cbn [href clickIndex]. rewrite Eh.
      now rewrite Nat2Z.id. }
    rewrite <- K. destruct (has (snd acc) (key_of c)) eqn:Hk; [exact I|].
    apply push_inv; [exact I | exact Hk |]. right.
    unfold c. cbn [href title clickIndex]. rewrite Nat2Z.id.
    split; [now apply is_empty_true|]. split; [exact Et|].
    split; [lia|]. exists el. split; [exact Hel|].
    split; [reflexivity | now apply is_empty_true].
  - set (c := mkChat (conv_title (tooltipMap container) el) h (-1)).
    assert (K : key_of c = h).
    { unfold key_of, c. cbn [href clickIndex]. now rewrite Eh. }
    destruct (has (snd acc) h) eqn:Hk; [exact I|].
    rewrite <- K in Hk |- *.
    apply push_inv; [exact I | exact Hk |]. left.
    unfold c. cbn [href title clickIndex].
    split; [now apply is_empty_false|]. split; [reflexivity | now left].
Qed.

Lemma visit_link_inv (acc : list chat * list str) (el : link) :
  Recorded container convItems acc ->
  Recorded container convItems (visit_link (tooltipMap container) acc el).
Proof.
  intros I. unfold visit_link.
  set (h := if negb (is_empty (or_empty (l_hrefAttr el)))
            then or_empty (l_hrefAttr el) else l_href el).
  destruct (is_empty h) eqn:Eh; [exact I|]. cbn [orb].
  destruct (includes (lit "/app/") h) eqn:Ei; [|exact I]. cbn [negb].
  set (c := mkChat (pickTitle (tooltipMap container) el) h (-1)).
  assert (K : key_of c = h).
  { unfold key_of, c. cbn [href clickIndex]. now rewrite Eh. }
  destruct (has (snd acc) h) eqn:Hk; [exact I|].
  rewrite <- K in Hk |- *.
  apply push_inv; [exact I | exact Hk |]. left.
  unfold c. cbn [href title clickIndex].
  split; [now apply is_empty_false|]. split; [reflexivity | now right].
Qed.

Lemma firstn_inv k (acc : list chat * list str) :
  Recorded container convItems acc ->
  Recorded container convItems (firstn k (fst acc), snd acc).
Proof.
  intros [Hs [Hn Hw]]. unfold Recorded. cbn [fst snd].
  rewrite <- (firstn_skipn k (fst acc)) in Hs, Hn, Hw.
  apply Forall_app in Hs. apply Forall_app in Hw. rewrite map_app in Hn.
  apply NoDup_app_remove_r in Hn. tauto.
Qed.

(** The entries kept by a test still have different keys. *)
Lemma keys_of_kept (keep : chat -> bool) (items : list chat) :
  NoDup (map key_of items) -> NoDup (map key_of (filter keep items)).
Proof.
  induction items as [|c items IH]; cbn [map filter]; [constructor|].
  intros H. apply NoDup_cons_iff in H. destruct H as [Hc Hrest].
  destruct (keep c); [|now apply IH].
  cbn [map]. apply NoDup_cons_iff. split; [|now apply IH].
  rewrite in_map_iff in *. intros [d [Ed Hd]]. apply Hc.
  exists d. split; [exact Ed|]. now apply filter_In in Hd.
Qed.

Lemma nodup_through (A B C : Type) (f : A -> B) (g : A -> C) (l : list A) :
  (forall a b, In a l -> In b l -> g a = g b -> f a = f b) ->
  NoDup (map f l) -> NoDup (map g l).
Proof.
  induction l as [|x l IH]; intros Hfg H; [constructor|].
  cbn [map] in *. inversion H as [|? ? Hx Hl]; subst.
  constructor.
  - intros Hin. apply Hx. apply in_map_iff in Hin.
    destruct Hin as [y [Ey Hy]]. apply in_map_iff. exists y.
    split; [|exact Hy]. apply Hfg; [now right | now left | exact Ey].
  - apply IH; [|exact Hl]. intros a b Ha Hb. apply Hfg; now right.
Qed.

(** X14: the list of recent chats has at most 30 entries; no two of them
    have the same address, and no two of those without address the same
    click index; every entry can be opened: it has an address (and then a
    title, or an address that holds [/app/]) and the click index -1, or it
    has a title and the index of the conversation element this title was
    read from. *)
Theorem recent_chats_wellformed (links : list link) :
  let items := fetchRecentChats container convItems links in
  List.length items <= 30
  /\ NoDup (map href (filter has_href items))
  /\ NoDup (map clickIndex (filter (fun c => negb (has_href c)) items))
  /\ Forall (opens (tooltipMap container) convItems) items.
Proof.
  intros items.
  assert (I : exists seen, Recorded container convItems (items, seen)
                           /\ List.length items <= 30).
  { unfold items, fetchRecentChats.
    set (acc := fold_left (visit_conv (tooltipMap container)) _ _).
    assert (I1 : Recorded container convItems acc).
    { unfold acc. apply fold_left_inv.
      - intros a x Hx Ha. now apply visit_conv_inv.
      - unfold Recorded. cbn. repeat split; constructor. }
    assert (I2 : Recorded container convItems
                   (fold_left (visit_link (tooltipMap container)) links acc)).
    { apply fold_left_inv; [|exact I1].
      intros a x _ Ha. now apply visit_link_inv. }
    destruct (0 <? List.length (fst acc)).
    - exists (snd acc). split; [now apply firstn_inv | apply firstn_le_length].
    - eexists. split; [apply firstn_inv, I2 | apply firstn_le_length]. }
  destruct I as [seen [[_ [Hn Hw]] Hl]]. cbn [fst snd] in *.
  split; [exact Hl|]. split; [|split; [|exact Hw]].
  - apply (keys_of_kept has_href) in Hn.
    revert Hn. apply nodup_through. intros a b Ha Hb E.
    apply filter_In in Ha, Hb. destruct Ha as [_ Ha], Hb as [_ Hb].
    unfold has_href in Ha, Hb. apply negb_true_iff in Ha, Hb.
    unfold key_of. now rewrite Ha, Hb.
  - apply (keys_of_kept (fun c => negb (has_href c))) in Hn.
    revert Hn. apply nodup_through. intros a b Ha Hb E.
    apply filter_In in Ha, Hb. destruct Ha as [_ Ha], Hb as [_ Hb].
    unfold has_href in Ha, Hb. rewrite negb_involutive in Ha, Hb.
    unfold key_of. now rewrite Ha, Hb, E.
Qed.

End WithPage.

End RecentProps.

(* ================================================================== *)
(** ** A table of the walker under the normalizer *)

Module TableNormalizes.
Import Js Re Dom Walker Normalizer NormalizerAux TableAux.
Import ReFacts JsFacts NormalizerFacts TableProps.

(** *** Counting the pipes of a line *)

Lemma count_escaped x : forall p,
  pipes_escaped_from (is_bs p) x = true -> countPipes_from p x = 0.
Proof.
  induction x as [|c r IH]; intros p H; [reflexivity|].
  cbn [pipes_escaped_from countPipes_from] in *.
  apply andb_true_iff in H. destruct H as [H1 H2].
  rewrite (IH (Some c) H2). fold (is_bs p).
  destruct (c =? PIPE)%N; [|reflexivity].
  cbn [negb orb] in H1. now rewrite H1.
Qed.

Lemma count_app x c t : forall p,
  (c =? PIPE)%N = false ->
  countPipes_from p (x ++ c :: t)
  = countPipes_from p x + countPipes_from (Some c) t.
Proof.
  intros p Hc. revert p. induction x as [|y x IH]; intros p.
  - cbn [List.app countPipes_from]. now rewrite Hc.
  - cbn [List.app countPipes_from]. rewrite IH. lia.
Qed.

Lemma join_cons (sep c : str) (rest : list str) :
  join sep (c :: rest) = c ++ concat (map (List.app sep) rest).
Proof.
  revert c. induction rest as [|d rest IH]; intros c.
  - cbn. now rewrite app_nil_r.
  - change (join sep (c :: d :: rest)) with (c ++ sep ++ join sep (d :: rest)).
    rewrite IH. cbn [map concat]. now rewrite <- app_assoc.
Qed.

Lemma ok_cell_escaped c : ok_cell c -> pipes_escaped_from false c = true.
Proof. unfold ok_cell, cell_ok. intros H. now apply andb_true_iff in H. Qed.

Lemma ok_cell_no_lf c : ok_cell c -> ~ In LF c.
Proof.
  unfold ok_cell, cell_ok. intros H Hin. apply andb_true_iff in H.
  destruct H as [H _]. rewrite forallb_forall in H. apply H in Hin.
  discriminate Hin.
Qed.

Lemma row_tail_shape (rest : list str) :
  exists u, row_tail rest = SPACE :: PIPE :: u.
Proof.
  unfold row_tail. destruct rest as [|c rest]; eexists;
    [reflexivity | cbn [map concat]; now rewrite <- !app_assoc].
Qed.

(** The cells after the first, each after [" | "], and the closing
    [" |"]. *)
Lemma count_tail (rest : list str) :
  Forall ok_cell rest ->
  forall p, countPipes_from p (row_tail rest) = S (List.length rest).
Proof.
  induction 1 as [|c rest Hc _ IH]; intros p; [reflexivity|].
  specialize (IH (Some SPACE)).
  destruct (row_tail_shape rest) as [u Eu].
  replace (row_tail (c :: rest))
    with (SPACE :: PIPE :: SPACE :: c ++ SPACE :: PIPE :: u)
    by (rewrite <- Eu; unfold row_tail; cbn [map concat];
        now rewrite <- !app_assoc).
  rewrite Eu in IH.
  cbn [countPipes_from] in IH |- *.
  change (SPACE =? PIPE)%N with false in *.
  change (PIPE =? PIPE)%N with true in *.
  change (SPACE =? BACKSLASH)%N with false in *.
  cbn [andb negb Nat.add] in IH |- *.
  rewrite count_app by reflexivity.
  rewrite count_escaped by (now apply ok_cell_escaped).
  cbn [countPipes_from Nat.add List.length].
  change (PIPE =? PIPE)%N with true.
  change (SPACE =? BACKSLASH)%N with false.
  cbn [andb negb]. lia.
Qed.

Lemma row_text_eq c rest :
  row_text (c :: rest) = PIPE :: SPACE :: c ++ row_tail rest.
Proof.
  unfold row_text, row_tail. now rewrite join_cons, <- app_assoc.
Qed.

Lemma count_row (cells : list str) :
  cells <> [] -> Forall ok_cell cells ->
  countPipes (row_text cells) = S (List.length cells).
Proof.
  destruct cells as [|c rest]; [congruence|]. intros _ H.
  inversion H as [|? ? Hc Hrest]; subst.
  unfold countPipes. rewrite row_text_eq.
  pose proof (count_tail Hrest (Some SPACE)) as Ht.
  destruct (row_tail_shape rest) as [u Eu]. rewrite Eu in Ht |- *.
  cbn [countPipes_from] in Ht |- *.
  change (SPACE =? PIPE)%N with false in *.
  change (PIPE =? PIPE)%N with true in *.
  change (SPACE =? BACKSLASH)%N with false in *.
  cbn [andb negb Nat.add] in Ht |- *.
  rewrite count_app by reflexivity.
  rewrite count_escaped by (now apply ok_cell_escaped).
  cbn [countPipes_from Nat.add List.length].
  change (PIPE =? PIPE)%N with true.
  change (SPACE =? BACKSLASH)%N with false.
  cbn [andb negb]. lia.
Qed.

(** *** The separator line *)

Lemma star_class (p : char -> bool) (s : str) :
  forallb p s = true -> accepts (Star (Cls p)) s.
Proof.
  induction s as [|c s IH]; intros H; [constructor|].
  cbn [forallb] in H. apply andb_true_iff in H. destruct H as [Hc Hs].
  change (c :: s) with ([c] ++ s).
  constructor; [now constructor | now apply IH].
Qed.

Lemma sep_tail_class k :
  forallb sep_class (row_tail (repeat (lit "---") k)) = true.
Proof.
  unfold row_tail. induction k as [|k IH]; [reflexivity|].
  cbn [repeat map concat]. rewrite <- !app_assoc.
  rewrite forallb_app, forallb_app, IH. reflexivity.
Qed.

Lemma sep_tail_shape k :
  exists rest,
    row_tail (repeat (lit "---") k) = SPACE :: PIPE :: rest
    /\ forallb sep_class rest = true.
Proof.
  destruct k as [|k].
  - exists []. split; reflexivity.
  - exists (lit " ---" ++ row_tail (repeat (lit "---") k)).
    split; [unfold row_tail; cbn [repeat map concat];
            now rewrite <- !app_assoc|].
    rewrite forallb_app, sep_tail_class. reflexivity.
Qed.

Lemma sep_row_matches n :
  0 < n -> isTableSepLine (row_text (repeat (lit "---") n)) = true.
Proof.
  destruct n as [|k]; [lia|]. intros _.
  unfold isTableSepLine. apply matches_accepts.
  cbn [repeat]. rewrite row_text_eq.
  destruct (sep_tail_shape k) as [rest [-> T]].
  change (PIPE :: SPACE :: lit "---" ++ SPACE :: PIPE :: rest)
    with ([] ++ [PIPE] ++ ([SPACE] ++ lit "--- ") ++ [PIPE] ++ rest).
  unfold sep_re. cbn [seq].
  apply ACat; [apply AStar0|].
  apply ACat; [apply AAltR, ACls; reflexivity|].
  apply ACat.
  { apply ACat; [apply ACls; reflexivity | apply star_class; reflexivity]. }
  apply ACat; [apply ACls; reflexivity | apply star_class; exact T].
Qed.

(** *** A line of a table is no fence line and is not blank *)

Lemma trim_pipe r : exists r', trim (PIPE :: r) = PIPE :: r'.
Proof.
  unfold trim. cbn [ltrim]. change (is_ws PIPE) with false. cbn [rtrim].
  destruct (rtrim r); eexists; reflexivity.
Qed.

Lemma row_not_fence cells : is_fence_line (row_text cells) = false.
Proof.
  unfold is_fence_line, row_text.
  change (lit "| " ++ ?t) with (PIPE :: SPACE :: t).
  destruct (trim_pipe (SPACE :: join (lit " | ") cells ++ lit " |"))
    as [r' ->].
  reflexivity.
Qed.

Lemma row_not_blank cells : is_empty (trim (row_text cells)) = false.
Proof.
  unfold row_text. change (lit "| " ++ ?t) with (PIPE :: SPACE :: t).
  destruct (trim_pipe (SPACE :: join (lit " | ") cells ++ lit " |"))
    as [r' ->].
  reflexivity.
Qed.

Lemma in_join c sep l :
  In c (join sep l) -> In c sep \/ exists x, In x l /\ In c x.
Proof.
  induction l as [|x l IH]; [intros []|].
  destruct l as [|y l'].
  - cbn [join]. intros H. right. exists x. split; [now left | exact H].
  - change (join sep (x :: y :: l')) with (x ++ sep ++ join sep (y :: l')).
    rewrite !in_app_iff. intros [H|[H|H]].
    + right. exists x. split; [now left | exact H].
    + now left.
    + destruct (IH H) as [|[z [Hz Hc]]]; [now left|].
      right. exists z. split; [now right | exact Hc].
Qed.

Lemma row_no_lf cells : Forall ok_cell cells -> ~ In LF (row_text cells).
Proof.
  intros H. unfold row_text. rewrite !in_app_iff. intros [Hin|[Hin|Hin]].
  - cbn in Hin. destruct Hin as [E|[E|[]]]; discriminate E.
  - apply in_join in Hin. destruct Hin as [Hin|[x [Hx Hin]]].
    + cbn in Hin. destruct Hin as [E|[E|[E|[]]]]; discriminate E.
    + rewrite Forall_forall in H. now apply (ok_cell_no_lf (H x Hx)).
  - cbn in Hin. destruct Hin as [E|[E|[]]]; discriminate E.
Qed.

(** *** The steps of the loop over the lines of a table *)

Lemma step_blank st next :
  inFence st = false ->
  exists st', step st [] next = st'
              /\ out st' = out st ++ [[]]
              /\ inFence st' = false /\ inTable st' = false.
Proof.
  intros Hf. unfold step. change (trim []) with (@nil char).
  cbn [startsWith fence3]. rewrite Hf. change (countPipes []) with 0.
  cbn [Nat.leb]. rewrite andb_false_r. cbn [andb is_empty].
  destruct (inTable st) eqn:Ht; eexists; (split; [reflexivity|]);
    cbn [push out inFence inTable]; auto.
Qed.

Lemma step_header st header next :
  inFence st = false -> inTable st = false ->
  header <> [] -> Forall ok_cell header ->
  isTableSepLine next = true ->
  step st (row_text header) next
  = mkState (out st ++ [row_text header]) false true
            (S (List.length header)).
Proof.
  intros Hf Ht Hne Hok Hnext. unfold step.
  pose proof (row_not_fence header) as F. unfold is_fence_line in F.
  assert (L : (2 <=? S (List.length header)) = true)
    by (destruct header; [congruence | reflexivity]).
  rewrite F, Hf, Ht, (count_row Hne Hok), Hnext, L. reflexivity.
Qed.

Lemma step_row st cells :
  inFence st = false -> inTable st = true ->
  tablePipeCount st = S (List.length cells) ->
  cells <> [] -> Forall ok_cell cells ->
  forall next, step st (row_text cells) next = push st (row_text cells).
Proof.
  intros Hf Ht Hc Hne Hok next. unfold step.
  pose proof (row_not_fence cells) as F. unfold is_fence_line in F.
  rewrite F, Hf, Ht, (count_row Hne Hok), Hc, row_not_blank.
  cbn [negb andb]. now rewrite Nat.leb_refl, orb_true_r.
Qed.

Lemma rows_pushed n (rows : list (list str)) (post : list str) :
  0 < n ->
  Forall (fun cells => List.length cells = n /\ Forall ok_cell cells) rows ->
  forall st,
    inFence st = false -> inTable st = true -> tablePipeCount st = S n ->
    exists st',
      loop st (map row_text rows ++ post) = loop st' post
      /\ out st' = out st ++ map row_text rows
      /\ inFence st' = false.
Proof.
  intros Hn. induction 1 as [|cells rows [Hl Hok] _ IH]; intros st Hf Ht Hc.
  - exists st. cbn. now rewrite app_nil_r.
  - cbn [map List.app loop].
    rewrite step_row;
      [| exact Hf | exact Ht | now rewrite Hl
       | intros ->; cbn in Hl; lia | exact Hok].
    destruct (IH (push st (row_text cells)) Hf Ht Hc) as [st' [E [Ho Hf']]].
    exists st'. split; [exact E|]. split; [|exact Hf'].
    rewrite Ho. cbn [push out]. now rewrite <- app_assoc.
Qed.

Lemma fenced_pushed (ls post : list str) :
  Forall (fun l => is_fence_line l = false) ls ->
  forall st,
    inFence st = true ->
    exists st',
      loop st (ls ++ post) = loop st' post
      /\ out st' = out st ++ ls
      /\ inFence st' = true.
Proof.
  induction 1 as [|l ls Hl _ IH]; intros st Hf.
  - exists st. cbn. now rewrite app_nil_r.
  - cbn [List.app loop]. rewrite (@step_in_fence st l _ Hl Hf).
    destruct (IH (push st l) Hf) as [st' [E [Ho Hf']]].
    exists st'. split; [exact E|]. split; [|exact Hf'].
    rewrite Ho. cbn [push out]. now rewrite <- app_assoc.
Qed.

Lemma table_lines_pass n (header : list str) (body : list (list str))
    (st : state) (post : list str) :
  0 < n -> List.length header = n -> Forall ok_cell header ->
  Forall (fun cells => List.length cells = n /\ Forall ok_cell cells) body ->
  let T := map row_text (header :: repeat (lit "---") n :: body) in
  exists st',
    loop st ([] :: T ++ post) = loop st' post
    /\ out st' = out st ++ [] :: T
    /\ inFence st' = inFence st.
Proof.
  intros Hn Hl Hok Hbody T.
  destruct (inFence st) eqn:Hf.
  - change ([] :: T ++ post) with (([] :: T) ++ post).
    apply fenced_pushed; [|exact Hf].
    constructor; [reflexivity|]. unfold T.
    apply Forall_forall. intros l Hin. apply in_map_iff in Hin.
    destruct Hin as [cells [<- _]]. apply row_not_fence.
  - cbn [loop]. destruct (step_blank st (hd [] (T ++ post)) Hf)
      as [st1 [-> [O1 [F1 T1]]]].
    unfold T at 1. cbn [map List.app loop hd].
    assert (Hne : header <> []) by (intros ->; cbn in Hl; lia).
    rewrite (@step_header st1 header _ F1 T1 Hne Hok (sep_row_matches Hn)).
    assert (Hsep : Forall (fun cells => List.length cells = n
                                        /\ Forall ok_cell cells)
                     (repeat (lit "---") n :: body)).
    { constructor; [|exact Hbody]. split; [apply repeat_length|].
      apply Forall_forall. intros c Hc. apply repeat_spec in Hc.
      now subst c. }
    destruct (@rows_pushed n (repeat (lit "---") n :: body) post Hn Hsep
                (mkState (out st1 ++ [row_text header]) false true
                         (S (List.length header))))
      as [st' [E [Ho Hf']]]; [reflexivity | reflexivity | now rewrite Hl |].
    exists st'. split; [exact E|]. split; [|exact Hf'].
    rewrite Ho. cbn [out]. rewrite O1. unfold T. cbn [map].
    now rewrite <- !app_assoc.
Qed.

Lemma table_line_eq cells : table_line cells = row_text cells ++ [LF].
Proof. unfold table_line, row_text. now rewrite <- !app_assoc. Qed.

(** X15: a table written by the walker passes the normalizer untouched.
    What [extractTable] writes, when it writes, is a blank line, at least
    two lines and a line feed; wherever these lines stand in the text given
    to [normalizeMarkdown], inside a fence or not, within a table or not,
    and whatever follows them, the loop copies the blank line and each of
    them to the output as it is and leaves fence mode as it was. *)
Theorem walker_table_survives (anc : list einfo) (table : node) (md : str) :
  extractTable anc table md = md
  \/ exists T : list str,
       extractTable anc table md
       = md ++ [LF; LF] ++ concat (map (fun l => l ++ [LF]) T) ++ [LF]
       /\ 2 <= List.length T
       /\ Forall (fun l => ~ In LF l) T
       /\ forall st post, exists st',
            loop st ([] :: T ++ post) = loop st' post
            /\ out st' = out st ++ [] :: T
            /\ inFence st' = inFence st.
Proof.
  destruct (extractTable_grid anc table md)
    as [E|[n [header [body [Hn [Hl [Hb [Hh [Hbo E]]]]]]]]]; [now left|].
  right. exists (map row_text (header :: repeat (lit "---") n :: body)).
  assert (Hbody : Forall (fun cells => List.length cells = n
                                       /\ Forall ok_cell cells) body).
  { rewrite Forall_forall in *. intros cells Hin. split; [now apply Hb|].
    apply Forall_forall. intros c Hc.
    specialize (Hbo cells Hin). rewrite Forall_forall in Hbo.
    now apply Hbo. }
  split; [|split; [|split]].
  - rewrite E. cbn [map concat]. rewrite map_map, !table_line_eq.
    rewrite (map_ext table_line (fun x => row_text x ++ [LF]) table_line_eq).
    now rewrite <- !app_assoc.
  - cbn [map List.length]. lia.
  - apply Forall_forall. intros l Hin. apply in_map_iff in Hin.
    destruct Hin as [cells [<- Hin]]. apply row_no_lf.
    destruct Hin as [<-|[<-|Hin]].
    + exact Hh.
    + apply Forall_forall. intros c Hc. apply repeat_spec in Hc. now subst c.
    + rewrite Forall_forall in Hbody. now apply Hbody.
  - intros st post. now apply table_lines_pass.
Qed.

End TableNormalizes.

(* ================================================================== *)
(** ** The fences of code blocks and of inline code *)

Module FenceProps.
Import Js Dom Walker JsFacts WalkerProps.

Lemma runs_after_backticks k b : forall cur,
  backtick_runs_from cur (repeat BACKTICK k ++ b)
  = backtick_runs_from (cur + k) b.
Proof.
  induction k as [|k IH]; intros cur.
  - cbn. now rewrite Nat.add_0_r.
  - cbn [repeat List.app backtick_runs_from].
    change (BACKTICK =? BACKTICK)%N with true. cbn iota.
    rewrite IH. f_equal. lia.
Qed.

Lemma run_pending b : forall cur,
  0 < cur -> exists r, In r (backtick_runs_from cur b) /\ cur <= r.
Proof.
  induction b as [|c b IH]; intros cur Hc.
  - destruct cur; [lia|]. exists (S cur). split; [now left | lia].
  - cbn [backtick_runs_from]. destruct (c =? BACKTICK)%N.
    + destruct (IH (S cur)) as [r [Hin Hr]]; [lia|].
      exists r. split; [exact Hin | lia].
    + destruct cur; [lia|]. exists (S cur). split; [now left | lia].
Qed.

(** A run of [k] backticks inside a text is part of one of its maximal
    runs. *)
Lemma run_covers k a b : forall cur,
  0 < k ->
  exists r, In r (backtick_runs_from cur (a ++ repeat BACKTICK k ++ b))
            /\ k <= r.
Proof.
  induction a as [|c a IH]; intros cur Hk.
  - cbn [List.app]. rewrite runs_after_backticks.
    destruct (@run_pending b (cur + k)) as [r [Hin Hr]]; [lia|].
    exists r. split; [exact Hin | lia].
  - cbn [List.app backtick_runs_from]. destruct (c =? BACKTICK)%N.
    + apply IH, Hk.
    + destruct (IH 0 Hk) as [r [Hin Hr]].
      exists r. split; [|exact Hr]. destruct cur; [exact Hin | now right].
Qed.

Lemma startsWith_prefix p : forall s,
  startsWith p s = true -> exists b, s = p ++ b.
Proof.
  induction p as [|x p IH]; intros s H; [now exists s|].
  destruct s as [|y s]; [discriminate H|].
  cbn [startsWith] in H. apply andb_true_iff in H. destruct H as [E H].
  apply N.eqb_eq in E. subst y. destruct (IH s H) as [b ->].
  now exists b.
Qed.

Lemma includes_infix p : forall s,
  includes p s = true -> exists a b, s = a ++ p ++ b.
Proof.
  induction s as [|c s IH]; cbn [includes]; intros H.
  - rewrite orb_false_r in H. apply startsWith_prefix in H.
    destruct H as [b ->]. now exists [], b.
  - apply orb_true_iff in H. destruct H as [H|H].
    + apply startsWith_prefix in H. destruct H as [b ->]. now exists [], b.
    + destruct (IH H) as [a [b ->]]. now exists (c :: a), b.
Qed.

Lemma longer_not_included k t :
  longest_run t < k -> includes (repeat BACKTICK k) t = false.
Proof.
  intros Hk. destruct (includes (repeat BACKTICK k) t) eqn:E; [|reflexivity].
  apply includes_infix in E. destruct E as [a [b E]].
  destruct (@run_covers k a b 0) as [r [Hin Hr]]; [lia|].
  rewrite <- E in Hin. fold (backtick_runs t) in Hin.
  destruct (fold_max_ge (backtick_runs t) 0) as [_ H].
  rewrite Forall_forall in H. apply H in Hin.
  unfold longest_run in Hk. lia.
Qed.

(** X16: the fence chosen for a code block and the one chosen for inline
    code are runs of backticks, of at least three and of at least one, and
    none of them occurs in the text it encloses: the code cannot close its
    own fence. *)
Theorem fence_not_in_text (t : str) :
  fenceFor t = repeat BACKTICK (List.length (fenceFor t))
  /\ 3 <= List.length (fenceFor t)
  /\ includes (fenceFor t) t = false
  /\ inlineFence t = repeat BACKTICK (List.length (inlineFence t))
  /\ 1 <= List.length (inlineFence t)
  /\ includes (inlineFence t) t = false.
Proof.
  unfold fenceFor, inlineFence, repeat_char. rewrite !repeat_length.
  repeat split; try reflexivity; try lia; apply longer_not_included; lia.
Qed.

End FenceProps.

(* ================================================================== *)
(** ** The number of lines cleared before the final rendering *)

Module LineCountProps.
Import Js LineCount LineCountAux JsFacts.

Lemma ceil_div_small w a : a <= w -> 0 < w -> ceil_div a w <= 1.
Proof.
  intros Ha Hw. unfold ceil_div.
  apply Nat.lt_succ_r, Nat.Div0.div_lt_upper_bound. lia.
Qed.

Lemma ceil_div_mono w a b : a <= b -> ceil_div a w <= ceil_div b w.
Proof. intros H. unfold ceil_div. apply Nat.Div0.div_le_mono. lia. Qed.

Lemma ceil_div_wrap w a : 0 < w -> ceil_div (w + a) w = 1 + ceil_div a w.
Proof.
  intros Hw. unfold ceil_div.
  replace (w + a + w - 1) with (1 * w + (a + w - 1)) by lia.
  rewrite Nat.div_add_l by lia. reflexivity.
Qed.

Lemma rows_mono w a b : a <= b -> rows w a <= rows w b.
Proof. intros H. unfold rows. pose proof (ceil_div_mono w H). lia. Qed.

Lemma fold_sum (A : Type) (f : A -> nat) (l : list A) : forall a,
  fold_left (fun acc x => acc + f x) l a = a + list_sum (map f l).
Proof.
  unfold list_sum.
  induction l as [|x l IH]; intros a; cbn [fold_left map fold_right]; [lia|].
  rewrite IH. lia.
Qed.

Lemma type_all_text columns t : forall st,
  streamedText (fold_left (type_char columns) t st) = streamedText st ++ t.
Proof.
  induction t as [|c t IH]; intros st; cbn [fold_left].
  - now rewrite app_nil_r.
  - rewrite IH. unfold type_char.
    destruct (c =? LF)%N; [|destruct (_ <=? _)];
      cbn [streamedText]; now rewrite <- app_assoc.
Qed.

(** The counter of lines keeps up with the rows of the text written. *)
Lemma lines_keep_up c t : forall text col lines,
  col < S c ->
  lines + rows_after (S c) col t
  <= streamLines (fold_left (type_char (Some (S c))) t
                    (mkCounters text col lines)) + 1.
Proof.
  induction t as [|x t IH]; intros text col lines Hcol.
  - cbn [fold_left streamLines]. unfold rows_after, rows, list_sum.
    cbn [split_nl map fold_right List.length]. rewrite !Nat.add_0_r.
    pose proof (@ceil_div_small (S c) col). lia.
  - cbn [fold_left]. unfold type_char at 2.
    cbn [streamedText streamCol streamLines columns_or].
    unfold rows_after. cbn [split_nl].
    pose proof (split_nl_nonempty t) as Hne.
    destruct (x =? LF)%N.
    + specialize (IH (text ++ [x]) 0 (lines + 1)).
      unfold rows_after in IH.
      destruct (split_nl t) as [|l ls]; [congruence|].
      cbn [map List.length]. rewrite Nat.add_0_r.
      change (list_sum (?a :: ?l)) with (a + list_sum l).
      cbn [Nat.add] in IH.
      assert (R1 : rows (S c) col = 1).
      { unfold rows. pose proof (@ceil_div_small (S c) col). lia. }
      rewrite R1. specialize (IH ltac:(lia)). lia.
    + destruct (split_nl t) as [|l ls] eqn:El; [congruence|].
      cbn [List.length].
      destruct (Nat.leb_spec (S c) (col + 1)) as [Hw|Hw].
      * specialize (IH (text ++ [x]) 0 (lines + 1) ltac:(lia)).
        unfold rows_after in IH. rewrite El in IH. cbn [Nat.add] in IH.
        assert (E : col + S (List.length l) = S c + List.length l) by lia.
        rewrite E. unfold rows in *.
        rewrite ceil_div_wrap by lia. lia.
      * specialize (IH (text ++ [x]) (col + 1) lines ltac:(lia)).
        unfold rows_after in IH. rewrite El in IH.
        replace (col + S (List.length l)) with (col + 1 + List.length l)
          by lia.
        exact IH.
Qed.

Section WithStrip.

Variable stripAnsi : str -> str.
Hypothesis strip_shortens :
  forall l, List.length (stripAnsi l) <= List.length l.

Lemma raw_below_rows c t :
  calculateRawLines stripAnsi (Some (S c)) t <= rows_after (S c) 0 t.
Proof.
  unfold calculateRawLines, rows_after. rewrite fold_sum.
  cbn [columns_or Nat.add].
  pose proof (split_nl_nonempty t) as Hne.
  destruct (split_nl t) as [|l ls]; [congruence|].
  cbn [map list_sum]. fold (rows (S c) (List.length (stripAnsi l))).
  pose proof (@rows_mono (S c) _ _ (strip_shortens l)).
  assert (H1 : list_sum (map (fun x => Nat.max 1
                                (ceil_div (List.length (stripAnsi x)) (S c)))
                             ls)
               <= list_sum (map (fun x => rows (S c) (List.length x)) ls)).
  { clear - strip_shortens. unfold list_sum.
    induction ls as [|y ls IH]; cbn [map fold_right]; [lia|].
    pose proof (@rows_mono (S c) _ _ (strip_shortens y)).
    unfold rows in *. lia. }
  change (list_sum (?a :: ?r)) with (a + list_sum r). lia.
Qed.

(** X19: in a terminal whose width is known, the line counter that
    [typeNextChar] keeps while it writes is never below the number of rows
    that [calculateRawLines] computes for the text written, whatever
    [stripAnsi] removes: once something has been streamed, the number of
    lines cleared before the final rendering is [streamLines], and the
    maximum taken with the computed rows never changes it. *)
Theorem cleared_lines_are_stream_lines (c : nat) (t fullText : str) :
  t <> [] ->
  streamedText (type_all (Some (S c)) t) = t
  /\ calculateRawLines stripAnsi (Some (S c)) t
     <= streamLines (type_all (Some (S c)) t)
  /\ linesToClear stripAnsi (Some (S c)) (type_all (Some (S c)) t) fullText
     = streamLines (type_all (Some (S c)) t).
Proof.
  intros Hne.
  assert (T : streamedText (type_all (Some (S c)) t) = t)
    by (unfold type_all; now rewrite type_all_text).
  assert (L : calculateRawLines stripAnsi (Some (S c)) t
              <= streamLines (type_all (Some (S c)) t)).
  { pose proof (raw_below_rows c t) as H1.
    pose proof (@lines_keep_up c t [] 0 1 ltac:(lia)) as H2.
    unfold type_all, start. lia. }
  split; [exact T|]. split; [exact L|].
  unfold linesToClear. rewrite T.
  destruct t as [|x t']; [congruence|]. cbn [is_empty]. lia.
Qed.

End WithStrip.

Lemma cleared_lines_are_stream_lines_witness :
  linesToClear (filter (fun c => negb (c =? 27)%N)) (Some 4)
    (type_all (Some 4) (text ["abcdefgh"; "ij"]%string)) (lit "final") = 4.
Proof.
  refine (eq_trans
            (proj2 (proj2 (@cleared_lines_are_stream_lines
                             (filter (fun c => negb (c =? 27)%N))
                             (fun l => filter_length_le _ l)
                             3 (text ["abcdefgh"; "ij"]%string) (lit "final") _)))
            _).
  - discriminate.
  - reflexivity.
Defined.

End LineCountProps.
